(** * LLM agent tool-calling loop (app.js): a shallow embedding

    The class [LLMAgent] of app.js is embedded as state-passing functions
    over a record of its fields.  JavaScript values that travel through the
    agent (parsed tool arguments, handler results, values produced by
    evaluated code) are the JSON-representable values plus [undefined];
    numbers are modelled by their integer value and strings by 8-bit
    characters.  The runtime built-ins the code calls ([JSON.parse],
    [JSON.stringify], template-literal string conversion, [Object.entries],
    [String.prototype.trim]) are given executable models in [Module JS];
    [eval] and the network are oracles of the environment. *)

From Stdlib Require Import String Ascii List ZArith Bool Lia PeanoNat.
From Stdlib Require Import DecimalString DecimalZ DecimalFacts.
Import ListNotations.

Local Open Scope list_scope.
Local Open Scope string_scope.
Local Open Scope nat_scope.

(* ================================================================== *)
(** ** JavaScript values and the built-ins used by app.js *)
(* ================================================================== *)

Module JS.

Unset Elimination Schemes.
Inductive jsval : Type :=
| VUndefined
| VNull
| VBool (b : bool)
| VNum (z : Z)
| VStr (s : string)
| VArr (items : list jsval)
| VObj (props : list (string * jsval)).
Set Elimination Schemes.

(** Error objects: every exception raised by the agent's own code or by the
    runtime is an [Error] instance carrying a [message]. *)
Inductive ErrorKind := Error | TypeError | SyntaxError.

Record JsError := mkError { err_kind : ErrorKind; message : string }.

(** Completion of a computation that may throw. *)
Inductive Completion (A : Type) : Type :=
| Return (a : A)
| Throw (e : JsError).
Arguments Return {A} a.
Arguments Throw {A} e.

Definition cbind {A B} (c : Completion A) (k : A -> Completion B) : Completion B :=
  match c with
  | Return a => k a
  | Throw e => Throw e
  end.

Definition dquote : string := String "034"%char EmptyString.
Definition nl : string := String "010"%char EmptyString.

(** [typeof v] *)
Inductive jstype := TUndefined | TObject | TBoolean | TNumber | TString.

Definition typeof (v : jsval) : jstype :=
  match v with
  | VUndefined => TUndefined
  | VNull => TObject
  | VBool _ => TBoolean
  | VNum _ => TNumber
  | VStr _ => TString
  | VArr _ => TObject
  | VObj _ => TObject
  end.

Definition is_string (v : jsval) : bool :=
  match v with VStr _ => true | _ => false end.

Definition is_object_type (v : jsval) : bool :=
  match typeof v with TObject => true | _ => false end.

(** ToBoolean: the falsy values are undefined, null, false, 0 and the empty
    string. *)
Definition truthy (v : jsval) : bool :=
  match v with
  | VUndefined | VNull => false
  | VBool b => b
  | VNum z => negb (Z.eqb z 0)
  | VStr s => negb (String.eqb s EmptyString)
  | VArr _ | VObj _ => true
  end.

Definition truthy_string (s : string) : bool := negb (String.eqb s EmptyString).

(** Own property lookup in an object's property list. *)
Fixpoint lookup (k : string) (props : list (string * jsval)) : option jsval :=
  match props with
  | [] => None
  | (k', v) :: rest => if String.eqb k k' then Some v else lookup k rest
  end.

Definition has_own (k : string) (props : list (string * jsval)) : bool :=
  match lookup k props with Some _ => true | None => false end.

(** [v.k] for a value that is neither undefined nor null, for the property
    names app.js reads from parsed data ([query], [workflow], [data],
    [code], [message]): none of them is defined on a prototype, so only an
    object's own property can answer. *)
Definition Get (v : jsval) (k : string) : jsval :=
  match v with
  | VObj props => match lookup k props with Some x => x | None => VUndefined end
  | _ => VUndefined
  end.

(** Destructuring [{ k }] of a parameter or a thrown value: undefined and
    null cannot be destructured. *)
Definition destructure (v : jsval) (k : string) : Completion jsval :=
  match v with
  | VUndefined | VNull =>
      Throw (mkError TypeError ("Cannot destructure property '" ++ k ++ "' of null or undefined"))
  | _ => Return (Get v k)
  end.

(** Number::toString for integers *)
Definition Number_toString (z : Z) : string :=
  NilZero.string_of_int (Z.to_int z).

Fixpoint sequence {A} (l : list (Completion A)) : Completion (list A) :=
  match l with
  | [] => Return []
  | c :: rest => cbind c (fun a => cbind (sequence rest) (fun r => Return (a :: r)))
  end.

(** ToString, as applied by template literals and [Array.prototype.join].
    An ordinary object converts through [toString] then [valueOf]: a parsed
    object that carries its own (never callable) [toString] property masks
    [Object.prototype.toString], and the conversion raises a TypeError. *)
Fixpoint ToString (v : jsval) : Completion string :=
  match v with
  | VUndefined => Return "undefined"
  | VNull => Return "null"
  | VBool b => Return (if b then "true" else "false")
  | VNum z => Return (Number_toString z)
  | VStr s => Return s
  | VArr items =>
      cbind (sequence (map (fun x =>
                              match x with
                              | VUndefined | VNull => Return EmptyString
                              | _ => ToString x
                              end) items))
            (fun parts => Return (String.concat "," parts))
  | VObj props =>
      if has_own "toString" props
      then Throw (mkError TypeError "Cannot convert object to primitive value")
      else Return "[object Object]"
  end.

(** [Object.entries] *)
Fixpoint index_from (i : nat) (items : list jsval) : list (string * jsval) :=
  match items with
  | [] => []
  | x :: rest => (Number_toString (Z.of_nat i), x) :: index_from (S i) rest
  end.

Fixpoint chars_from (i : nat) (s : string) : list (string * jsval) :=
  match s with
  | EmptyString => []
  | String c rest =>
      (Number_toString (Z.of_nat i), VStr (String c EmptyString)) :: chars_from (S i) rest
  end.

Definition Object_entries (v : jsval) : Completion (list (string * jsval)) :=
  match v with
  | VUndefined | VNull =>
      Throw (mkError TypeError "Cannot convert undefined or null to object")
  | VObj props => Return props
  | VArr items => Return (index_from 0 items)
  | VStr s => Return (chars_from 0 s)
  | VBool _ | VNum _ => Return []
  end.

(** [String.prototype.trim] on 8-bit strings *)
Definition is_space (c : ascii) : bool :=
  let n := nat_of_ascii c in
  ((9 <=? n) && (n <=? 13)) || (n =? 32) || (n =? 160).

Fixpoint trim_start (s : string) : string :=
  match s with
  | String c rest => if is_space c then trim_start rest else s
  | EmptyString => EmptyString
  end.

Fixpoint rev_string (acc s : string) : string :=
  match s with
  | EmptyString => acc
  | String c rest => rev_string (String c acc) rest
  end.

Definition trim (s : string) : string :=
  rev_string EmptyString (trim_start (rev_string EmptyString (trim_start s))).

(* ------------------------------------------------------------------ *)
(** *** The JSON object: [JSON.stringify] and [JSON.parse] *)

Module JSON.

Definition backslash : string := String "092"%char EmptyString.

Definition hex_digit (n : nat) : ascii :=
  match n with
  | 0 => "0" | 1 => "1" | 2 => "2" | 3 => "3" | 4 => "4" | 5 => "5"
  | 6 => "6" | 7 => "7" | 8 => "8" | 9 => "9" | 10 => "a" | 11 => "b"
  | 12 => "c" | 13 => "d" | 14 => "e" | _ => "f"
  end%char.

(** QuoteJSONString, one code unit at a time *)
Definition quote_char (c : ascii) : string :=
  let n := nat_of_ascii c in
  if n =? 34 then backslash ++ dquote
  else if n =? 92 then backslash ++ backslash
  else if n =? 8 then backslash ++ "b"
  else if n =? 9 then backslash ++ "t"
  else if n =? 10 then backslash ++ "n"
  else if n =? 12 then backslash ++ "f"
  else if n =? 13 then backslash ++ "r"
  else if n <? 32 then
    backslash ++ "u00" ++ String (hex_digit (n / 16)) (String (hex_digit (n mod 16)) EmptyString)
  else String c EmptyString.

Fixpoint quote_chars (s : string) : string :=
  match s with
  | EmptyString => EmptyString
  | String c rest => quote_char c ++ quote_chars rest
  end.

Definition quote (s : string) : string := dquote ++ quote_chars s ++ dquote.

Definition is_empty (s : string) : bool :=
  match s with EmptyString => true | _ => false end.

(** SerializeJSONProperty with its SerializeJSONArray and
    SerializeJSONObject: [gap] is the indentation unit, [indent] the current
    indentation.  [None] is the [undefined] the built-in returns for a value
    that has no JSON text. *)
Fixpoint serialize (gap indent : string) (v : jsval) : option string :=
  match v with
  | VUndefined => None
  | VNull => Some "null"
  | VBool b => Some (if b then "true" else "false")
  | VNum z => Some (Number_toString z)
  | VStr s => Some (quote s)
  | VArr items =>
      let stepback := indent in
      let indent := indent ++ gap in
      let partial :=
        map (fun x => match serialize gap indent x with
                      | Some t => t
                      | None => "null"
                      end) items in
      Some (match partial with
            | [] => "[]"
            | _ =>
                if is_empty gap
                then "[" ++ String.concat "," partial ++ "]"
                else "[" ++ nl ++ indent
                         ++ String.concat ("," ++ nl ++ indent) partial
                         ++ nl ++ stepback ++ "]"
            end)
  | VObj props =>
      let stepback := indent in
      let indent := indent ++ gap in
      let partial :=
        flat_map (fun kv => match kv with
                            | (k, x) =>
                                match serialize gap indent x with
                                | Some t =>
                                    [quote k ++ ":" ++ (if is_empty gap then EmptyString else " ") ++ t]
                                | None => []
                                end
                            end) props in
      Some (match partial with
            | [] => "{}"
            | _ =>
                if is_empty gap
                then "{" ++ String.concat "," partial ++ "}"
                else "{" ++ nl ++ indent
                         ++ String.concat ("," ++ nl ++ indent) partial
                         ++ nl ++ stepback ++ "}"
            end)
  end.

Fixpoint spaces (n : nat) : string :=
  match n with
  | O => EmptyString
  | S m => String " " (spaces m)
  end.

(** [JSON.stringify(v, null, space)]; [JSON.stringify(v)] is [stringify v 0]. *)
Definition stringify (v : jsval) (space : nat) : option string :=
  serialize (spaces space) EmptyString v.

(** [JSON.parse]: a recursive-descent reader of JSON text.  Integers are the
    only numbers of the model, so a fraction or an exponent is refused. *)
Definition is_ws (c : ascii) : bool :=
  let n := nat_of_ascii c in
  (n =? 32) || (n =? 9) || (n =? 10) || (n =? 13).

Fixpoint skip_ws (s : string) : string :=
  match s with
  | String c rest => if is_ws c then skip_ws rest else s
  | EmptyString => EmptyString
  end.

Definition is_number_char (c : ascii) : bool :=
  let n := nat_of_ascii c in
  ((48 <=? n) && (n <=? 57)) || (n =? 45).

Fixpoint span_number (s : string) : string * string :=
  match s with
  | String c rest =>
      if is_number_char c
      then let (tok, r) := span_number rest in (String c tok, r)
      else (EmptyString, s)
  | EmptyString => (EmptyString, EmptyString)
  end.

Definition continues_number (s : string) : bool :=
  match s with
  | String c _ =>
      let n := nat_of_ascii c in
      (n =? 46) || (n =? 101) || (n =? 69)
  | EmptyString => false
  end.

Definition parse_number (s : string) : option (jsval * string) :=
  let (tok, rest) := span_number s in
  if continues_number rest then None
  else match NilZero.int_of_string tok with
       | None => None
       | Some d =>
           let z := Z.of_int d in
           if String.eqb (Number_toString z) tok then Some (VNum z, rest) else None
       end.

Definition hex_value (c : ascii) : option nat :=
  let n := nat_of_ascii c in
  if (48 <=? n) && (n <=? 57) then Some (n - 48)
  else if (97 <=? n) && (n <=? 102) then Some (n - 87)
  else if (65 <=? n) && (n <=? 70) then Some (n - 55)
  else None.

Definition unescape (c : ascii) : option ascii :=
  let n := nat_of_ascii c in
  if n =? 34 then Some "034"%char
  else if n =? 92 then Some "092"%char
  else if n =? 47 then Some "/"%char
  else if n =? 98 then Some "008"%char
  else if n =? 102 then Some "012"%char
  else if n =? 110 then Some "010"%char
  else if n =? 114 then Some "013"%char
  else if n =? 116 then Some "009"%char
  else None.

Definition unescape_unicode (h1 h2 h3 h4 : ascii) : option ascii :=
  match hex_value h1, hex_value h2, hex_value h3, hex_value h4 with
  | Some 0, Some 0, Some a, Some b => Some (ascii_of_nat (16 * a + b))
  | _, _, _, _ => None
  end.

(** The characters of a string literal, after its opening quote, up to and
    including the closing quote. *)
Fixpoint parse_chars (s : string) : option (string * string) :=
  match s with
  | EmptyString => None
  | String c rest =>
      let n := nat_of_ascii c in
      if n =? 34 then Some (EmptyString, rest)
      else if n =? 92 then
        match rest with
        | String e rest1 =>
            match unescape e with
            | Some c' =>
                match parse_chars rest1 with
                | Some (t, r) => Some (String c' t, r)
                | None => None
                end
            | None =>
                if nat_of_ascii e =? 117 then
                  match rest1 with
                  | String h1 (String h2 (String h3 (String h4 rest2))) =>
                      match unescape_unicode h1 h2 h3 h4 with
                      | Some c' =>
                          match parse_chars rest2 with
                          | Some (t, r) => Some (String c' t, r)
                          | None => None
                          end
                      | None => None
                      end
                  | _ => None
                  end
                else None
            end
        | EmptyString => None
        end
      else if n <? 32 then None
      else match parse_chars rest with
           | Some (t, r) => Some (String c t, r)
           | None => None
           end
  end.

Fixpoint strip_prefix (p s : string) : option string :=
  match p, s with
  | EmptyString, _ => Some s
  | String a p', String b s' => if Ascii.eqb a b then strip_prefix p' s' else None
  | String _ _, EmptyString => None
  end.

Definition parse_literal (lit : string) (v : jsval) (s : string) : option (jsval * string) :=
  match strip_prefix lit s with
  | Some rest => Some (v, rest)
  | None => None
  end.

(** CreateDataProperty on a property list: a repeated key keeps its place
    and takes the later value. *)
Fixpoint set_prop (k : string) (v : jsval) (props : list (string * jsval))
  : list (string * jsval) :=
  match props with
  | [] => [(k, v)]
  | (k', v') :: rest =>
      if String.eqb k k' then (k', v) :: rest else (k', v') :: set_prop k v rest
  end.

Definition make_object (members : list (string * jsval)) : jsval :=
  VObj (fold_left (fun props kv => set_prop (fst kv) (snd kv) props) members []).

Fixpoint parse_value (fuel : nat) (s : string) {struct fuel} : option (jsval * string) :=
  match fuel with
  | O => None
  | S n =>
      match skip_ws s with
      | EmptyString => None
      | String c rest as s' =>
          let k := nat_of_ascii c in
          if k =? 123 then
            match skip_ws rest with
            | String c' rest' as r =>
                if nat_of_ascii c' =? 125 then Some (VObj [], rest')
                else match parse_members n r with
                     | Some (members, r') => Some (make_object members, r')
                     | None => None
                     end
            | EmptyString => None
            end
          else if k =? 91 then
            match skip_ws rest with
            | String c' rest' as r =>
                if nat_of_ascii c' =? 93 then Some (VArr [], rest')
                else match parse_elements n r with
                     | Some (items, r') => Some (VArr items, r')
                     | None => None
                     end
            | EmptyString => None
            end
          else if k =? 34 then
            match parse_chars rest with
            | Some (t, r) => Some (VStr t, r)
            | None => None
            end
          else if k =? 110 then parse_literal "null" VNull s'
          else if k =? 116 then parse_literal "true" (VBool true) s'
          else if k =? 102 then parse_literal "false" (VBool false) s'
          else parse_number s'
      end
  end

with parse_elements (fuel : nat) (s : string) {struct fuel} : option (list jsval * string) :=
  match fuel with
  | O => None
  | S n =>
      match parse_value n s with
      | None => None
      | Some (v, r) =>
          match skip_ws r with
          | String c r' =>
              if nat_of_ascii c =? 44 then
                match parse_elements n r' with
                | Some (vs, r2) => Some (v :: vs, r2)
                | None => None
                end
              else if nat_of_ascii c =? 93 then Some ([v], r')
              else None
          | EmptyString => None
          end
      end
  end

with parse_members (fuel : nat) (s : string) {struct fuel}
  : option (list (string * jsval) * string) :=
  match fuel with
  | O => None
  | S n =>
      match skip_ws s with
      | String q r0 =>
          if nat_of_ascii q =? 34 then
            match parse_chars r0 with
            | None => None
            | Some (key, r1) =>
                match skip_ws r1 with
                | String colon r2 =>
                    if nat_of_ascii colon =? 58 then
                      match parse_value n r2 with
                      | None => None
                      | Some (v, r3) =>
                          match skip_ws r3 with
                          | String c r4 =>
                              if nat_of_ascii c =? 44 then
                                match parse_members n r4 with
                                | Some (ms, r5) => Some ((key, v) :: ms, r5)
                                | None => None
                                end
                              else if nat_of_ascii c =? 125 then Some ([(key, v)], r4)
                              else None
                          | EmptyString => None
                          end
                      end
                    else None
                | EmptyString => None
                end
            end
          else None
      | EmptyString => None
      end
  end.

(** [JSON.parse(text)]: a SyntaxError unless the whole text is one value. *)
Definition parse (text : string) : Completion jsval :=
  match parse_value (S (String.length text)) text with
  | Some (v, rest) =>
      if is_empty (skip_ws rest) then Return v
      else Throw (mkError SyntaxError "Unexpected non-whitespace character after JSON")
  | None => Throw (mkError SyntaxError "Unexpected token in JSON")
  end.

End JSON.

End JS.


Import JS.

(* ================================================================== *)
(** ** The agent's data *)
(* ================================================================== *)

(** A tool call as the model emits it:
    [{ id, function: { name, arguments } }], [arguments] being JSON text. *)
Record FunctionCall := mkFunctionCall { name : string; arguments : string }.

Record ToolCall := mkToolCall { id : string; function : FunctionCall }.

(** One entry of [this.conversation]. *)
Inductive Role := user | assistant | tool.

Record Turn := mkTurn {
  role : Role;
  content : option string;
  tool_calls : option (list ToolCall);
  tool_call_id : option string
}.

(** [{ role: 'user', content: message }] *)
Definition user_turn (text : string) : Turn :=
  mkTurn user (Some text) None None.

(** [{ role: 'assistant', content: message.content, tool_calls: message.tool_calls }] *)
Definition assistant_turn (text : option string) (calls : option (list ToolCall)) : Turn :=
  mkTurn assistant text calls None.

(** [{ role: 'tool', tool_call_id: toolCall.id, content: ... }] *)
Definition tool_turn (call_id : string) (text : option string) : Turn :=
  mkTurn tool text None (Some call_id).

(** The tool registry built by [initializeTools]. *)
Record ParamSpec := mkParam {
  param_name : string;
  param_type : string;
  param_description : string
}.

Record ToolSpec := mkTool {
  tool_name : string;
  tool_description : string;
  properties : list ParamSpec;
  required : list string
}.

Definition initializeTools : list ToolSpec :=
  [ mkTool "search_web"
      "Search the web using Google Custom Search API to find current information"
      [ mkParam "query" "string" "The search query to find relevant web content" ]
      [ "query" ];
    mkTool "ai_pipe"
      "Use AI Pipe proxy for flexible AI workflows and data processing"
      [ mkParam "workflow" "string" "Description of the AI workflow or task to execute";
        mkParam "data" "string" "Input data for the AI workflow (optional)" ]
      [ "workflow" ];
    mkTool "execute_js"
      "Execute JavaScript code safely in the browser environment"
      [ mkParam "code" "string" "JavaScript code to execute (use console.log for output)" ]
      [ "code" ] ].

(** [this.llmConfig] *)
Record LLMConfig := mkConfig {
  provider : string;
  apiKey : string;
  model : string;
  baseUrl : string
}.

(** The chat-completion exchange.  A field the backend may leave out is an
    [option]; [None] reads as [undefined]. *)
Record Message := mkMessage {
  message_content : option string;
  message_tool_calls : option (list ToolCall)
}.

Record Choice := mkChoice { choice_message : option Message }.

Record ChatCompletion := mkCompletion { choices : option (list Choice) }.

Record Payload := mkPayload {
  payload_model : string;
  payload_messages : list Turn;
  payload_tools : list ToolSpec;
  tool_choice : string;
  max_tokens : Z;
  temperature_tenths : Z
}.

(** What [fetch] settles to: a rejection, or a response whose [json()] is
    itself a completion. *)
Record Response := mkResponse {
  ok : bool;
  status : Z;
  statusText : string;
  json : Completion ChatCompletion
}.

Inductive FetchOutcome :=
| FetchRejected (e : JsError)
| FetchResolved (r : Response).

(** The function held by [console.log]. *)
Inductive LogFn :=
| NativeLog
| CaptureLog (originalLog : LogFn)
| OtherLog (n : nat).

(** What evaluating a piece of code does, as far as [executeJS] can
    observe: the calls that reached the capturing [console.log], a possible
    reassignment of [console.log], and the completion.  Evaluated code may
    throw any value, not only an [Error].

    The result and the thrown value need not be values of [jsval] (an
    object that refers to itself or carries methods and getters, a symbol,
    a function, a number that is no integer).  All the handler does with
    such a value is to turn it into text, the result in its template and
    the thrown value by reading [message]; that may run code of the value
    ([toJSON], [toString], a getter).  [EvalReturnOther] and
    [EvalThrowOther] give what the conversion yields, a text or the
    exception it raises, and what it leaves in [console.log] when it
    assigns it.

    The code may also leave [console.log] a property that cannot be
    assigned (a frozen [console], a property that is not writable, a getter
    without a setter): [EvalSealsConsole] gives the exception the next
    assignment raises in strict code.  Whether the code then returned or
    threw makes no difference to the handler, since the statement that
    follows either is that assignment.  The agent does not record the
    seal: what a later call finds on such a page is not followed. *)
Inductive EvalCompletion :=
| EvalReturn (result : jsval)
| EvalThrowError (e : JsError)
| EvalThrowValue (v : jsval)
| EvalReturnOther (rendering : Completion string) (leaves : option LogFn)
| EvalThrowOther (reading : Completion string) (leaves : option LogFn)
| EvalSealsConsole (refusal : JsError).

Record EvalOutcome := mkEval {
  eval_logged : list (list jsval);
  eval_console_log : option LogFn;
  eval_completion : EvalCompletion
}.

(** Effects on the page and the network, oldest first. *)
Inductive Event :=
| EvMessage (who text : string)
| EvToolCall (toolCall : ToolCall) (params : string)
| EvToolResult (toolId : string) (result : jsval) (isError : bool)
| EvAlert (text type : string)
| EvLoading (shown : bool)
| EvWelcome
| EvFetch (url : string) (key : string) (payload : Payload)
| EvDelay (ms : nat)
| EvConsole (args : list jsval)
| EvAppend (t : Turn).

(** The fields of an [LLMAgent] instance, the page elements it drives and
    [console.log]. *)
Record Agent := mkAgent {
  conversation : list Turn;
  llmConfig : option LLMConfig;
  isProcessing : bool;
  messageInput_value : string;
  messageInput_disabled : bool;
  sendBtn_disabled : bool;
  console_log : LogFn;
  events : list Event
}.

Definition set_conversation (c : list Turn) (a : Agent) : Agent :=
  mkAgent c (llmConfig a) (isProcessing a) (messageInput_value a)
          (messageInput_disabled a) (sendBtn_disabled a) (console_log a) (events a).

Definition set_messageInput_value (v : string) (a : Agent) : Agent :=
  mkAgent (conversation a) (llmConfig a) (isProcessing a) v
          (messageInput_disabled a) (sendBtn_disabled a) (console_log a) (events a).

Definition set_console_log (f : LogFn) (a : Agent) : Agent :=
  mkAgent (conversation a) (llmConfig a) (isProcessing a) (messageInput_value a)
          (messageInput_disabled a) (sendBtn_disabled a) f (events a).

Definition add_event (e : Event) (a : Agent) : Agent :=
  mkAgent (conversation a) (llmConfig a) (isProcessing a) (messageInput_value a)
          (messageInput_disabled a) (sendBtn_disabled a) (console_log a) (events a ++ [e]).

(** [this.conversation.push(t)] *)
Definition push_turn (t : Turn) (a : Agent) : Agent :=
  add_event (EvAppend t) (set_conversation (conversation a ++ [t]) a).

(** The state of a freshly constructed agent. *)
Definition new_agent : Agent :=
  mkAgent [] None false EmptyString false false NativeLog [].

(* ------------------------------------------------------------------ *)
(** *** Computations over the agent that may throw *)

Definition M (A : Type) : Type := Agent -> Completion A * Agent.

Definition ret {A} (a : A) : M A := fun st => (Return a, st).

Definition throw {A} (e : JsError) : M A := fun st => (Throw e, st).

Definition bind {A B} (m : M A) (k : A -> M B) : M B :=
  fun st =>
    match m st with
    | (Return a, st') => k a st'
    | (Throw e, st') => (Throw e, st')
    end.

Definition lift {A} (c : Completion A) : M A := fun st => (c, st).

Definition gets {A} (f : Agent -> A) : M A := fun st => (Return (f st), st).

Definition modify (f : Agent -> Agent) : M unit := fun st => (Return tt, f st).

Definition emit (e : Event) : M unit := modify (add_event e).

(** [try { body } catch (error) { handler }] *)
Definition try_catch {A} (body : M A) (handler : JsError -> M A) : M A :=
  fun st =>
    match body st with
    | (Return a, st') => (Return a, st')
    | (Throw e, st') => handler e st'
    end.

Declare Scope agent_scope.
Delimit Scope agent_scope with agent.
Notation "x <- m ;; k" := (bind m (fun x => k))
  (at level 61, m at next level, right associativity) : agent_scope.
Notation "m ;; k" := (bind m (fun _ => k))
  (at level 61, right associativity) : agent_scope.
Local Open Scope agent_scope.

(** [for (const x of xs) { await body(x) }] *)
Fixpoint for_of {A} (xs : list A) (body : A -> M unit) : M unit :=
  match xs with
  | [] => ret tt
  | x :: rest => body x ;; for_of rest body
  end.

(* ================================================================== *)
(** ** The methods of [LLMAgent] *)
(* ================================================================== *)

Section LLMAgent.

(** [eval]: what the evaluation of a source text does.  Evaluated code is
    taken to act on the agent only through [console] and its completion
    value. *)
Variable js_eval : string -> EvalOutcome.

(** *** Page updates *)

Definition addMessage (who text : string) : M unit :=
  emit (EvMessage who text).

Definition showAlert (text type : string) : M unit :=
  emit (EvAlert text type).

Definition showLoadingIndicator : M unit := emit (EvLoading true).

Definition hideLoadingIndicator : M unit := emit (EvLoading false).

Definition setProcessingState (processing : bool) : M unit :=
  modify (fun a =>
            mkAgent (conversation a) (llmConfig a) processing (messageInput_value a)
                    processing processing (console_log a) (events a)).

Definition delay (ms : nat) : M unit := emit (EvDelay ms).

(** One line of the parameter list drawn by [showToolCall]. *)
Definition render_param (kv : string * jsval) : Completion string :=
  let (key, value) := kv in
  cbind (match value with
         | VStr s =>
             if 100 <? String.length s
             then Return (substring 0 100 s ++ "...")
             else Return s
         | _ => ToString value
         end)
        (fun shown => Return ("<strong>" ++ key ++ ":</strong> " ++ shown)).

(** [showToolCall] parses the arguments on its own and lays out every
    entry before it touches the page. *)
Definition tool_call_params (toolCall : ToolCall) : Completion string :=
  cbind (JSON.parse (arguments (function toolCall))) (fun toolArgs =>
  cbind (Object_entries toolArgs) (fun entries =>
  cbind (sequence (map render_param entries)) (fun params =>
  Return (String.concat "<br>" params)))).

Definition showToolCall (toolCall : ToolCall) : M unit :=
  params <- lift (tool_call_params toolCall) ;;
  emit (EvToolCall toolCall params).

(** [document.getElementById('tool-' + toolId)]: the element drawn by
    [showToolCall], unless the messages container was reset since. *)
Definition tool_div_step (toolId : string) (present : bool) (e : Event) : bool :=
  match e with
  | EvToolCall tc _ => if String.eqb (id tc) toolId then true else present
  | EvWelcome => false
  | _ => present
  end.

Definition tool_div_present (toolId : string) (evs : list Event) : bool :=
  fold_left (tool_div_step toolId) evs false.

Definition showToolResult (toolId : string) (result : jsval) (isError : bool) : M unit :=
  present <- gets (fun a => tool_div_present toolId (events a)) ;;
  if present then emit (EvToolResult toolId result isError) else ret tt.

(** *** Tool handlers *)

Definition searchWeb (args : jsval) : M jsval :=
  query <- lift (destructure args "query") ;;
  delay 1000 ;;
  q <- lift (ToString query) ;;
  ret (VStr
    ("Search results for " ++ dquote ++ q ++ dquote ++ ":" ++ nl
     ++ nl
     ++ "1. **" ++ q ++ " - Official Website**" ++ nl
     ++ "   Comprehensive information about " ++ q
     ++ ", including history, services, and current developments." ++ nl
     ++ "   " ++ nl
     ++ "2. **" ++ q ++ " News - Latest Updates** " ++ nl
     ++ "   Recent news and announcements related to " ++ q ++ " from various sources." ++ nl
     ++ "   " ++ nl
     ++ "3. **" ++ q ++ " Wikipedia**" ++ nl
     ++ "   Detailed encyclopedia entry covering background, operations, and notable facts about "
     ++ q ++ "." ++ nl
     ++ nl
     ++ "*Note: This is a simulated search result. In production, integrate with Google Custom Search API.*")).

Definition aiPipe (args : jsval) : M jsval :=
  workflow <- lift (destructure args "workflow") ;;
  data0 <- lift (destructure args "data") ;;
  let data := match data0 with VUndefined => VStr EmptyString | _ => data0 end in
  delay 1500 ;;
  w <- lift (ToString workflow) ;;
  d <- lift (ToString (if truthy data then data else VStr "None provided")) ;;
  ret (VStr
    ("AI Pipe Workflow: " ++ dquote ++ w ++ dquote ++ nl
     ++ "Input Data: " ++ d ++ nl
     ++ nl
     ++ "Processed Result: This is a simulated AI workflow result. The system would normally process the request through various AI models and return structured data based on the workflow description." ++ nl
     ++ nl
     ++ "*Note: This is a simulated result. In production, integrate with aipipe.org proxy API.*")).

(** String conversion of a value whose [typeof] is not ['object']. *)
Definition primitive_toString (v : jsval) : string :=
  match v with
  | VUndefined => "undefined"
  | VNull => "null"
  | VBool b => if b then "true" else "false"
  | VNum z => Number_toString z
  | VStr s => s
  | VArr _ | VObj _ => EmptyString
  end.

(** [typeof x === 'object' ? JSON.stringify(x, null, 2) : String(x)] in a
    place that converts to text; [missing] is the text an [undefined]
    serialization takes there. *)
Definition show_value (missing : string) (x : jsval) : string :=
  if is_object_type x
  then match JSON.stringify x 2 with
       | Some t => t
       | None => missing
       end
  else primitive_toString x.

(** The text one call of the capturing [console.log] adds to
    [consoleOutput]. *)
Definition capture_line (args : list jsval) : string :=
  String.concat " " (map (show_value EmptyString) args) ++ nl.

Definition captured_output (calls : list (list jsval)) : string :=
  String.concat EmptyString (map capture_line calls).

(** [eval(code)]; a [code] that is not a string is returned as it is. *)
Definition eval (code : jsval) : EvalOutcome :=
  match code with
  | VStr src => js_eval src
  | _ => mkEval [] None (EvalReturn code)
  end.

(** The text [executeJS] returns when evaluation completes. *)
Definition format_output (consoleOutput : string) (result : jsval) : string :=
  let output := EmptyString in
  let output :=
    if truthy_string consoleOutput
    then output ++ "Console Output:" ++ nl ++ consoleOutput
    else output in
  let output :=
    match result with
    | VUndefined => output
    | _ =>
        output ++ (if truthy_string output then nl ++ nl else EmptyString)
               ++ "Return Value:" ++ nl ++ show_value "undefined" result
    end in
  if truthy_string output then output else "Code executed successfully (no output)".

(** The text [executeJS] returns for a result that is no [jsval], shown
    as [text]. *)
Definition format_rendered (consoleOutput text : string) : string :=
  let output := EmptyString in
  let output :=
    if truthy_string consoleOutput
    then output ++ "Console Output:" ++ nl ++ consoleOutput
    else output in
  let output :=
    output ++ (if truthy_string output then nl ++ nl else EmptyString)
           ++ "Return Value:" ++ nl ++ text in
  if truthy_string output then output else "Code executed successfully (no output)".

(** [error.message] of a caught value, converted by the template literal. *)
Definition caught_message (c : EvalCompletion) : Completion string :=
  match c with
  | EvalReturn _ | EvalReturnOther _ _ | EvalSealsConsole _ => Return EmptyString
  | EvalThrowOther reading _ => reading
  | EvalThrowError e => Return (message e)
  | EvalThrowValue VUndefined | EvalThrowValue VNull =>
      Throw (mkError TypeError "Cannot read properties of null or undefined (reading 'message')")
  | EvalThrowValue v => ToString (Get v "message")
  end.

Definition executeJS (args : jsval) : M jsval :=
  code <- lift (destructure args "code") ;;
  (* Capture console output *)
  originalLog <- gets console_log ;;
  modify (set_console_log (CaptureLog originalLog)) ;;
  (* Execute the code *)
  let outcome := eval code in
  let consoleOutput := captured_output (eval_logged outcome) in
  for_of (eval_logged outcome) (fun args => emit (EvConsole args)) ;;
  match eval_console_log outcome with
  | Some f => modify (set_console_log f)
  | None => ret tt
  end ;;
  match eval_completion outcome with
  | EvalReturn result =>
      (* Restore console.log *)
      modify (set_console_log originalLog) ;;
      ret (VStr (format_output consoleOutput result))
  | EvalReturnOther rendering leaves =>
      modify (set_console_log originalLog) ;;
      match leaves with
      | Some f => modify (set_console_log f)
      | None => ret tt
      end ;;
      match rendering with
      | Return text => ret (VStr (format_rendered consoleOutput text))
      | Throw error =>
          modify (set_console_log originalLog) ;;
          throw (mkError Error ("JavaScript execution error: " ++ message error))
      end
  | EvalThrowOther reading leaves =>
      modify (set_console_log originalLog) ;;
      match leaves with
      | Some f => modify (set_console_log f)
      | None => ret tt
      end ;;
      text <- lift reading ;;
      throw (mkError Error ("JavaScript execution error: " ++ text))
  | EvalSealsConsole refusal =>
      (* neither assignment to console.log goes through *)
      throw refusal
  | thrown =>
      modify (set_console_log originalLog) ;;
      text <- lift (caught_message thrown) ;;
      throw (mkError Error ("JavaScript execution error: " ++ text))
  end.

(** *** The tool executor *)

(** [typeof result === 'string' ? result : JSON.stringify(result)] *)
Definition result_content (result : jsval) : option string :=
  match result with
  | VStr s => Some s
  | _ => JSON.stringify result 0
  end.

Definition dispatch (name args : string) : M jsval :=
  if String.eqb name "search_web" then
    parsed <- lift (JSON.parse args) ;; searchWeb parsed
  else if String.eqb name "ai_pipe" then
    parsed <- lift (JSON.parse args) ;; aiPipe parsed
  else if String.eqb name "execute_js" then
    parsed <- lift (JSON.parse args) ;; executeJS parsed
  else
    throw (mkError Error ("Unknown tool: " ++ name)).

Definition handleToolCall (toolCall : ToolCall) : M unit :=
  let name := name (function toolCall) in
  let args := arguments (function toolCall) in
  showToolCall toolCall ;;
  try_catch
    (result <- dispatch name args ;;
     showToolResult (id toolCall) result false ;;
     (* Add tool result to conversation *)
     modify (push_turn (tool_turn (id toolCall) (result_content result))))
    (fun error =>
       let errorMsg := "Tool execution failed: " ++ message error in
       showToolResult (id toolCall) (VStr errorMsg) true ;;
       modify (push_turn (tool_turn (id toolCall) (Some errorMsg)))).

(** *** The model client *)

(** [callLLM] up to its [await fetch(...)]. *)
Definition callLLM_send (messages : list Turn) (tools : list ToolSpec) : M unit :=
  showLoadingIndicator ;;
  config <- gets llmConfig ;;
  match config with
  | None => throw (mkError TypeError "Cannot read properties of null (reading 'model')")
  | Some cfg =>
      let payload := mkPayload (model cfg) messages tools "auto" 1500 7 in
      emit (EvFetch (baseUrl cfg ++ "/chat/completions") (apiKey cfg) payload)
  end.

(** [data.choices[0].message] *)
Definition first_message (data : ChatCompletion) : Completion (option Message) :=
  match choices data with
  | None => Throw (mkError TypeError "Cannot read properties of undefined (reading '0')")
  | Some [] => Throw (mkError TypeError "Cannot read properties of undefined (reading 'message')")
  | Some (choice :: _) => Return (choice_message choice)
  end.

(** [callLLM] from the point where [fetch] has settled. *)
Definition callLLM_receive (settled : FetchOutcome) : M Message :=
  response <- lift (match settled with
                    | FetchRejected e => Throw e
                    | FetchResolved r => Return r
                    end) ;;
  if negb (ok response) then
    throw (mkError Error ("LLM API error: " ++ Number_toString (status response)
                            ++ " " ++ statusText response))
  else
    data <- lift (json response) ;;
    message <- lift (first_message data) ;;
    match message with
    | None => throw (mkError TypeError "Cannot read properties of undefined (reading 'content')")
    | Some message =>
        (* Add assistant message to conversation *)
        modify (push_turn (assistant_turn (message_content message)
                                          (message_tool_calls message))) ;;
        hideLoadingIndicator ;;
        ret message
    end.

Definition callLLM (settled : FetchOutcome) (messages : list Turn) (tools : list ToolSpec)
  : M Message :=
  callLLM_send messages tools ;;
  callLLM_receive settled.

(** *** The agent loop *)

(** How the [while] loop of [agentLoop] leaves off: [needsUserInput] was
    set, an exception left the [try] block, or the loop is parked at
    [await fetch] because the network has not answered yet. *)
Inductive LoopExit :=
| NeedsUserInput
| Raised (e : JsError)
| Parked.

(** [response.tool_calls && response.tool_calls.length > 0] *)
Definition requested_calls (response : Message) : list ToolCall :=
  match message_tool_calls response with
  | Some calls => calls
  | None => []
  end.

(** One pass of the loop body after [callLLM] has returned [response];
    [Return true] when a further model call is due. *)
Definition after_response (response : Message) : M bool :=
  match message_content response with
  | Some text => if truthy_string text then addMessage "agent" text else ret tt
  | None => ret tt
  end ;;
  match requested_calls response with
  | [] =>
      (* No tool calls, wait for user input *)
      ret false
  | calls =>
      (* Execute tool calls *)
      for_of calls handleToolCall ;;
      ret true
  end.

(** The [while (!needsUserInput)] loop, fed with the answers of the
    network in the order the calls are made. *)
Fixpoint agentLoop_while (network : list FetchOutcome) (st : Agent)
  : LoopExit * Agent * list FetchOutcome :=
  match network with
  | [] =>
      match callLLM_send (conversation st) initializeTools st with
      | (Return _, st') => (Parked, st', [])
      | (Throw e, st') => (Raised e, st', [])
      end
  | settled :: later =>
      match (response <- callLLM settled (conversation st) initializeTools ;;
             after_response response) st with
      | (Return true, st') => agentLoop_while later st'
      | (Return false, st') => (NeedsUserInput, st', later)
      | (Throw e, st') => (Raised e, st', later)
      end
  end.

(** The states in which [agentLoop] hands control back, and the one in
    which it is still waiting for the model. *)
Inductive LoopState :=
| AwaitingUser
| Failed (e : JsError)
| AwaitingModel.

(** The [catch] and [finally] blocks of [agentLoop], run when the [while]
    loop is left; a parked loop has not reached them yet. *)
Definition agentLoop_exit (left : LoopExit * Agent * list FetchOutcome)
  : LoopState * Agent * list FetchOutcome :=
  match left with
  | (Parked, st', rest) => (AwaitingModel, st', rest)
  | (NeedsUserInput, st', rest) =>
      (AwaitingUser, snd (setProcessingState false st'), rest)
  | (Raised error, st', rest) =>
      let handler :=
        showAlert ("Agent error: " ++ message error) "danger" ;;
        addMessage "system" ("Error: " ++ message error) in
      (Failed error, snd (setProcessingState false (snd (handler st'))), rest)
  end.

Definition agentLoop (network : list FetchOutcome) (st : Agent)
  : LoopState * Agent * list FetchOutcome :=
  agentLoop_exit (agentLoop_while network st).

(** A loop parked at [await fetch] taken up again when the request
    settles. *)
Definition agentLoop_resume (settled : FetchOutcome) (later : list FetchOutcome) (st : Agent)
  : LoopState * Agent * list FetchOutcome :=
  agentLoop_exit
    match (response <- callLLM_receive settled ;; after_response response) st with
    | (Return true, st') => agentLoop_while later st'
    | (Return false, st') => (NeedsUserInput, st', later)
    | (Throw e, st') => (Raised e, st', later)
    end.

(** [handleUserMessage]; [None] when it returns without starting the
    loop. *)
Definition handleUserMessage (network : list FetchOutcome) (st : Agent)
  : option LoopState * Agent * list FetchOutcome :=
  let message := trim (messageInput_value st) in
  if negb (truthy_string message) || isProcessing st then (None, st, network)
  else
    match llmConfig st with
    | None =>
        (None, snd (showAlert "Please configure an LLM provider first" "warning" st), network)
    | Some _ =>
        let prepare :=
          (* Clear input and disable send button *)
          modify (set_messageInput_value EmptyString) ;;
          setProcessingState true ;;
          (* Add user message to conversation *)
          addMessage "user" message ;;
          modify (push_turn (user_turn message)) in
        (* Start the agent reasoning loop *)
        match agentLoop network (snd (prepare st)) with
        | (state, st', rest) => (Some state, st', rest)
        end
    end.

Definition clearConversation : M unit :=
  modify (set_conversation []) ;;
  emit EvWelcome.

End LLMAgent.

(* ================================================================== *)
(** ** The page between two turns of the event loop *)
(* ================================================================== *)

(** The agent, and the number of loops parked at a model call. *)
Record Session := mkSession { agent : Agent; in_flight : nat }.

(** What can happen next: the user submits what is typed, clears the chat,
    or the request of a parked loop settles. *)
Inductive Happening :=
| Submit (typed : string)
| Clear
| Settle (settled : FetchOutcome).

(** At most one loop is in flight, and the busy flag is set while it is. *)
Definition one_loop (s : Session) : Prop :=
  in_flight s = 0 \/ (in_flight s = 1 /\ isProcessing (agent s) = true).

Section Session.

Variable js_eval : string -> EvalOutcome.

Definition happen (s : Session) (h : Happening) : Session :=
  match h with
  | Submit typed =>
      match handleUserMessage js_eval [] (set_messageInput_value typed (agent s)) with
      | (Some AwaitingModel, st', _) => mkSession st' (S (in_flight s))
      | (_, st', _) => mkSession st' (in_flight s)
      end
  | Clear => mkSession (snd (clearConversation (agent s))) (in_flight s)
  | Settle settled =>
      match in_flight s with
      | O => s
      | S others =>
          match agentLoop_resume js_eval settled [] (agent s) with
          | (AwaitingModel, st', _) => mkSession st' (S others)
          | (_, st', _) => mkSession st' others
          end
      end
  end.

Definition run_session (hs : list Happening) (s : Session) : Session :=
  fold_left happen hs s.

End Session.

(* ================================================================== *)
(** ** A concrete environment for worked examples *)
(* ================================================================== *)

Module Demo.

(** A table of evaluations standing for [eval]. *)
Definition js_eval (src : string) : EvalOutcome :=
  if String.eqb src "1 + 1" then
    mkEval [] None (EvalReturn (VNum 2))
  else if String.eqb src "console.log('hi', [1])" then
    mkEval [[VStr "hi"; VArr [VNum 1]]] None (EvalReturn VUndefined)
  else if String.eqb src "console.log('sum'); 40 + 2" then
    mkEval [[VStr "sum"]] None (EvalReturn (VNum 42))
  else if String.eqb src "throw new Error('boom')" then
    mkEval [] None (EvalThrowError (mkError Error "boom"))
  else if String.eqb src "console.log = () => {}; throw null" then
    mkEval [] (Some (OtherLog 1)) (EvalThrowValue VNull)
  else
    mkEval [] None (EvalReturn VUndefined).

Definition config : LLMConfig :=
  mkConfig "openai" "sk-test" "gpt-3.5-turbo" "https://api.openai.com/v1".

(** A configured, idle agent with a message typed in. *)
Definition ready (text : string) : Agent :=
  mkAgent [] (Some config) false text false false NativeLog [].

Definition call (call_id tool args : string) : ToolCall :=
  mkToolCall call_id (mkFunctionCall tool args).

(** JSON text of an object with one string field. *)
Definition field (k v : string) : string :=
  "{" ++ dquote ++ k ++ dquote ++ ":" ++ dquote ++ v ++ dquote ++ "}".

Definition answer (text : option string) (calls : option (list ToolCall)) : FetchOutcome :=
  FetchResolved
    (mkResponse true 200 "OK"
       (Return (mkCompletion (Some [mkChoice (Some (mkMessage text calls))])))).

(** An agent in the middle of a loop, with a message typed in. *)
Definition busy (text : string) : Agent :=
  mkAgent [user_turn "hi"] (Some config) true text true true NativeLog [].

(** A tool call whose arguments are not JSON text, and one that is fine. *)
Definition bad_call : ToolCall := call "call_1" "search_web" "not json".

Definition good_call : ToolCall := call "call_2" "search_web" (field "query" "rocq").

(** [{ query: { toString: null } }] *)
Definition odd_query : jsval := VObj [("query", VObj [("toString", VNull)])].

Definition service_unavailable : FetchOutcome :=
  FetchResolved
    (mkResponse false 503 "Service Unavailable"
       (Throw (mkError SyntaxError "Unexpected end of JSON input"))).

(** The table extended by pieces of code that do more than compute: one
    freezes [console], one yields an array that holds itself, which
    [JSON.stringify] refuses, and one yields an object whose [toJSON]
    replaces [console.log]. *)
Definition direct_eval (src : string) : EvalOutcome :=
  if String.eqb src "Object.freeze(console)" then
    mkEval [] None
      (EvalSealsConsole
         (mkError TypeError
            "Cannot assign to read only property 'log' of object '#<console>'"))
  else if String.eqb src "var a = []; a.push(a); a" then
    mkEval [] None
      (EvalReturnOther (Throw (mkError TypeError "Converting circular structure to JSON"))
                       None)
  else if String.eqb src "({ toJSON() { console.log = () => {}; return 1 } })" then
    mkEval [] None (EvalReturnOther (Return "1") (Some (OtherLog 2)))
  else
    js_eval src.

End Demo.

(* ================================================================== *)
(** ** The evaluate contract, case by case *)
(* ================================================================== *)

(** The sentinel returned when evaluation yields nothing to show. *)
Definition no_output_sentinel : string := "Code executed successfully (no output)".

(** The text that stands for a value in the payload: the value itself for
    a string, its usual spelling for the other primitives, and indented
    JSON text for [null], arrays and objects. *)
Definition value_text (x : jsval) : string :=
  match x with
  | VUndefined => "undefined"
  | VNull => "null"
  | VBool true => "true"
  | VBool false => "false"
  | VNum z => Number_toString z
  | VStr s => s
  | VArr _ | VObj _ =>
      match JSON.stringify x 2 with
      | Some text => text
      | None => "undefined"
      end
  end.

Fixpoint spaced (texts : list string) : string :=
  match texts with
  | [] => EmptyString
  | [text] => text
  | text :: rest => text ++ " " ++ spaced rest
  end.

(** The captured diagnostic output: one line per call of [console.log],
    the arguments of a call separated by one space. *)
Fixpoint diagnostic_text (calls : list (list jsval)) : string :=
  match calls with
  | [] => EmptyString
  | args :: rest => spaced (map value_text args) ++ nl ++ diagnostic_text rest
  end.

(** What a completed evaluation has to show for its result: nothing for
    [undefined], and the text of the value otherwise.  [None] when the
    evaluation throws, leaves [console.log] unassignable, or completes with
    a result that cannot be turned into text. *)
Definition returned_text (c : EvalCompletion) : option (option string) :=
  match c with
  | EvalReturn VUndefined => Some None
  | EvalReturn result => Some (Some (value_text result))
  | EvalReturnOther (Return text) _ => Some (Some text)
  | _ => None
  end.

(** What the evaluate handler is to return, by what evaluation produced:
    the sentinel when nothing was captured and nothing returned, and
    otherwise the captured output and the return value, each under its
    heading, concatenated into one text. *)
Definition evaluate_payload (captured : string) (returned : option string) : string :=
  match captured, returned with
  | EmptyString, None => no_output_sentinel
  | EmptyString, Some value => "Return Value:" ++ nl ++ value
  | _, None => "Console Output:" ++ nl ++ captured
  | _, Some value =>
      "Console Output:" ++ nl ++ captured ++ nl ++ nl ++ "Return Value:" ++ nl ++ value
  end.

(** The evaluation leaves [console.log] an ordinary writable property:
    the handler's assignment to it takes effect. *)
Definition leaves_assignable (c : EvalCompletion) : bool :=
  match c with
  | EvalSealsConsole _ => false
  | _ => true
  end.

(** Turning the result or the thrown value into text does not replace
    [console.log]. *)
Definition converts_quietly (c : EvalCompletion) : bool :=
  match c with
  | EvalReturnOther _ (Some _) | EvalThrowOther _ (Some _) => false
  | _ => true
  end.

(* ================================================================== *)
(** ** Observations on the event log *)
(* ================================================================== *)

Definition is_fetch (e : Event) : bool :=
  match e with EvFetch _ _ _ => true | _ => false end.

Definition is_tool_call (e : Event) : bool :=
  match e with EvToolCall _ _ => true | _ => false end.

Definition is_append (e : Event) : bool :=
  match e with EvAppend _ => true | _ => false end.

(** Requests sent to the model. *)
Definition model_calls (evs : list Event) : nat := length (filter is_fetch evs).

(** Tool calls whose execution was started. *)
Definition tool_executions (evs : list Event) : nat := length (filter is_tool_call evs).

(** The two ways a model call fails: the transport (no response, or a
    status that is not OK) and the protocol (a body that is not JSON or
    lacks [choices[0].message]). *)
Definition transport_error (settled : FetchOutcome) : bool :=
  match settled with
  | FetchRejected _ => true
  | FetchResolved r => negb (ok r)
  end.

Definition protocol_error (settled : FetchOutcome) : bool :=
  match settled with
  | FetchRejected _ => false
  | FetchResolved r =>
      ok r
      && match json r with
         | Throw _ => true
         | Return data =>
             match choices data with
             | None | Some [] => true
             | Some (choice :: _) =>
                 match choice_message choice with
                 | None => true
                 | Some _ => false
                 end
             end
         end
  end.

(** The agent once [callLLM] has issued its request. *)
Definition request_sent (cfg : LLMConfig) (st : Agent) : Agent :=
  add_event
    (EvFetch (baseUrl cfg ++ "/chat/completions") (apiKey cfg)
             (mkPayload (model cfg) (conversation st) initializeTools "auto" 1500 7))
    (add_event (EvLoading true) st).

(** What the page shows of an assistant message. *)
Definition shown_text (response : Message) : list Event :=
  match message_content response with
  | Some text => if truthy_string text then [EvMessage "agent" text] else []
  | None => []
  end.

(** The log reduced to the starts of tool calls and the appends to the
    conversation, in the order they happened. *)
Inductive Mark :=
| Started (call_id : string)
| Appended (who : Role) (answers : option string).

Definition mark (e : Event) : list Mark :=
  match e with
  | EvToolCall tc _ => [Started (id tc)]
  | EvAppend t => [Appended (role t) (tool_call_id t)]
  | _ => []
  end.

Definition tool_trace (evs : list Event) : list Mark := flat_map mark evs.

(** The conversation sent with the latest request to the model. *)
Definition last_request (evs : list Event) : option (list Turn) :=
  fold_left (fun acc e => match e with
                          | EvFetch _ _ payload => Some (payload_messages payload)
                          | _ => acc
                          end) evs None.

(** What a computation may do to the agent besides growing the
    conversation and the event log: nothing to the busy flag and the
    configuration. *)
Record evolves (st st' : Agent) : Prop := mkEvolves {
  evolves_config : llmConfig st' = llmConfig st;
  evolves_busy : isProcessing st' = isProcessing st;
  evolves_conversation : exists turns, conversation st' = (conversation st ++ turns)%list;
  evolves_events : exists evs, events st' = (events st ++ evs)%list
}.

(** A computation that leaves the conversation alone and neither starts a
    tool call nor appends a turn. *)
Record quiet (st st' : Agent) : Prop := mkQuiet {
  quiet_conversation : conversation st' = conversation st;
  quiet_events : exists evs, events st' = (events st ++ evs)%list /\ tool_trace evs = []
}.

(** [m] relates every state to the state it leaves behind, whether it
    returns or throws. *)
Definition respects (R : Agent -> Agent -> Prop) {A} (m : M A) : Prop :=
  forall st, R st (snd (m st)).

(** Every value [m] returns satisfies [P]. *)
Definition yields {A} (P : A -> Prop) (m : M A) : Prop :=
  forall st a st', m st = (Return a, st') -> P a.

Definition is_text (v : jsval) : Prop := exists s, v = VStr s.

(** A value the template literals can convert to text. *)
Definition convertible (v : jsval) : Prop := exists s, ToString v = Return s.

(** A tool call [showToolCall] can draw. *)
Definition displayable (toolCall : ToolCall) : Prop :=
  exists params, tool_call_params toolCall = Return params.

(* ================================================================== *)
(** ** Further methods of [LLMAgent] *)
(* ================================================================== *)

(** *** [getBaseUrl] *)

(** What [urls[provider] || urls.openai] evaluates to: an address, or,
    when [provider] names a member every object inherits, that member. *)
Inductive BaseUrl :=
| Url (address : string)
| Inherited (member : string).

(** The property names of [Object.prototype]. *)
Definition Object_prototype_members : list string :=
  [ "constructor"; "hasOwnProperty"; "isPrototypeOf"; "propertyIsEnumerable";
    "toLocaleString"; "toString"; "valueOf"; "__proto__";
    "__defineGetter__"; "__defineSetter__"; "__lookupGetter__"; "__lookupSetter__" ].

Definition urls : list (string * string) :=
  [ ("openai", "https://api.openai.com/v1");
    ("openrouter", "https://openrouter.ai/api/v1");
    ("groq", "https://api.groq.com/openai/v1") ].

Fixpoint own_entry (k : string) (table : list (string * string)) : option string :=
  match table with
  | [] => None
  | (k', v) :: rest => if String.eqb k k' then Some v else own_entry k rest
  end.

Definition urls_openai : string :=
  match own_entry "openai" urls with
  | Some address => address
  | None => "undefined"
  end.

Definition getBaseUrl (provider : string) : BaseUrl :=
  match own_entry provider urls with
  | Some address => if truthy_string address then Url address else Url urls_openai
  | None =>
      if existsb (String.eqb provider) Object_prototype_members
      then Inherited provider
      else Url urls_openai
  end.

(** *** [formatMessageContent] *)

(** [content.replace(/\n/g, '<br>')] *)
Fixpoint replace_newlines (s : string) : string :=
  match s with
  | EmptyString => EmptyString
  | String c rest =>
      if nat_of_ascii c =? 10
      then "<br>" ++ replace_newlines rest
      else String c (replace_newlines rest)
  end.

(** The characters the pattern [.] does not match. *)
Definition is_line_terminator (c : ascii) : bool :=
  let n := nat_of_ascii c in (n =? 10) || (n =? 13).

(** A text that begins with two asterisks, without them. *)
Definition strip_stars (s : string) : option string :=
  match s with
  | String c (String d rest) =>
      if (nat_of_ascii c =? 42) && (nat_of_ascii d =? 42) then Some rest else None
  | _ => None
  end.

(** The pattern after its opening asterisks: the shortest run of
    characters on one line that is followed by two asterisks, and what
    follows those. *)
Fixpoint find_close (s : string) : option (string * string) :=
  match strip_stars s with
  | Some after => Some (EmptyString, after)
  | None =>
      match s with
      | EmptyString => None
      | String c rest =>
          if is_line_terminator c then None
          else match find_close rest with
               | Some (group, after) => Some (String c group, after)
               | None => None
               end
      end
  end.

(** Replacing every match of the bold pattern, left to right; [fuel]
    bounds the number of characters still to read. *)
Fixpoint embolden (fuel : nat) (s : string) : string :=
  match fuel with
  | O => s
  | S n =>
      match s with
      | EmptyString => EmptyString
      | String c rest =>
          match strip_stars s with
          | Some inner =>
              match find_close inner with
              | Some (group, after) =>
                  "<strong>" ++ group ++ "</strong>" ++ embolden n after
              | None => String c (embolden n rest)
              end
          | None => String c (embolden n rest)
          end
      end
  end.

Definition formatMessageContent (content : string) : string :=
  let broken := replace_newlines content in
  embolden (String.length broken) broken.

(* ================================================================== *)
(** ** Further observations *)
(* ================================================================== *)

Fixpoint has_char (n : nat) (s : string) : bool :=
  match s with
  | EmptyString => false
  | String c rest => (nat_of_ascii c =? n) || has_char n rest
  end.

(** A text of white space only. *)
Fixpoint all_space (s : string) : bool :=
  match s with
  | EmptyString => true
  | String c rest => is_space c && all_space rest
  end.

(** A computation that sends nothing to the model. *)
Definition offline (st st' : Agent) : Prop :=
  exists evs, events st' = (events st ++ evs)%list /\ model_calls evs = 0.

(** A computation that only adds turns, none of them a user turn, and
    leaves what is typed in the input alone. *)
Record replies (st st' : Agent) : Prop := mkReplies {
  replies_turns :
    exists turns,
      conversation st' = (conversation st ++ turns)%list
      /\ Forall (fun t => role t <> user) turns;
  replies_input : messageInput_value st' = messageInput_value st
}.

(** An answer of the model that asks for tools, all of which can be
    drawn. *)
Definition asks_for_tools (settled : FetchOutcome) : Prop :=
  exists r data choice others response tc calls,
    settled = FetchResolved r
    /\ ok r = true
    /\ json r = Return data
    /\ choices data = Some (choice :: others)
    /\ choice_message choice = Some response
    /\ message_tool_calls response = Some (tc :: calls)
    /\ Forall displayable (tc :: calls).

(** The request [callLLM] sends for a conversation. *)
Definition request_for (cfg : LLMConfig) (messages : list Turn) : Event :=
  EvFetch (baseUrl cfg ++ "/chat/completions") (apiKey cfg)
          (mkPayload (model cfg) messages initializeTools "auto" 1500 7).

(** A request, if [e] is one, is the request [callLLM] sends under [cfg]
    for a conversation that begins with [history]. *)
Definition sent_by (cfg : LLMConfig) (history : list Turn) (e : Event) : Prop :=
  is_fetch e = true -> exists turns, e = request_for cfg (history ++ turns).

(** A computation that keeps the configuration [cfg], only adds turns, and
    sends requests only as [callLLM] does, each with the turns it found
    and those added since. *)
Definition as_configured (cfg : LLMConfig) (st st' : Agent) : Prop :=
  llmConfig st = Some cfg ->
  llmConfig st' = Some cfg
  /\ (exists turns, conversation st' = (conversation st ++ turns)%list)
  /\ exists evs,
       events st' = (events st ++ evs)%list
       /\ Forall (sent_by cfg (conversation st)) evs.

(* ================================================================== *)
(** ** Structured payloads *)
(* ================================================================== *)

Fixpoint unique_keys (keys : list string) : bool :=
  match keys with
  | [] => true
  | k :: rest => negb (existsb (String.eqb k) rest) && unique_keys rest
  end.

(** The structured values a payload can be: JSON data, that is no
    [undefined] anywhere and no key twice in an object. *)
Fixpoint is_json (v : jsval) : bool :=
  match v with
  | VUndefined => false
  | VNull | VBool _ | VNum _ | VStr _ => true
  | VArr items => forallb is_json items
  | VObj props =>
      unique_keys (map fst props) && forallb (fun kv => is_json (snd kv)) props
  end.

(** The integers a number of the code holds exactly and prints digit by
    digit: those below 2^53 in magnitude. *)
Definition safe_integer (z : Z) : bool := (Z.abs z <? 2 ^ 53)%Z.

Fixpoint safe_numbers (v : jsval) : bool :=
  match v with
  | VNum z => safe_integer z
  | VArr items => forallb safe_numbers items
  | VObj props => forallb (fun kv => safe_numbers (snd kv)) props
  | _ => true
  end.

(** The text [JSON.stringify(v)] gives, [null] standing for a value
    without JSON text inside an array. *)
Definition compact (v : jsval) : string :=
  match JSON.serialize EmptyString EmptyString v with
  | Some t => t
  | None => "null"
  end.

(** Number of nested reader calls a value needs. *)
Fixpoint size (v : jsval) : nat :=
  match v with
  | VArr items => S (list_sum (map (fun x => S (size x)) items))
  | VObj props => S (list_sum (map (fun kv => S (size (snd kv))) props))
  | _ => 1
  end.

(** What may follow a value inside JSON text: the end of the text, a
    comma or a closing bracket. *)
Definition ends_value (rest : string) : bool :=
  match rest with
  | EmptyString => true
  | String c _ =>
      let n := nat_of_ascii c in (n =? 44) || (n =? 93) || (n =? 125)
  end.

(** A text whose first character opens a value. *)
Definition starts_value (s : string) : bool :=
  match s with
  | EmptyString => false
  | String c _ => negb (JSON.is_ws c) && negb (nat_of_ascii c =? 93)
  end.

Definition elements_text (items : list jsval) : string :=
  String.concat "," (map compact items).

Definition member_text (kv : string * jsval) : string :=
  JSON.quote (fst kv) ++ ":" ++ compact (snd kv).

Definition members_text (props : list (string * jsval)) : string :=
  String.concat "," (map member_text props).

(** The member texts [JSON.stringify] collects for an object. *)
Definition member_texts (props : list (string * jsval)) : list string :=
  flat_map (fun kv =>
              match kv with
              | (k, x) =>
                  match JSON.serialize EmptyString EmptyString x with
                  | Some t => [JSON.quote k ++ ":" ++ t]
                  | None => []
                  end
              end) props.

(** The reader gives a value back from its compact text, whatever
    delimiter follows. *)
Definition reads_back (v : jsval) : Prop :=
  starts_value (compact v) = true
  /\ size v <= String.length (compact v)
  /\ forall fuel rest,
       size v <= fuel -> ends_value rest = true ->
       JSON.parse_value fuel (compact v ++ rest) = Some (v, rest).

Fixpoint all_number_chars (s : string) : bool :=
  match s with
  | EmptyString => true
  | String c rest => JSON.is_number_char c && all_number_chars rest
  end.

(* ================================================================== *)
(** ** Properties *)
(* ================================================================== *)

(** *** Strings *)

Lemma append_assoc (a b c : string) : (a ++ b) ++ c = a ++ b ++ c.
Proof. induction a as [|x a IH]; simpl; [reflexivity | rewrite IH; reflexivity]. Qed.

Lemma append_nil_r (a : string) : a ++ EmptyString = a.
Proof. induction a as [|x a IH]; simpl; [reflexivity | rewrite IH; reflexivity]. Qed.

Lemma length_append (a b : string) :
  String.length (a ++ b) = String.length a + String.length b.
Proof. induction a as [|x a IH]; simpl; [reflexivity | rewrite IH; reflexivity]. Qed.

(** *** [JSON.parse] reads back what [JSON.stringify] writes *)

Lemma jsval_ind (P : jsval -> Prop) :
  P VUndefined -> P VNull -> (forall b, P (VBool b)) -> (forall z, P (VNum z)) ->
  (forall s, P (VStr s)) ->
  (forall items, Forall P items -> P (VArr items)) ->
  (forall props, Forall (fun kv => P (snd kv)) props -> P (VObj props)) ->
  forall v, P v.
Proof.
  intros Hu Hn Hb Hz Hs Ha Ho.
  fix IH 1. intros [| |b|z|s|items|props].
  - exact Hu.
  - exact Hn.
  - apply Hb.
  - apply Hz.
  - apply Hs.
  - apply Ha. induction items as [|x items IHl]; constructor; [apply IH | exact IHl].
  - apply Ho. induction props as [|[k x] props IHl]; constructor; [apply IH | exact IHl].
Qed.

Lemma parse_chars_quote_char (c : ascii) (t : string) :
  JSON.parse_chars (JSON.quote_char c ++ t)
  = match JSON.parse_chars t with
    | Some (x, r) => Some (String c x, r)
    | None => None
    end.
Proof.
  destruct c as [[|] [|] [|] [|] [|] [|] [|] [|]]; reflexivity.
Qed.

Lemma parse_chars_quoted (s rest : string) :
  JSON.parse_chars (JSON.quote_chars s ++ dquote ++ rest) = Some (s, rest).
Proof.
  induction s as [|c s IH]; [reflexivity|].
  cbn [JSON.quote_chars]. rewrite append_assoc, parse_chars_quote_char, IH.
  reflexivity.
Qed.


Lemma uint_number_chars (d : Decimal.uint) :
  all_number_chars (NilEmpty.string_of_uint d) = true.
Proof. induction d; simpl; auto. Qed.

Lemma Number_toString_chars (z : Z) : all_number_chars (Number_toString z) = true.
Proof.
  unfold Number_toString, NilZero.string_of_int, NilZero.string_of_uint.
  destruct (Z.to_int z) as [d|d]; destruct d; try reflexivity;
    cbn [all_number_chars]; rewrite ?andb_true_l;
    match goal with
    | |- all_number_chars (NilEmpty.string_of_uint ?u) = true => apply (uint_number_chars u)
    end.
Qed.

Lemma Number_toString_nonempty (z : Z) : Number_toString z <> EmptyString.
Proof.
  unfold Number_toString, NilZero.string_of_int, NilZero.string_of_uint.
  destruct (Z.to_int z) as [d|d]; destruct d; discriminate.
Qed.

Lemma int_of_string_printed (z : Z) :
  NilZero.int_of_string (Number_toString z) = Some (Z.to_int z).
Proof.
  unfold Number_toString. apply NilZero.isi; destruct z; simpl; try discriminate;
    intro H; injection H as H; exact (DecimalPos.Unsigned.to_uint_nonnil _ H).
Qed.

Lemma ends_value_delimits (c : ascii) (r : string) :
  ends_value (String c r) = true ->
  JSON.is_number_char c = false
  /\ JSON.continues_number (String c r) = false
  /\ JSON.skip_ws (String c r) = String c r.
Proof.
  destruct c as [[|] [|] [|] [|] [|] [|] [|] [|]];
    try discriminate; intros _; repeat split.
Qed.

Lemma span_number_token (tok rest : string) :
  all_number_chars tok = true -> ends_value rest = true ->
  JSON.span_number (tok ++ rest) = (tok, rest).
Proof.
  intros Htok Hrest. induction tok as [|c tok IH].
  - destruct rest as [|c r]; [reflexivity|].
    destruct (ends_value_delimits c r Hrest) as (Hc & _ & _).
    cbn [append JSON.span_number]. rewrite Hc. reflexivity.
  - cbn [all_number_chars] in Htok. apply andb_prop in Htok as [Hc Htok].
    cbn [append JSON.span_number]. rewrite Hc, (IH Htok). reflexivity.
Qed.

Lemma parse_number_printed (z : Z) (rest : string) :
  ends_value rest = true ->
  JSON.parse_number (Number_toString z ++ rest) = Some (VNum z, rest).
Proof.
  intro Hrest. unfold JSON.parse_number.
  rewrite (span_number_token _ _ (Number_toString_chars z) Hrest).
  assert (Hcont : JSON.continues_number rest = false).
  { destruct rest as [|c r]; [reflexivity|].
    apply (ends_value_delimits c r Hrest). }
  rewrite Hcont, int_of_string_printed, DecimalZ.of_to, String.eqb_refl.
  reflexivity.
Qed.

Lemma parse_value_number_head (n : nat) (c : ascii) (t : string) :
  JSON.is_number_char c = true ->
  JSON.parse_value (S n) (String c t) = JSON.parse_number (String c t).
Proof.
  destruct c as [[|] [|] [|] [|] [|] [|] [|] [|]];
    try discriminate; intros _; reflexivity.
Qed.

Lemma number_char_starts_value (c : ascii) (t : string) :
  JSON.is_number_char c = true -> starts_value (String c t) = true.
Proof.
  destruct c as [[|] [|] [|] [|] [|] [|] [|] [|]];
    try discriminate; intros _; reflexivity.
Qed.

Lemma parse_value_string_head (n : nat) (t : string) :
  JSON.parse_value (S n) (String "034"%char t)
  = match JSON.parse_chars t with
    | Some (x, r) => Some (VStr x, r)
    | None => None
    end.
Proof. reflexivity. Qed.

Lemma parse_value_array_head (n : nat) (t : string) :
  starts_value t = true ->
  JSON.parse_value (S n) (String "[" t)
  = match JSON.parse_elements n t with
    | Some (items, r) => Some (VArr items, r)
    | None => None
    end.
Proof.
  destruct t as [|c t]; [discriminate|].
  destruct c as [[|] [|] [|] [|] [|] [|] [|] [|]];
    try discriminate; intros _; reflexivity.
Qed.

Lemma parse_value_object_head (n : nat) (t : string) :
  JSON.parse_value (S n) (String "{" (String "034"%char t))
  = match JSON.parse_members n (String "034"%char t) with
    | Some (members, r) => Some (JSON.make_object members, r)
    | None => None
    end.
Proof. reflexivity. Qed.

(** Reduce the reader's tests on a character that is known. *)
Ltac known_char :=
  repeat match goal with
         | |- context [JSON.skip_ws (String ?c ?r)] =>
             change (JSON.skip_ws (String c r)) with (String c r); cbv beta iota
         | |- context [nat_of_ascii ?c =? ?k] =>
             let b := eval vm_compute in (nat_of_ascii c =? k) in
             match b with
             | true => change (nat_of_ascii c =? k) with true
             | false => change (nat_of_ascii c =? k) with false
             end; cbv beta iota
         end.

Lemma parse_elements_last (m : nat) (s r : string) (v : jsval) :
  JSON.parse_value m s = Some (v, String "]" r) ->
  JSON.parse_elements (S m) s = Some ([v], r).
Proof. intro H. cbn [JSON.parse_elements]. rewrite H. known_char. reflexivity. Qed.

Lemma parse_elements_more (m : nat) (s r r2 : string) (v : jsval) (vs : list jsval) :
  JSON.parse_value m s = Some (v, String "," r) ->
  JSON.parse_elements m r = Some (vs, r2) ->
  JSON.parse_elements (S m) s = Some (v :: vs, r2).
Proof.
  intros H1 H2. cbn [JSON.parse_elements]. rewrite H1. known_char.
  rewrite H2. reflexivity.
Qed.

Lemma parse_members_last (m : nat) (t r2 r4 key : string) (v : jsval) :
  JSON.parse_chars t = Some (key, String ":" r2) ->
  JSON.parse_value m r2 = Some (v, String "}" r4) ->
  JSON.parse_members (S m) (String "034"%char t) = Some ([(key, v)], r4).
Proof.
  intros H1 H2. cbn [JSON.parse_members]. known_char. rewrite H1. known_char.
  rewrite H2. known_char. reflexivity.
Qed.

Lemma parse_members_more (m : nat) (t r2 r4 r5 key : string) (v : jsval)
      (ms : list (string * jsval)) :
  JSON.parse_chars t = Some (key, String ":" r2) ->
  JSON.parse_value m r2 = Some (v, String "," r4) ->
  JSON.parse_members m r4 = Some (ms, r5) ->
  JSON.parse_members (S m) (String "034"%char t) = Some ((key, v) :: ms, r5).
Proof.
  intros H1 H2 H3. cbn [JSON.parse_members]. known_char. rewrite H1. known_char.
  rewrite H2. known_char. rewrite H3. reflexivity.
Qed.

Lemma starts_value_append (a b : string) :
  starts_value a = true -> starts_value (a ++ b) = true.
Proof. destruct a; [discriminate | intro H; exact H]. Qed.

Lemma compact_array (items : list jsval) :
  compact (VArr items)
  = match items with
    | [] => "[]"
    | _ => "[" ++ elements_text items ++ "]"
    end.
Proof. destruct items; reflexivity. Qed.

Lemma compact_object (props : list (string * jsval)) :
  compact (VObj props)
  = match member_texts props with
    | [] => "{}"
    | _ => "{" ++ String.concat "," (member_texts props) ++ "}"
    end.
Proof. reflexivity. Qed.

Lemma is_json_defined (v : jsval) : is_json v = true -> v <> VUndefined.
Proof. intros H ->. discriminate. Qed.

Lemma serialize_compact (v : jsval) :
  v <> VUndefined -> JSON.serialize EmptyString EmptyString v = Some (compact v).
Proof. destruct v; try reflexivity. intro H. contradiction. Qed.

Lemma member_texts_defined (props : list (string * jsval)) :
  forallb (fun kv => is_json (snd kv)) props = true ->
  member_texts props = map member_text props.
Proof.
  induction props as [|[k x] props IH]; [reflexivity|].
  cbn [forallb snd]. intro H. apply andb_prop in H as [Hx Hrest].
  unfold member_texts in *. cbn [flat_map].
  rewrite (serialize_compact x (is_json_defined x Hx)), (IH Hrest).
  reflexivity.
Qed.

Lemma elements_read_back (items : list jsval) :
  Forall reads_back items -> items <> [] ->
  starts_value (elements_text items) = true
  /\ list_sum (map (fun x => S (size x)) items) <= String.length (elements_text items) + 1
  /\ forall fuel rest,
       list_sum (map (fun x => S (size x)) items) <= fuel ->
       JSON.parse_elements fuel (elements_text items ++ String "]" rest) = Some (items, rest).
Proof.
  induction 1 as [|x xs (Hs & Hl & Hp) Hxs IH]; [contradiction|]. intros _.
  destruct xs as [|y ys].
  - change (elements_text [x]) with (compact x).
    split; [exact Hs|]. split; [cbn; lia|].
    intros fuel rest Hf. cbn in Hf.
    destruct fuel as [|m]; [lia|].
    apply parse_elements_last. apply Hp; [lia | reflexivity].
  - destruct (IH ltac:(discriminate)) as (Hs' & Hl' & Hp').
    change (elements_text (x :: y :: ys))
      with (compact x ++ "," ++ elements_text (y :: ys)).
    split; [apply starts_value_append, Hs|].
    change (list_sum (map (fun v => S (size v)) (x :: y :: ys)))
      with (S (size x) + list_sum (map (fun v => S (size v)) (y :: ys))).
    split.
    { rewrite !length_append. cbn [String.length]. lia. }
    intros fuel rest Hf.
    destruct fuel as [|m]; [lia|].
    rewrite !append_assoc.
    apply (parse_elements_more m _ (elements_text (y :: ys) ++ String "]" rest)).
    + apply Hp; [lia | reflexivity].
    + apply Hp'. lia.
Qed.

Lemma members_read_back (props : list (string * jsval)) :
  Forall (fun kv => reads_back (snd kv)) props -> props <> [] ->
  (exists t, members_text props = String "034"%char t)
  /\ list_sum (map (fun kv => S (size (snd kv))) props)
     <= String.length (members_text props) + 1
  /\ forall fuel rest,
       list_sum (map (fun kv => S (size (snd kv))) props) <= fuel ->
       JSON.parse_members fuel (members_text props ++ String "}" rest) = Some (props, rest).
Proof.
  assert (Hkey : forall k x R,
    member_text (k, x) ++ R
    = String "034"%char (JSON.quote_chars k ++ dquote ++ String ":" (compact x ++ R))).
  { intros k x R. unfold member_text, JSON.quote. cbn [fst snd].
    rewrite !append_assoc. reflexivity. }
  induction 1 as [|[k x] ps (Hs & Hl & Hp) Hps IH]; [contradiction|]. intros _.
  cbn [snd] in *.
  destruct ps as [|q qs].
  - change (members_text [(k, x)]) with (member_text (k, x)).
    split; [eexists; rewrite <- (append_nil_r (member_text (k, x))), Hkey; reflexivity|].
    split.
    { unfold member_text. rewrite !length_append. cbn. lia. }
    intros fuel rest Hf. cbn in Hf.
    destruct fuel as [|m]; [lia|].
    rewrite Hkey.
    eapply parse_members_last; [apply parse_chars_quoted|].
    apply Hp; [lia | reflexivity].
  - destruct (IH ltac:(discriminate)) as (_ & Hl' & Hp').
    change (members_text ((k, x) :: q :: qs))
      with (member_text (k, x) ++ "," ++ members_text (q :: qs)).
    split; [eexists; rewrite Hkey; reflexivity|].
    change (list_sum (map (fun kv => S (size (snd kv))) ((k, x) :: q :: qs)))
      with (S (size x) + list_sum (map (fun kv => S (size (snd kv))) (q :: qs))).
    split.
    { unfold member_text at 1. rewrite !length_append.
      cbn [String.length fst snd]. lia. }
    intros fuel rest Hf.
    destruct fuel as [|m]; [lia|].
    rewrite append_assoc, Hkey.
    eapply parse_members_more; [apply parse_chars_quoted | |].
    + rewrite append_assoc.
      apply (Hp m (String "," (members_text (q :: qs) ++ String "}" rest)));
        [lia | reflexivity].
    + apply Hp'. lia.
Qed.

Lemma unique_keys_fresh (before after : list string) (k : string) :
  unique_keys (before ++ k :: after) = true ->
  existsb (String.eqb k) before = false.
Proof.
  induction before as [|a before IH]; [reflexivity|].
  cbn [app unique_keys existsb]. intro H. apply andb_prop in H as [Ha Hrest].
  rewrite (IH Hrest), orb_false_r.
  apply negb_true_iff in Ha. rewrite existsb_app in Ha.
  apply orb_false_elim in Ha as [_ Ha]. cbn [existsb] in Ha.
  apply orb_false_elim in Ha as [Ha _].
  rewrite String.eqb_sym. exact Ha.
Qed.

Lemma set_prop_fresh (k : string) (v : jsval) (props : list (string * jsval)) :
  existsb (String.eqb k) (map fst props) = false ->
  JSON.set_prop k v props = (props ++ [(k, v)])%list.
Proof.
  induction props as [|[k' v'] props IH]; [reflexivity|].
  cbn [map fst existsb JSON.set_prop app]. intro H.
  apply orb_false_elim in H as [Hk Hrest].
  rewrite Hk, (IH Hrest). reflexivity.
Qed.

Lemma make_object_unique (members acc : list (string * jsval)) :
  unique_keys (map fst acc ++ map fst members) = true ->
  fold_left (fun props kv => JSON.set_prop (fst kv) (snd kv) props) members acc
  = (acc ++ members)%list.
Proof.
  revert acc. induction members as [|[k v] members IH]; intros acc H.
  - symmetry. apply List.app_nil_r.
  - cbn [fold_left fst snd map] in *.
    rewrite (set_prop_fresh k v acc (unique_keys_fresh _ _ _ H)).
    rewrite IH.
    + rewrite <- List.app_assoc. reflexivity.
    + rewrite map_app, <- List.app_assoc. exact H.
Qed.

Lemma forallb_reads_back (items : list jsval) :
  Forall (fun v => is_json v = true -> reads_back v) items ->
  forallb is_json items = true ->
  Forall reads_back items.
Proof.
  induction 1 as [|x xs Hx _ IH]; [constructor|].
  cbn [forallb]. intro H. apply andb_prop in H as [H1 H2].
  constructor; [apply Hx, H1 | apply IH, H2].
Qed.

(** Reading the compact text of JSON data gives the data back. *)
Lemma json_reads_back (v : jsval) : is_json v = true -> reads_back v.
Proof.
  induction v as [| |b|z|s|items IH|props IH] using jsval_ind; intro Hjson;
    unfold reads_back.
  - discriminate.
  - split; [reflexivity|]. split; [cbn; lia|].
    intros [|n] rest Hf _; [cbn in Hf; lia | reflexivity].
  - split; [destruct b; reflexivity|]. split; [destruct b; cbn; lia|].
    intros [|n] rest Hf _; [cbn in Hf; lia | destruct b; reflexivity].
  - change (compact (VNum z)) with (Number_toString z).
    pose proof (Number_toString_chars z) as Hchars.
    pose proof (Number_toString_nonempty z) as Hne.
    pose proof (parse_number_printed z) as Hnum.
    destruct (Number_toString z) as [|c t]; [contradiction|].
    cbn [all_number_chars] in Hchars. apply andb_prop in Hchars as [Hc _].
    split; [apply number_char_starts_value, Hc|]. split; [cbn; lia|].
    intros [|n] rest Hf Hrest; [cbn in Hf; lia|].
    cbn [append]. rewrite (parse_value_number_head n c _ Hc).
    apply (Hnum rest Hrest).
  - change (compact (VStr s)) with (JSON.quote s).
    split; [reflexivity|]. split; [cbn; lia|].
    intros [|n] rest Hf _; [cbn in Hf; lia|].
    unfold JSON.quote. rewrite !append_assoc.
    change (dquote ++ JSON.quote_chars s ++ dquote ++ rest)
      with (String "034"%char (JSON.quote_chars s ++ dquote ++ rest)).
    rewrite parse_value_string_head, parse_chars_quoted. reflexivity.
  - cbn [is_json] in Hjson.
    pose proof (forallb_reads_back items IH Hjson) as Hitems.
    rewrite compact_array.
    destruct items as [|x xs].
    + split; [reflexivity|]. split; [cbn; lia|].
      intros [|n] rest Hf _; [cbn in Hf; lia | reflexivity].
    + destruct (elements_read_back (x :: xs) Hitems ltac:(discriminate))
        as (Hs & Hl & Hp).
      split; [reflexivity|].
      split.
      { rewrite !length_append. cbn [size String.length]. lia. }
      intros [|n] rest Hf _; [cbn in Hf; lia|].
      cbn [size] in Hf.
      rewrite !append_assoc.
      change ("[" ++ elements_text (x :: xs) ++ "]" ++ rest)
        with (String "[" (elements_text (x :: xs) ++ String "]" rest)).
      rewrite parse_value_array_head by (apply starts_value_append, Hs).
      rewrite Hp by lia. reflexivity.
  - cbn [is_json] in Hjson. apply andb_prop in Hjson as [Huniq Hall].
    assert (Hprops : Forall (fun kv => reads_back (snd kv)) props).
    { clear Huniq. induction IH as [|kv ps Hkv _ IHl]; [constructor|].
      cbn [forallb] in Hall. apply andb_prop in Hall as [H1 H2].
      constructor; [apply Hkv, H1 | apply IHl, H2]. }
    rewrite compact_object, (member_texts_defined props Hall).
    destruct props as [|p ps].
    + split; [reflexivity|]. split; [cbn; lia|].
      intros [|n] rest Hf _; [cbn in Hf; lia | reflexivity].
    + destruct (members_read_back (p :: ps) Hprops ltac:(discriminate))
        as ((t & Ht) & Hl & Hp).
      change (String.concat "," (map member_text (p :: ps)))
        with (members_text (p :: ps)) in *.
      cbn [map].
      split; [reflexivity|].
      split.
      { rewrite !length_append. cbn [size String.length]. lia. }
      intros [|n] rest Hf _; [cbn in Hf; lia|].
      cbn [size] in Hf.
      rewrite !append_assoc.
      change ("{" ++ members_text (p :: ps) ++ "}" ++ rest)
        with (String "{" (members_text (p :: ps) ++ String "}" rest)).
      pose proof (Hp n rest ltac:(lia)) as Hread.
      rewrite Ht in *. cbn [append] in *.
      rewrite parse_value_object_head, Hread.
      unfold JSON.make_object.
      rewrite (make_object_unique (p :: ps) [] Huniq). reflexivity.
Qed.

(** [JSON.parse(JSON.stringify(v))] is [v] for JSON data. *)
Lemma parse_stringify (v : jsval) :
  is_json v = true ->
  JSON.stringify v 0 = Some (compact v) /\ JSON.parse (compact v) = Return v.
Proof.
  intro Hjson. split.
  - apply (serialize_compact v (is_json_defined v Hjson)).
  - destruct (json_reads_back v Hjson) as (_ & Hl & Hp).
    unfold JSON.parse.
    rewrite <- (append_nil_r (compact v)) at 2.
    rewrite (Hp (S (String.length (compact v))) EmptyString) by (lia || reflexivity).
    reflexivity.
Qed.

(** *** Invariants carried through the combinators *)

Section Invariance.

Variable R : Agent -> Agent -> Prop.
Hypothesis R_refl : forall st, R st st.
Hypothesis R_trans : forall a b c, R a b -> R b c -> R a c.

Lemma respects_ret A (a : A) : respects R (ret a).
Proof. intro st. apply R_refl. Qed.

Lemma respects_throw A (e : JsError) : respects R (@throw A e).
Proof. intro st. apply R_refl. Qed.

Lemma respects_lift A (c : Completion A) : respects R (lift c).
Proof. intro st. apply R_refl. Qed.

Lemma respects_gets A (f : Agent -> A) : respects R (gets f).
Proof. intro st. apply R_refl. Qed.

Lemma respects_bind A B (m : M A) (k : A -> M B) :
  respects R m -> (forall a, respects R (k a)) -> respects R (bind m k).
Proof.
  intros Hm Hk st. unfold bind.
  specialize (Hm st). destruct (m st) as [[a|e] st1]; simpl in *.
  - eapply R_trans; [exact Hm | apply Hk].
  - exact Hm.
Qed.

Lemma respects_try_catch A (body : M A) (handler : JsError -> M A) :
  respects R body -> (forall e, respects R (handler e)) ->
  respects R (try_catch body handler).
Proof.
  intros Hb Hh st. unfold try_catch.
  specialize (Hb st). destruct (body st) as [[a|e] st1]; simpl in *.
  - exact Hb.
  - eapply R_trans; [exact Hb | apply Hh].
Qed.

Lemma respects_for_of A (xs : list A) (body : A -> M unit) :
  (forall x, respects R (body x)) -> respects R (for_of xs body).
Proof.
  intro Hb. induction xs as [|x xs IH]; simpl.
  - apply respects_ret.
  - apply respects_bind; [apply Hb | intros _; exact IH].
Qed.

End Invariance.

Lemma evolves_refl (st : Agent) : evolves st st.
Proof.
  split; try reflexivity; exists []; symmetry; apply List.app_nil_r.
Qed.

Lemma evolves_trans (a b c : Agent) : evolves a b -> evolves b c -> evolves a c.
Proof.
  intros [C1 B1 [t1 T1] [e1 E1]] [C2 B2 [t2 T2] [e2 E2]]. split.
  - congruence.
  - congruence.
  - exists (t1 ++ t2)%list. rewrite T2, T1. symmetry. apply List.app_assoc.
  - exists (e1 ++ e2)%list. rewrite E2, E1. symmetry. apply List.app_assoc.
Qed.

Lemma tool_trace_app (a b : list Event) :
  tool_trace (a ++ b) = (tool_trace a ++ tool_trace b)%list.
Proof. apply flat_map_app. Qed.

Lemma quiet_refl (st : Agent) : quiet st st.
Proof.
  split; [reflexivity|]. exists []. split; [|reflexivity].
  symmetry. apply List.app_nil_r.
Qed.

Lemma quiet_trans (a b c : Agent) : quiet a b -> quiet b c -> quiet a c.
Proof.
  intros [C1 (e1 & E1 & T1)] [C2 (e2 & E2 & T2)]. split.
  - congruence.
  - exists (e1 ++ e2)%list. split.
    + rewrite E2, E1. symmetry. apply List.app_assoc.
    + rewrite tool_trace_app, T1, T2. reflexivity.
Qed.

Lemma evolves_emit (e : Event) : respects evolves (emit e).
Proof.
  intro st. split; try reflexivity.
  - exists []. symmetry. apply List.app_nil_r.
  - exists [e]. reflexivity.
Qed.

Lemma evolves_push (t : Turn) : respects evolves (modify (push_turn t)).
Proof.
  intro st. split; try reflexivity.
  - exists [t]. reflexivity.
  - exists [EvAppend t]. reflexivity.
Qed.

Lemma evolves_set_log (f : LogFn) : respects evolves (modify (set_console_log f)).
Proof.
  intro st. split; try reflexivity; exists []; symmetry; apply List.app_nil_r.
Qed.

Lemma quiet_emit (e : Event) : mark e = [] -> respects quiet (emit e).
Proof.
  intros He st. split; [reflexivity|].
  exists [e]. split; [reflexivity|].
  unfold tool_trace. simpl. rewrite He. reflexivity.
Qed.

Lemma quiet_set_log (f : LogFn) : respects quiet (modify (set_console_log f)).
Proof.
  intro st. split; [reflexivity|]. exists []. split; [|reflexivity].
  symmetry. apply List.app_nil_r.
Qed.

Create HintDb agent discriminated.
#[local] Hint Resolve evolves_refl evolves_trans quiet_refl quiet_trans
  respects_ret respects_throw respects_lift respects_gets
  evolves_emit evolves_push evolves_set_log quiet_emit quiet_set_log : agent.

(** One step of a proof that a computation respects [evolves] or [quiet]:
    follow the shape of the code. *)
Ltac respects_step :=
  match goal with
  | |- respects _ (match ?x with _ => _ end) => destruct x
  | |- respects _ (if ?x then _ else _) => destruct x
  | |- respects _ (bind _ _) =>
      apply respects_bind; [solve [eauto with agent] | | intro]
  | |- respects _ (try_catch _ _) =>
      apply respects_try_catch; [solve [eauto with agent] | | intro]
  | |- respects _ (for_of _ _) =>
      apply respects_for_of; [solve [eauto with agent] .. | intro]
  | |- respects _ _ => solve [eauto with agent]
  end.

Ltac respects_tac := repeat respects_step.

Lemma yields_ret A (P : A -> Prop) (a : A) : P a -> yields P (ret a).
Proof. intros H st a' st' E. injection E as <- _. exact H. Qed.

Lemma yields_throw A (P : A -> Prop) (e : JsError) : yields P (throw e).
Proof. intros st a st' E. discriminate. Qed.

Lemma yields_bind A B (P : B -> Prop) (m : M A) (k : A -> M B) :
  (forall a, yields P (k a)) -> yields P (bind m k).
Proof.
  intros Hk st b st'. unfold bind.
  destruct (m st) as [[a|e] st1]; [apply Hk | discriminate].
Qed.

Section Properties.

Variable js_eval : string -> EvalOutcome.

(** *** Frame lemmas for the page updates *)

Lemma for_of_emit_state A (f : A -> Event) (xs : list A) (st : Agent) :
  for_of xs (fun x => emit (f x)) st
  = (Return tt, fold_left (fun s x => add_event (f x) s) xs st).
Proof.
  revert st. induction xs as [|x xs IH]; intro st; simpl.
  - reflexivity.
  - unfold bind, emit, modify at 1. simpl. apply IH.
Qed.

Lemma fold_add_event_console_log A (f : A -> Event) (xs : list A) (st : Agent) :
  console_log (fold_left (fun s x => add_event (f x) s) xs st) = console_log st.
Proof.
  revert st. induction xs as [|x xs IH]; intro st; simpl; [reflexivity|].
  rewrite IH. reflexivity.
Qed.

(** *** Conversation store: clear *)

(** C8. Clearing the conversation and then reading it yields the empty
    sequence of turns, whatever the conversation held before; the clear
    itself cannot fail. *)
Theorem clearConversation_then_snapshot_empty (st : Agent) :
  fst (clearConversation st) = Return tt
  /\ conversation (snd (clearConversation st)) = [].
Proof.
  unfold clearConversation, bind, modify, emit, modify. simpl. split; reflexivity.
Qed.

(** *** Evaluate handler: the capture of [console.log] *)

(** C6 (amended). Whatever the arguments, and whatever the evaluated code
    does otherwise (log, reassign [console.log], return any result, throw
    an error or any other value), as long as it leaves [console.log] an
    ordinary writable property, so that the handler's assignment takes
    effect, and its result or thrown value does not replace [console.log]
    again while the handler turns it into text, [console.log] holds its
    prior value when [executeJS] returns or raises. *)
Theorem executeJS_restores_console_log (args : jsval) (st : Agent) :
  (forall code,
      destructure args "code" = Return code ->
      leaves_assignable (eval_completion (eval js_eval code)) = true
      /\ converts_quietly (eval_completion (eval js_eval code)) = true) ->
  console_log (snd (executeJS js_eval args st)) = console_log st.
Proof.
  intro Htame.
  unfold executeJS, bind, lift.
  destruct (destructure args "code") as [code|e]; [|reflexivity].
  destruct (Htame code eq_refl) as [Hopen Hquiet].
  unfold gets, modify at 1.
  rewrite for_of_emit_state.
  set (st1 := fold_left _ _ _).
  assert (H1 : console_log st1 = CaptureLog (console_log st)).
  { unfold st1. rewrite fold_add_event_console_log. reflexivity. }
  clearbody st1.
  destruct (eval_console_log (eval js_eval code)) as [f|];
    destruct (eval_completion (eval js_eval code))
      as [r|e|v|[text|e] [g|]|[text|e] [g|]|e];
    try discriminate Hopen; try discriminate Hquiet;
    unfold modify, ret, bind, throw, lift;
    try (destruct (caught_message _));
    reflexivity.
Qed.

(** *** Evaluate handler: the returned text *)

Lemma show_value_text (missing : string) (x : jsval) :
  show_value missing x = value_text x.
Proof. destruct x as [| |[|]| | | |]; reflexivity. Qed.

Lemma concat_spaced (texts : list string) : String.concat " " texts = spaced texts.
Proof.
  induction texts as [|text rest IH]; [reflexivity|].
  destruct rest as [|next rest]; [reflexivity|].
  change (String.concat " " (text :: next :: rest))
    with (text ++ " " ++ String.concat " " (next :: rest)).
  rewrite IH. reflexivity.
Qed.

Lemma capture_line_text (args : list jsval) :
  capture_line args = spaced (map value_text args) ++ nl.
Proof.
  unfold capture_line. rewrite concat_spaced. f_equal. f_equal.
  apply map_ext. intro x. apply show_value_text.
Qed.

Lemma captured_output_text (calls : list (list jsval)) :
  captured_output calls = diagnostic_text calls.
Proof.
  unfold captured_output.
  induction calls as [|args rest IH]; [reflexivity|].
  cbn [diagnostic_text]. rewrite <- IH, <- append_assoc, <- capture_line_text.
  destruct rest as [|next rest].
  - cbn [map String.concat]. symmetry. apply append_nil_r.
  - reflexivity.
Qed.

Lemma format_output_payload (captured : string) (result : jsval) :
  format_output captured result
  = evaluate_payload captured
      match result with
      | VUndefined => None
      | _ => Some (value_text result)
      end.
Proof.
  unfold format_output, evaluate_payload.
  destruct captured as [|c rest]; destruct result;
    rewrite ?show_value_text; reflexivity.
Qed.

Lemma format_rendered_payload (captured text : string) :
  format_rendered captured text = evaluate_payload captured (Some text).
Proof.
  unfold format_rendered, evaluate_payload.
  destruct captured as [|c rest]; [destruct text|]; reflexivity.
Qed.


(** *** The busy flag and the configuration are left alone *)

Lemma evolves_showToolResult (toolId : string) (result : jsval) (isError : bool) :
  respects evolves (showToolResult toolId result isError).
Proof. unfold showToolResult. respects_tac. Qed.

Lemma evolves_showToolCall (toolCall : ToolCall) : respects evolves (showToolCall toolCall).
Proof. unfold showToolCall. respects_tac. Qed.

Lemma evolves_searchWeb (args : jsval) : respects evolves (searchWeb args).
Proof. unfold searchWeb, delay. respects_tac. Qed.

Lemma evolves_aiPipe (args : jsval) : respects evolves (aiPipe args).
Proof. unfold aiPipe, delay. respects_tac. Qed.

Lemma evolves_executeJS (args : jsval) : respects evolves (executeJS js_eval args).
Proof. unfold executeJS. respects_tac. Qed.

Lemma evolves_dispatch (name args : string) : respects evolves (dispatch js_eval name args).
Proof.
  pose proof evolves_searchWeb. pose proof evolves_aiPipe. pose proof evolves_executeJS.
  unfold dispatch. respects_tac.
Qed.

Lemma evolves_handleToolCall (toolCall : ToolCall) :
  respects evolves (handleToolCall js_eval toolCall).
Proof.
  pose proof evolves_showToolCall. pose proof evolves_showToolResult.
  pose proof evolves_dispatch.
  unfold handleToolCall. respects_tac.
Qed.

Lemma evolves_callLLM (settled : FetchOutcome) (messages : list Turn) (tools : list ToolSpec) :
  respects evolves (callLLM settled messages tools).
Proof.
  unfold callLLM, callLLM_send, callLLM_receive, showLoadingIndicator, hideLoadingIndicator.
  respects_tac.
Qed.

Lemma evolves_after_response (response : Message) :
  respects evolves (after_response js_eval response).
Proof.
  pose proof evolves_handleToolCall.
  unfold after_response, addMessage. respects_tac.
Qed.

Lemma evolves_agentLoop_while (network : list FetchOutcome) (st : Agent) :
  evolves st (snd (fst (agentLoop_while js_eval network st))).
Proof.
  revert st. induction network as [|settled later IH]; intro st; cbn [agentLoop_while].
  - assert (H : respects evolves (callLLM_send (conversation st) initializeTools)).
    { unfold callLLM_send, showLoadingIndicator. respects_tac. }
    specialize (H st).
    destruct (callLLM_send (conversation st) initializeTools st) as [[u|e] st1]; exact H.
  - assert (H : respects evolves
                  (bind (callLLM settled (conversation st) initializeTools)
                        (after_response js_eval))).
    { pose proof evolves_callLLM. pose proof evolves_after_response. respects_tac. }
    specialize (H st).
    destruct (bind _ _ st) as [[[|]|e] st1]; cbn [fst snd] in *; try exact H.
    eapply evolves_trans; [exact H | apply IH].
Qed.

(** *** The model client *)

Lemma callLLM_returns (settled : FetchOutcome) (st st1 : Agent) (response : Message) :
  callLLM settled (conversation st) initializeTools st = (Return response, st1) ->
  exists cfg,
    llmConfig st = Some cfg
    /\ st1 = add_event (EvLoading false)
               (push_turn (assistant_turn (message_content response)
                                          (message_tool_calls response))
                          (request_sent cfg st)).
Proof.
  unfold callLLM, callLLM_send, callLLM_receive, showLoadingIndicator,
    hideLoadingIndicator, bind, gets, emit, modify, lift, throw, ret.
  cbn [llmConfig add_event].
  destruct (llmConfig st) as [cfg|] eqn:Hcfg; [|discriminate].
  destruct settled as [err|r]; [discriminate|].
  destruct (negb (ok r)); [discriminate|].
  destruct (json r) as [data|err]; [|discriminate].
  destruct (first_message data) as [[m|]|err]; try discriminate.
  intro H. injection H as <- <-.
  exists cfg. split; reflexivity.
Qed.

Lemma callLLM_throws (settled : FetchOutcome) (st st1 : Agent) (e : JsError) :
  callLLM settled (conversation st) initializeTools st = (Throw e, st1) ->
  st1 = add_event (EvLoading true) st
  \/ exists cfg, llmConfig st = Some cfg /\ st1 = request_sent cfg st.
Proof.
  unfold callLLM, callLLM_send, callLLM_receive, showLoadingIndicator,
    hideLoadingIndicator, bind, gets, emit, modify, lift, throw, ret.
  cbn [llmConfig add_event].
  destruct (llmConfig st) as [cfg|] eqn:Hcfg.
  - intro H. right. exists cfg. split; [reflexivity|].
    destruct settled as [err|r]; [injection H as _ <-; reflexivity|].
    destruct (negb (ok r)); [injection H as _ <-; reflexivity|].
    destruct (json r) as [data|err]; [|injection H as _ <-; reflexivity].
    destruct (first_message data) as [[m|]|err];
      try discriminate; injection H as _ <-; reflexivity.
  - intro H. left. injection H as _ <-. reflexivity.
Qed.

(** A transport or protocol failure makes [callLLM] throw, and with a
    configuration in place nothing else does. *)
Lemma callLLM_throws_iff_model_error
      (settled : FetchOutcome) (messages : list Turn) (tools : list ToolSpec)
      (st : Agent) (cfg : LLMConfig) :
  llmConfig st = Some cfg ->
  (exists e st1, callLLM settled messages tools st = (Throw e, st1))
  <-> transport_error settled || protocol_error settled = true.
Proof.
  intro Hcfg.
  unfold callLLM, callLLM_send, callLLM_receive, showLoadingIndicator,
    hideLoadingIndicator, bind, gets, emit, modify, lift, throw, ret.
  cbn [llmConfig add_event]. rewrite Hcfg.
  unfold transport_error, protocol_error, first_message.
  destruct settled as [err|r]; [split; [reflexivity | intros _; eauto]|].
  destruct (ok r); cbn [negb orb andb];
    [|split; [reflexivity | intros _; eauto]].
  destruct (json r) as [data|err]; [|split; [reflexivity | intros _; eauto]].
  destruct (choices data) as [[|choice more]|];
    try (split; [reflexivity | intros _; eauto]).
  destruct (choice_message choice) as [m|];
    [|split; [reflexivity | intros _; eauto]].
  split; [intros (e & st1 & H); discriminate | discriminate].
Qed.

Lemma model_calls_app (a b : list Event) :
  model_calls (a ++ b) = model_calls a + model_calls b.
Proof. unfold model_calls. rewrite filter_app, length_app. reflexivity. Qed.

Lemma tool_executions_app (a b : list Event) :
  tool_executions (a ++ b) = tool_executions a + tool_executions b.
Proof. unfold tool_executions. rewrite filter_app, length_app. reflexivity. Qed.

(** *** Loop termination *)

(** C3. When the model's answer carries no tool calls (the field is absent
    or empty), the loop started for the user turn consumes that one answer
    and hands control back ([AwaitingUser]): one request was sent to the
    model, the single assistant turn was appended, no tool was started, and
    the busy flag is released. *)
Theorem agentLoop_single_call_without_tool_calls
        (settled : FetchOutcome) (later : list FetchOutcome)
        (st st1 : Agent) (response : Message) :
  callLLM settled (conversation st) initializeTools st = (Return response, st1) ->
  requested_calls response = [] ->
  exists st',
    agentLoop js_eval (settled :: later) st = (AwaitingUser, st', later)
    /\ conversation st'
       = (conversation st
          ++ [assistant_turn (message_content response) (message_tool_calls response)])%list
    /\ model_calls (events st') = S (model_calls (events st))
    /\ tool_executions (events st') = tool_executions (events st)
    /\ isProcessing st' = false.
Proof.
  intros Hcall Hnone.
  destruct (callLLM_returns _ _ _ _ Hcall) as (cfg & Hcfg & ->).
  unfold agentLoop, agentLoop_exit. cbn [agentLoop_while].
  unfold bind at 1. rewrite Hcall.
  unfold after_response. rewrite Hnone.
  set (st1 := add_event (EvLoading false) _).
  assert (Hshow :
    exists st2,
      (match message_content response with
       | Some text => if truthy_string text then addMessage "agent" text else ret tt
       | None => ret tt
       end) st1 = (Return tt, st2)
      /\ conversation st2 = conversation st1
      /\ events st2 = (events st1 ++ shown_text response)%list).
  { unfold shown_text. destruct (message_content response) as [text|].
    - destruct (truthy_string text).
      + eexists. split; [reflexivity|]. split; reflexivity.
      + eexists. split; [reflexivity|]. split; [reflexivity|].
        symmetry. apply List.app_nil_r.
    - eexists. split; [reflexivity|]. split; [reflexivity|].
      symmetry. apply List.app_nil_r. }
  destruct Hshow as (st2 & Hrun & Hconv & Hevs).
  unfold bind. rewrite Hrun. unfold ret.
  eexists. split; [reflexivity|].
  cbn [setProcessingState modify snd conversation events isProcessing].
  rewrite Hconv, Hevs. unfold st1.
  cbn [add_event push_turn set_conversation request_sent conversation events].
  split; [reflexivity|].
  rewrite !model_calls_app, !tool_executions_app.
  assert (Htext : model_calls (shown_text response) = 0
                  /\ tool_executions (shown_text response) = 0).
  { unfold shown_text. destruct (message_content response) as [text|];
      [destruct (truthy_string text)|]; split; reflexivity. }
  destruct Htext as [-> ->].
  cbn. split; [lia|]. split; [lia|reflexivity].
Qed.

(** *** Model errors *)

(** Whenever [callLLM] throws, nothing was appended by the call, and the
    loop ends in [Failed] with the conversation as it was before the call,
    the error shown by an alert and a system message, the busy flag
    released. *)
Lemma callLLM_throw_ends_loop
      (settled : FetchOutcome) (later : list FetchOutcome)
      (st st1 : Agent) (e : JsError) :
  callLLM settled (conversation st) initializeTools st = (Throw e, st1) ->
  conversation st1 = conversation st
  /\ exists st' evs,
       agentLoop js_eval (settled :: later) st = (Failed e, st', later)
       /\ conversation st' = conversation st
       /\ events st'
          = (events st ++ evs
             ++ [EvAlert ("Agent error: " ++ message e) "danger";
                 EvMessage "system" ("Error: " ++ message e)])%list
       /\ filter is_append evs = []
       /\ isProcessing st' = false.
Proof.
  intro Hcall.
  assert (Hst1 : conversation st1 = conversation st
                 /\ exists evs, events st1 = (events st ++ evs)%list
                                /\ filter is_append evs = []).
  { destruct (callLLM_throws _ _ _ _ Hcall) as [->|(cfg & _ & ->)].
    - split; [reflexivity|]. exists [EvLoading true]. split; reflexivity.
    - split; [reflexivity|]. eexists [EvLoading true; EvFetch _ _ _].
      split; [|reflexivity].
      unfold request_sent. cbn [add_event events].
      rewrite <- List.app_assoc. reflexivity. }
  destruct Hst1 as (Hconv & evs & Hevs & Hnone).
  split; [exact Hconv|].
  unfold agentLoop, agentLoop_exit. cbn [agentLoop_while].
  unfold bind at 1. rewrite Hcall.
  eexists. exists evs. split; [reflexivity|].
  unfold showAlert, addMessage, bind, emit, modify.
  cbn [setProcessingState modify snd conversation events isProcessing add_event].
  rewrite Hevs, Hconv.
  repeat split; try assumption.
  rewrite <- !List.app_assoc. reflexivity.
Qed.

Lemma model_error_makes_callLLM_throw
      (settled : FetchOutcome) (messages : list Turn) (tools : list ToolSpec) (st : Agent) :
  transport_error settled || protocol_error settled = true ->
  exists e st1, callLLM settled messages tools st = (Throw e, st1).
Proof.
  destruct (llmConfig st) as [cfg|] eqn:Hcfg.
  - apply (callLLM_throws_iff_model_error settled messages tools st cfg Hcfg).
  - intros _.
    unfold callLLM, callLLM_send, showLoadingIndicator, bind, gets, emit, modify, throw.
    cbn [llmConfig add_event]. rewrite Hcfg. eauto.
Qed.

(** C4. On a model-client error, be it a transport failure (the request is
    rejected or the HTTP status is not OK) or a protocol failure (the body
    is not JSON or lacks [choices[0].message]), [callLLM] throws without
    having appended a turn, and the loop ends in [Failed] with the
    conversation exactly as it was before the failing call; the error is
    shown to the user by an alert and a system message, and the busy flag
    is released. *)
Theorem model_error_keeps_conversation
        (settled : FetchOutcome) (later : list FetchOutcome) (st : Agent) :
  transport_error settled || protocol_error settled = true ->
  exists e st1 st' evs,
    callLLM settled (conversation st) initializeTools st = (Throw e, st1)
    /\ conversation st1 = conversation st
    /\ agentLoop js_eval (settled :: later) st = (Failed e, st', later)
    /\ conversation st' = conversation st
    /\ events st'
       = (events st ++ evs
          ++ [EvAlert ("Agent error: " ++ message e) "danger";
              EvMessage "system" ("Error: " ++ message e)])%list
    /\ filter is_append evs = []
    /\ isProcessing st' = false.
Proof.
  intro Herr.
  destruct (model_error_makes_callLLM_throw settled (conversation st) initializeTools st Herr)
    as (e & st1 & Hcall).
  destruct (callLLM_throw_ends_loop settled later st st1 e Hcall)
    as (Hconv & st' & evs & Hloop & Hrest).
  exists e, st1, st', evs. split; [exact Hcall|]. split; [exact Hconv|].
  split; [exact Hloop | exact Hrest].
Qed.

(** *** Concurrency guard *)

(** C5. While [isProcessing] is set, [handleUserMessage] returns at once:
    no loop is started or queued, the agent (conversation included) is
    left exactly as it was, and no answer of the network is consumed. *)
Theorem handleUserMessage_rejected_while_busy
        (network : list FetchOutcome) (st : Agent) :
  isProcessing st = true ->
  handleUserMessage js_eval network st = (None, st, network).
Proof.
  intro Hbusy. unfold handleUserMessage. rewrite Hbusy.
  rewrite orb_true_r. reflexivity.
Qed.


(** While a loop started by [handleUserMessage] is still waiting for the
    model, the busy flag is set: a submission arriving then is turned
    away, whatever was typed. *)
Lemma loop_in_flight_rejects_submission
      (network network' : list FetchOutcome) (st st' : Agent)
      (rest : list FetchOutcome) (typed : string) :
  handleUserMessage js_eval network st = (Some AwaitingModel, st', rest) ->
  isProcessing st' = true
  /\ handleUserMessage js_eval network' (set_messageInput_value typed st')
     = (None, set_messageInput_value typed st', network').
Proof.
  unfold handleUserMessage.
  destruct (negb (truthy_string (trim (messageInput_value st))) || isProcessing st);
    [discriminate|].
  destruct (llmConfig st) as [cfg|]; [|discriminate].
  set (st0 := snd (_ st)).
  assert (Hbusy0 : isProcessing st0 = true) by reflexivity.
  unfold agentLoop, agentLoop_exit.
  pose proof (evolves_agentLoop_while network st0) as Hev.
  destruct (agentLoop_while js_eval network st0) as [[[| e |] st1] rest1];
    try discriminate.
  intro H. injection H as <- <-.
  cbn [fst snd] in Hev.
  assert (Hbusy : isProcessing st1 = true).
  { rewrite (evolves_busy _ _ Hev). exact Hbusy0. }
  split; [exact Hbusy|].
  cbn [isProcessing set_messageInput_value]. rewrite Hbusy.
  rewrite orb_true_r. reflexivity.
Qed.

(** Waiting for the model and then taking the loop up again is the same
    as running the loop with the answer at hand. *)
Lemma agentLoop_parks_then_resumes
      (settled : FetchOutcome) (later : list FetchOutcome) (st st0 : Agent) :
  agentLoop js_eval [] st = (AwaitingModel, st0, []) ->
  agentLoop js_eval (settled :: later) st = agentLoop_resume js_eval settled later st0.
Proof.
  unfold agentLoop, agentLoop_resume. cbn [agentLoop_while].
  unfold callLLM, bind.
  destruct (callLLM_send (conversation st) initializeTools st) as [[[]|e] st1];
    cbn [agentLoop_exit]; [|discriminate].
  intro H. injection H as <-. reflexivity.
Qed.

Lemma agentLoop_resume_keeps_flag
      (settled : FetchOutcome) (later rest : list FetchOutcome) (st st' : Agent) :
  agentLoop_resume js_eval settled later st = (AwaitingModel, st', rest) ->
  isProcessing st' = isProcessing st.
Proof.
  unfold agentLoop_resume.
  assert (H : respects evolves
                (bind (callLLM_receive settled) (after_response js_eval))).
  { pose proof evolves_after_response. unfold callLLM_receive, hideLoadingIndicator.
    respects_tac. }
  specialize (H st).
  destruct (bind _ _ st) as [[[|]|e] st1]; cbn [fst snd agentLoop_exit] in *;
    try discriminate.
  pose proof (evolves_agentLoop_while later st1) as H1.
  destruct (agentLoop_while js_eval later st1) as [[[| e |] st2] rest2];
    cbn [fst snd agentLoop_exit] in *; try discriminate.
  intro E. injection E as <- _.
  rewrite (evolves_busy _ _ H1). apply (evolves_busy _ _ H).
Qed.

Lemma happen_keeps_one_loop (s : Session) (h : Happening) :
  one_loop s -> one_loop (happen js_eval s h).
Proof.
  intros Hs. destruct h as [typed | | settled]; cbn [happen].
  - destruct (handleUserMessage js_eval [] (set_messageInput_value typed (agent s)))
      as [[state st'] rest] eqn:Hrun.
    destruct Hs as [Hnone | [Hone Hbusy]].
    + destruct state as [[| e |]|]; try (left; exact Hnone).
      right. cbn [in_flight agent]. split; [rewrite Hnone; reflexivity|].
      apply (loop_in_flight_rejects_submission [] [] _ _ _ typed Hrun).
    + assert (Hrej : handleUserMessage js_eval [] (set_messageInput_value typed (agent s))
                     = (None, set_messageInput_value typed (agent s), [])).
      { unfold handleUserMessage. cbn [isProcessing set_messageInput_value].
        rewrite Hbusy, orb_true_r. reflexivity. }
      rewrite Hrej in Hrun. injection Hrun as <- <- _.
      right. split; assumption.
  - destruct Hs as [Hnone | [Hone Hbusy]]; [left; exact Hnone|].
    right. split; [exact Hone | exact Hbusy].
  - destruct Hs as [Hnone | [Hone Hbusy]].
    + rewrite Hnone. left. exact Hnone.
    + rewrite Hone.
      destruct (agentLoop_resume js_eval settled [] (agent s)) as [[state st'] rest] eqn:Hrun.
      destruct state as [| e |]; try (left; reflexivity).
      right. split; [reflexivity|]. cbn [agent].
      rewrite (agentLoop_resume_keeps_flag _ _ _ _ _ Hrun). exact Hbusy.
Qed.

(** Whatever the user and the network do, in whatever order, no second
    loop is ever in flight. *)
Lemma at_most_one_loop_in_flight (hs : list Happening) (st : Agent) :
  in_flight (run_session js_eval hs (mkSession st 0)) <= 1.
Proof.
  assert (H : one_loop (run_session js_eval hs (mkSession st 0))).
  { unfold run_session. generalize (mkSession st 0) (or_introl eq_refl : one_loop (mkSession st 0)).
    induction hs as [|h hs IH]; intros s Hs; cbn [fold_left]; [exact Hs|].
    apply IH, happen_keeps_one_loop, Hs. }
  destruct H as [-> | [-> _]]; lia.
Qed.

(** *** The tool executor *)

Lemma quiet_showToolResult (toolId : string) (result : jsval) (isError : bool) :
  respects quiet (showToolResult toolId result isError).
Proof. unfold showToolResult. respects_tac. Qed.

Lemma quiet_searchWeb (args : jsval) : respects quiet (searchWeb args).
Proof. unfold searchWeb, delay. respects_tac. Qed.

Lemma quiet_aiPipe (args : jsval) : respects quiet (aiPipe args).
Proof. unfold aiPipe, delay. respects_tac. Qed.

Lemma quiet_executeJS (args : jsval) : respects quiet (executeJS js_eval args).
Proof. unfold executeJS. respects_tac. Qed.

Lemma quiet_dispatch (name args : string) : respects quiet (dispatch js_eval name args).
Proof.
  pose proof quiet_searchWeb. pose proof quiet_aiPipe. pose proof quiet_executeJS.
  unfold dispatch. respects_tac.
Qed.

(** Every handler returns text. *)
Lemma dispatch_yields_text (name args : string) :
  yields is_text (dispatch js_eval name args).
Proof.
  unfold dispatch, searchWeb, aiPipe, executeJS.
  repeat match goal with
         | |- yields _ (if ?x then _ else _) => destruct x
         | |- yields _ (match ?x with _ => _ end) => destruct x
         | |- yields _ (bind _ _) => apply yields_bind; intro
         | |- yields _ (throw _) => apply yields_throw
         | |- yields _ (ret (VStr ?t)) => apply yields_ret; exists t; reflexivity
         end.
Qed.

(** An exception raised while the call is drawn leaves [handleToolCall]
    before its [try] block is entered: nothing is appended. *)
Lemma handleToolCall_raises_undrawn (toolCall : ToolCall) (e : JsError) (st : Agent) :
  tool_call_params toolCall = Throw e ->
  handleToolCall js_eval toolCall st = (Throw e, st).
Proof.
  intro H. unfold handleToolCall, showToolCall, bind, lift. rewrite H. reflexivity.
Qed.

Lemma show_then_push (toolId : string) (result : jsval) (isError : bool)
      (t : Turn) (st : Agent) :
  exists st2,
    (showToolResult toolId result isError ;; modify (push_turn t)) st
    = (Return tt, push_turn t st2)
    /\ quiet st st2.
Proof.
  pose proof (quiet_showToolResult toolId result isError st) as Hq.
  unfold showToolResult, bind, gets, emit, modify, ret in *.
  destruct (tool_div_present toolId (events st)); cbn [snd] in Hq;
    eexists; (split; [reflexivity | exact Hq]).
Qed.

(** Once the call could be drawn, [handleToolCall] returns normally and
    has appended exactly one tool turn answering the call: the handler's
    text, or the failure message built from the caught error. *)
Lemma handleToolCall_answers (toolCall : ToolCall) (params : string) (st : Agent) :
  tool_call_params toolCall = Return params ->
  exists text st' evs,
    handleToolCall js_eval toolCall st = (Return tt, st')
    /\ conversation st' = (conversation st ++ [tool_turn (id toolCall) (Some text)])%list
    /\ events st' = (events st ++ evs)%list
    /\ tool_trace evs = [Started (id toolCall); Appended tool (Some (id toolCall))]
    /\ (fst (dispatch js_eval (name (function toolCall)) (arguments (function toolCall))
                     (add_event (EvToolCall toolCall params) st)) = Return (VStr text)
        \/ exists e,
             fst (dispatch js_eval (name (function toolCall)) (arguments (function toolCall))
                           (add_event (EvToolCall toolCall params) st)) = Throw e
             /\ text = "Tool execution failed: " ++ message e).
Proof.
  intro Hp.
  unfold handleToolCall, showToolCall.
  unfold bind at 1, lift. rewrite Hp.
  unfold bind at 1, emit, modify at 1.
  set (st0 := add_event (EvToolCall toolCall params) st).
  unfold try_catch. unfold bind at 1.
  pose proof (quiet_dispatch (name (function toolCall)) (arguments (function toolCall)) st0) as Hq.
  pose proof (dispatch_yields_text (name (function toolCall))
                (arguments (function toolCall)) st0) as Ht.
  destruct (dispatch js_eval (name (function toolCall)) (arguments (function toolCall)) st0)
    as [[r|e] st1]; cbn [fst snd] in *.
  - destruct (Ht r st1 eq_refl) as [text ->].
    destruct (show_then_push (id toolCall) (VStr text) false
                (tool_turn (id toolCall) (result_content (VStr text))) st1)
      as (st2 & Hrun & Hq2).
    rewrite Hrun.
    pose proof (quiet_trans _ _ _ Hq Hq2) as [Hc (evs & He & Htr)].
    exists text. eexists. exists ([EvToolCall toolCall params] ++ evs ++ [EvAppend (tool_turn (id toolCall) (Some text))])%list.
    split; [reflexivity|].
    cbn [push_turn add_event set_conversation conversation events result_content].
    rewrite Hc, He. unfold st0. cbn [add_event conversation events].
    split; [reflexivity|]. split.
    { rewrite <- !List.app_assoc. reflexivity. }
    split; [|left; reflexivity].
    rewrite !tool_trace_app, Htr. reflexivity.
  - destruct (show_then_push (id toolCall)
                (VStr ("Tool execution failed: " ++ message e)) true
                (tool_turn (id toolCall) (Some ("Tool execution failed: " ++ message e))) st1)
      as (st2 & Hrun & Hq2).
    rewrite Hrun.
    pose proof (quiet_trans _ _ _ Hq Hq2) as [Hc (evs & He & Htr)].
    exists ("Tool execution failed: " ++ message e). eexists.
    exists ([EvToolCall toolCall params] ++ evs
            ++ [EvAppend (tool_turn (id toolCall)
                            (Some ("Tool execution failed: " ++ message e)%string))])%list.
    split; [reflexivity|].
    cbn [push_turn add_event set_conversation conversation events].
    rewrite Hc, He. unfold st0. cbn [add_event conversation events].
    split; [reflexivity|]. split.
    { rewrite <- !List.app_assoc. reflexivity. }
    split; [|right; exists e; split; reflexivity].
    rewrite !tool_trace_app, Htr. reflexivity.
Qed.

(** A batch whose calls can all be drawn is answered call by call: one
    tool turn per call, in the order of the calls, each call started only
    after the previous call's turn was appended. *)
Lemma tool_batch_answered_in_order (calls : list ToolCall) (st : Agent) :
  Forall displayable calls ->
  exists st' turns evs,
    for_of calls (handleToolCall js_eval) st = (Return tt, st')
    /\ conversation st' = (conversation st ++ turns)%list
    /\ map tool_call_id turns = map (fun tc => Some (id tc)) calls
    /\ Forall (fun t => role t = tool) turns
    /\ events st' = (events st ++ evs)%list
    /\ tool_trace evs
       = flat_map (fun tc => [Started (id tc); Appended tool (Some (id tc))]) calls.
Proof.
  intro Hall. revert st.
  induction Hall as [|tc calls [params Hp] _ IH]; intro st.
  - exists st, [], []. cbn [for_of ret].
    repeat split; try reflexivity; try constructor;
      symmetry; apply List.app_nil_r.
  - destruct (handleToolCall_answers tc params st Hp)
      as (text & st1 & evs1 & Hrun & Hc1 & He1 & Ht1 & _).
    destruct (IH st1) as (st2 & turns & evs2 & Hrun2 & Hc2 & Hids & Hroles & He2 & Ht2).
    exists st2, (tool_turn (id tc) (Some text) :: turns), (evs1 ++ evs2)%list.
    cbn [for_of]. unfold bind at 1. rewrite Hrun.
    split; [exact Hrun2|].
    split. { rewrite Hc2, Hc1, <- List.app_assoc. reflexivity. }
    split. { cbn [map tool_turn tool_call_id]. rewrite Hids. reflexivity. }
    split. { constructor; [reflexivity | exact Hroles]. }
    split. { rewrite He2, He1, <- List.app_assoc. reflexivity. }
    rewrite tool_trace_app, Ht1, Ht2. reflexivity.
Qed.


(** After a batch that could be drawn, the loop goes on to the next model
    call with the answered conversation. *)
Lemma agentLoop_continues_after_batch
      (settled : FetchOutcome) (later : list FetchOutcome)
      (st st1 : Agent) (response : Message) (tc : ToolCall) (calls : list ToolCall) :
  callLLM settled (conversation st) initializeTools st = (Return response, st1) ->
  requested_calls response = tc :: calls ->
  Forall displayable (tc :: calls) ->
  exists st2 turns,
    agentLoop_while js_eval (settled :: later) st = agentLoop_while js_eval later st2
    /\ conversation st2
       = (conversation st
          ++ assistant_turn (message_content response) (message_tool_calls response)
          :: turns)%list
    /\ map tool_call_id turns = map (fun c => Some (id c)) (tc :: calls)
    /\ Forall (fun t => role t = tool) turns.
Proof.
  intros Hcall Hcalls Hall.
  destruct (callLLM_returns _ _ _ _ Hcall) as (cfg & Hcfg & Hst1).
  cbn [agentLoop_while]. unfold bind at 1. rewrite Hcall.
  unfold after_response. rewrite Hcalls.
  assert (Hshow :
    exists st1',
      (match message_content response with
       | Some text => if truthy_string text then addMessage "agent" text else ret tt
       | None => ret tt
       end) st1 = (Return tt, st1')
      /\ conversation st1' = conversation st1).
  { destruct (message_content response) as [text|];
      [destruct (truthy_string text)|]; eexists; split; reflexivity. }
  destruct Hshow as (st1' & Hrun & Hconv).
  unfold bind at 1. rewrite Hrun.
  destruct (tool_batch_answered_in_order (tc :: calls) st1' Hall)
    as (st2 & turns & evs & Hbatch & Hc2 & Hids & Hroles & _).
  unfold bind at 1. rewrite Hbatch. unfold ret.
  exists st2, turns. split; [reflexivity|].
  split; [|split; assumption].
  rewrite Hc2, Hconv, Hst1.
  cbn [add_event push_turn set_conversation conversation request_sent].
  rewrite <- List.app_assoc. reflexivity.
Qed.

(** *** Search and pipe handlers *)

Lemma convertible_undefined : convertible VUndefined.
Proof. exists "undefined". reflexivity. Qed.

Lemma convertible_text (s : string) : convertible (VStr s).
Proof. exists s. reflexivity. Qed.

Lemma searchWeb_succeeds (args : jsval) (st : Agent) :
  destructure args "query" = Return (Get args "query") ->
  convertible (Get args "query") ->
  exists text, fst (searchWeb args st) = Return (VStr text).
Proof.
  intros Hd [q Hq]. unfold searchWeb, bind, lift, delay, emit, modify, ret.
  rewrite Hd, Hq. eexists. reflexivity.
Qed.

Lemma aiPipe_succeeds (args : jsval) (st : Agent) :
  destructure args "workflow" = Return (Get args "workflow") ->
  destructure args "data" = Return (Get args "data") ->
  convertible (Get args "workflow") ->
  convertible (Get args "data") ->
  exists text, fst (aiPipe args st) = Return (VStr text).
Proof.
  intros Hw Hd [w Hcw] [d Hcd]. unfold aiPipe, bind, lift, delay, emit, modify, ret.
  rewrite Hw, Hd, Hcw.
  assert (Hshown : exists t,
    ToString (if truthy match Get args "data" with
                       | VUndefined => VStr EmptyString
                       | _ => Get args "data"
                       end
              then match Get args "data" with
                   | VUndefined => VStr EmptyString
                   | _ => Get args "data"
                   end
              else VStr "None provided") = Return t).
  { destruct (Get args "data") eqn:E; cbn [truthy];
      try (eexists; reflexivity);
      try match goal with
          | |- context [if ?b then _ else _] => destruct b
          end;
      try (eexists; reflexivity); exists d; exact Hcd. }
  destruct Hshown as [t ->]. eexists. reflexivity.
Qed.

(** C10 (amended). On an argument object whose [query], [workflow] and
    [data] fields are each absent or convertible to text (strings, numbers,
    booleans, null, arrays of such), [searchWeb] and [aiPipe] return a text
    payload and do not raise. *)
Theorem search_and_pipe_succeed_on_convertible_fields
        (props : list (string * jsval)) (st : Agent) :
  convertible (Get (VObj props) "query") ->
  convertible (Get (VObj props) "workflow") ->
  convertible (Get (VObj props) "data") ->
  (exists text, fst (searchWeb (VObj props) st) = Return (VStr text))
  /\ (exists text, fst (aiPipe (VObj props) st) = Return (VStr text)).
Proof.
  intros Hq Hw Hd. split.
  - apply searchWeb_succeeds; [reflexivity | exact Hq].
  - apply aiPipe_succeeds; try reflexivity; assumption.
Qed.

Lemma sequence_map_In A B (f : A -> Completion B) (xs : list A) (ys : list B) (x : A) :
  sequence (map f xs) = Return ys -> In x xs -> exists y, f x = Return y.
Proof.
  revert ys. induction xs as [|a xs IH]; intros ys Hs Hin; [contradiction|].
  cbn [map sequence] in Hs. unfold cbind in Hs.
  destruct (f a) as [b|e] eqn:Ha; [|discriminate].
  destruct (sequence (map f xs)) as [bs|e] eqn:Hrest; [|discriminate].
  destruct Hin as [<-|Hin].
  - exists b. exact Ha.
  - apply (IH bs eq_refl Hin).
Qed.

Lemma lookup_In (k : string) (props : list (string * jsval)) (x : jsval) :
  lookup k props = Some x -> In (k, x) props.
Proof.
  induction props as [|[k' v] props IH]; cbn [lookup]; [discriminate|].
  destruct (String.eqb k k') eqn:E.
  - intro H. injection H as ->. apply String.eqb_eq in E. subst. left. reflexivity.
  - intro H. right. apply IH, H.
Qed.

Lemma render_param_convertible (k shown : string) (x : jsval) :
  render_param (k, x) = Return shown -> convertible x.
Proof.
  unfold render_param, cbind.
  destruct x; try (intros _; eexists; reflexivity).
  - destruct (ToString (VArr items)) as [t|e] eqn:E; [|discriminate].
    intros _. exists t. exact E.
  - destruct (ToString (VObj props)) as [t|e] eqn:E; [|discriminate].
    intros _. exists t. exact E.
Qed.

(** A call that could be drawn was parsed into a value that is neither
    null nor undefined and whose fields all convert to text. *)
Lemma drawn_arguments (toolCall : ToolCall) (params : string) :
  tool_call_params toolCall = Return params ->
  exists v,
    JSON.parse (arguments (function toolCall)) = Return v
    /\ (forall k, destructure v k = Return (Get v k))
    /\ (forall k, convertible (Get v k)).
Proof.
  unfold tool_call_params, cbind.
  destruct (JSON.parse (arguments (function toolCall))) as [v|e]; [|discriminate].
  destruct (Object_entries v) as [entries|e] eqn:He; [|discriminate].
  destruct (sequence (map render_param entries)) as [ps|e] eqn:Hs; [|discriminate].
  intros _. exists v. split; [reflexivity|]. split.
  - intro k. destruct v; try reflexivity; discriminate.
  - intro k. destruct v; try apply convertible_undefined.
    cbn [Object_entries] in He. injection He as <-.
    cbn [Get]. destruct (lookup k props) as [x|] eqn:Hl; [|apply convertible_undefined].
    destruct (sequence_map_In _ _ _ _ _ (k, x) Hs (lookup_In _ _ _ Hl)) as [y Hy].
    apply (render_param_convertible _ _ _ Hy).
Qed.

(** Inside the executor the two handlers cannot fail: whenever
    [handleToolCall] gets as far as its [try] block for [search_web] or
    [ai_pipe], the handler returns its text and the [catch] branch is not
    taken. *)
Lemma search_and_pipe_never_reach_catch (toolCall : ToolCall) (params : string) (st : Agent) :
  tool_call_params toolCall = Return params ->
  name (function toolCall) = "search_web" \/ name (function toolCall) = "ai_pipe" ->
  exists text,
    fst (dispatch js_eval (name (function toolCall)) (arguments (function toolCall)) st)
    = Return (VStr text).
Proof.
  intros Hp Hname.
  destruct (drawn_arguments _ _ Hp) as (v & Hparse & Hdes & Hconv).
  unfold dispatch. destruct Hname as [-> | ->]; cbn [String.eqb Ascii.eqb Bool.eqb];
    unfold bind at 1, lift; rewrite Hparse.
  - apply searchWeb_succeeds; [apply Hdes | apply Hconv].
  - apply aiPipe_succeeds; try apply Hdes; apply Hconv.
Qed.

(** *** Serialization of handler results *)


End Properties.

(* ================================================================== *)
(** ** Worked examples *)
(* ================================================================== *)

(** C1 (defect). A tool call whose arguments are not JSON text makes
    [showToolCall] raise before the [try] block of [handleToolCall] is
    entered: the exception leaves [handleToolCall], no tool turn is
    appended, and the loop ends in [Failed] without asking the model
    again. *)
Theorem unparseable_arguments_escape_handleToolCall :
  let error := mkError SyntaxError "Unexpected token in JSON" in
  let run := handleUserMessage Demo.js_eval
               [Demo.answer None (Some [Demo.bad_call]); Demo.answer (Some "done") None]
               (Demo.ready "hi") in
  (forall js_eval st, handleToolCall js_eval Demo.bad_call st = (Throw error, st))
  /\ fst (fst run) = Some (Failed error)
  /\ conversation (snd (fst run))
     = [user_turn "hi"; assistant_turn None (Some [Demo.bad_call])]
  /\ snd run = [Demo.answer (Some "done") None].
Proof.
  cbv zeta. split.
  - intros js_eval st. apply handleToolCall_raises_undrawn. reflexivity.
  - vm_compute. repeat split.
Qed.

(** C2 (defect). An assistant turn carries two tool calls, the first with
    arguments that are not JSON text: the batch is abandoned with no tool
    turn appended, and the next request to the model, made for the next
    user turn, carries the assistant turn with both calls unanswered. *)
Theorem unanswered_tool_calls_reach_next_model_call :
  let requested := assistant_turn None (Some [Demo.bad_call; Demo.good_call]) in
  let first := handleUserMessage Demo.js_eval
                 [Demo.answer None (Some [Demo.bad_call; Demo.good_call])]
                 (Demo.ready "hi") in
  let after_first := snd (fst first) in
  let second := handleUserMessage Demo.js_eval []
                  (set_messageInput_value "again" after_first) in
  conversation after_first = [user_turn "hi"; requested]
  /\ isProcessing after_first = false
  /\ fst (fst second) = Some AwaitingModel
  /\ last_request (events (snd (fst second)))
     = Some [user_turn "hi"; requested; user_turn "again"].
Proof. vm_compute. repeat split. Qed.

(** The model asks for one tool and then answers: two model calls, one
    tool execution, and a conversation of user, assistant, tool and
    assistant turns. *)
Example loop_continues_after_tool_call :
  let run := handleUserMessage Demo.js_eval
               [Demo.answer None (Some [Demo.good_call]); Demo.answer (Some "done") None]
               (Demo.ready "hi") in
  fst (fst run) = Some AwaitingUser
  /\ map role (conversation (snd (fst run))) = [user; assistant; tool; assistant]
  /\ map tool_call_id (conversation (snd (fst run))) = [None; None; Some "call_2"; None]
  /\ model_calls (events (snd (fst run))) = 2
  /\ tool_executions (events (snd (fst run))) = 1
  /\ snd run = [].
Proof. vm_compute. repeat split. Qed.

(** A tool name that is not registered is answered by a failure turn, and
    the loop goes on to the next model call. *)
Example unknown_tool_is_answered :
  let stray := Demo.call "call_3" "does_not_exist" (Demo.field "q" "x") in
  let run := handleUserMessage Demo.js_eval
               [Demo.answer None (Some [stray]); Demo.answer (Some "done") None]
               (Demo.ready "hi") in
  fst (fst run) = Some AwaitingUser
  /\ nth_error (conversation (snd (fst run))) 2
     = Some (tool_turn "call_3"
               (Some "Tool execution failed: Unknown tool: does_not_exist"))
  /\ model_calls (events (snd (fst run))) = 2.
Proof. vm_compute. repeat split. Qed.

(** Evaluated code that throws is answered by a failure turn carrying the
    fault's message. *)
Example evaluation_fault_is_answered :
  let faulty := Demo.call "call_4" "execute_js" (Demo.field "code" "throw new Error('boom')") in
  let run := handleToolCall Demo.js_eval faulty (Demo.ready "hi") in
  fst run = Return tt
  /\ conversation (snd run)
     = [tool_turn "call_4"
          (Some "Tool execution failed: JavaScript execution error: boom")]
  /\ console_log (snd run) = NativeLog.
Proof. vm_compute. repeat split. Qed.

(** A submission made while the first loop waits for the model starts no
    second loop; once the answer arrives the first loop completes. *)
Example submission_during_loop_is_dropped :
  let s := run_session Demo.js_eval
             [Submit "hi"; Submit "again"; Settle (Demo.answer (Some "hello") None)]
             (mkSession (Demo.ready EmptyString) 0) in
  in_flight s = 0
  /\ conversation (agent s) = [user_turn "hi"; assistant_turn (Some "hello") None]
  /\ isProcessing (agent s) = false
  /\ model_calls (events (agent s)) = 1.
Proof. vm_compute. repeat split. Qed.

(** C6 (counterexample). Code that freezes [console] leaves the handler
    unable to put [console.log] back: both of its assignments raise, the
    exception of the second leaves [executeJS], and [console.log] is still
    the capturing function. *)
Theorem executeJS_cannot_restore_frozen_console :
  console_log new_agent = NativeLog
  /\ fst (executeJS Demo.direct_eval
            (VObj [("code", VStr "Object.freeze(console)")]) new_agent)
     = Throw (mkError TypeError
                "Cannot assign to read only property 'log' of object '#<console>'")
  /\ console_log
       (snd (executeJS Demo.direct_eval
               (VObj [("code", VStr "Object.freeze(console)")]) new_agent))
     = CaptureLog NativeLog.
Proof. repeat split. Qed.

(** The restore is also undone when the result is an object whose
    [toJSON] replaces [console.log]: the method runs after the handler has
    put [console.log] back, while the result is turned into text. *)
Example executeJS_restore_undone_by_conversion :
  executeJS Demo.direct_eval
    (VObj [("code", VStr "({ toJSON() { console.log = () => {}; return 1 } })")])
    new_agent
  = (Return (VStr ("Return Value:" ++ nl ++ "1")),
     set_console_log (OtherLog 2) new_agent).
Proof. reflexivity. Qed.



(** C10 (counterexample). [searchWeb] raises on an argument object whose
    [query] is an object with its own [toString] property: the template
    literal converts the object through that property, which is not
    callable, and the conversion ends in a TypeError. *)
Lemma searchWeb_raises_on_own_toString :
  fst (searchWeb Demo.odd_query new_agent)
  = Throw (mkError TypeError "Cannot convert object to primitive value").
Proof. reflexivity. Qed.

Lemma agentLoop_single_call_without_tool_calls_witness :
  exists st',
    agentLoop Demo.js_eval [Demo.answer (Some "hello") None] (Demo.ready "hi")
    = (AwaitingUser, st', [])
    /\ conversation st' = [assistant_turn (Some "hello") None]
    /\ model_calls (events st') = 1
    /\ tool_executions (events st') = 0
    /\ isProcessing st' = false.
Proof.
  eapply (agentLoop_single_call_without_tool_calls Demo.js_eval
            (Demo.answer (Some "hello") None) [] (Demo.ready "hi") _
            (mkMessage (Some "hello") None)); reflexivity.
Defined.

Lemma model_error_keeps_conversation_witness :
  transport_error Demo.service_unavailable || protocol_error Demo.service_unavailable = true
  /\ exists e st1 st' evs,
       callLLM Demo.service_unavailable [user_turn "hi"] initializeTools (Demo.busy "more")
       = (Throw e, st1)
       /\ conversation st1 = [user_turn "hi"]
       /\ agentLoop Demo.js_eval [Demo.service_unavailable] (Demo.busy "more")
          = (Failed e, st', [])
       /\ conversation st' = [user_turn "hi"]
       /\ events st'
          = ([] ++ evs
             ++ [EvAlert ("Agent error: " ++ message e) "danger";
                 EvMessage "system" ("Error: " ++ message e)])%list
       /\ filter is_append evs = []
       /\ isProcessing st' = false.
Proof.
  split; [reflexivity|].
  apply (model_error_keeps_conversation Demo.js_eval Demo.service_unavailable []
           (Demo.busy "more")).
  reflexivity.
Defined.

Lemma handleUserMessage_rejected_while_busy_witness :
  isProcessing (Demo.busy "more") = true
  /\ handleUserMessage Demo.js_eval [Demo.answer (Some "hello") None] (Demo.busy "more")
     = (None, Demo.busy "more", [Demo.answer (Some "hello") None]).
Proof.
  split; [reflexivity|].
  apply handleUserMessage_rejected_while_busy. reflexivity.
Defined.

Lemma executeJS_restores_console_log_witness :
  console_log
    (snd (executeJS Demo.js_eval
            (VObj [("code", VStr "console.log = () => {}; throw null")])
            (Demo.ready "hi")))
  = NativeLog.
Proof.
  apply (executeJS_restores_console_log Demo.js_eval
           (VObj [("code", VStr "console.log = () => {}; throw null")]) (Demo.ready "hi")).
  intros code Hcode. injection Hcode as <-. split; reflexivity.
Defined.



Lemma search_and_pipe_succeed_on_convertible_fields_witness :
  (exists text, fst (searchWeb (VObj [("query", VStr "rocq")]) new_agent) = Return (VStr text))
  /\ (exists text, fst (aiPipe (VObj [("query", VStr "rocq")]) new_agent) = Return (VStr text)).
Proof.
  apply (search_and_pipe_succeed_on_convertible_fields [("query", VStr "rocq")] new_agent).
  - exists "rocq". reflexivity.
  - exists "undefined". reflexivity.
  - exists "undefined". reflexivity.
Defined.

(* ================================================================== *)
(** ** Further properties of the tool executor *)
(* ================================================================== *)

Section Executor.

Variable js_eval : string -> EvalOutcome.

(** X1. A tool call that [showToolCall] draws without raising is answered
    once: [handleToolCall] returns normally, the conversation grows by
    exactly one tool turn that carries the call's id, and neither the busy
    flag nor the configuration is touched.  For [execute_js] this rests on
    what [js_eval] stands for: evaluated code that acts on the agent only
    through [console] and its completion. *)
Theorem drawable_call_is_answered_once (toolCall : ToolCall) (st : Agent) :
  displayable toolCall ->
  exists text st',
    handleToolCall js_eval toolCall st = (Return tt, st')
    /\ conversation st'
       = (conversation st ++ [mkTurn tool (Some text) None (Some (id toolCall))])%list
    /\ isProcessing st' = isProcessing st
    /\ llmConfig st' = llmConfig st.
Proof.
  intros [params Hp].
  destruct (handleToolCall_answers js_eval toolCall params st Hp)
    as (text & st' & evs & Hrun & Hconv & _).
  pose proof (evolves_handleToolCall js_eval toolCall st) as Hev.
  rewrite Hrun in Hev. cbn [snd] in Hev.
  exists text, st'. split; [exact Hrun|]. split; [exact Hconv|].
  split; [apply (evolves_busy _ _ Hev) | apply (evolves_config _ _ Hev)].
Qed.

(** X2. The tool calls of one assistant turn, when all can be drawn, are run
    one after the other: in the log every call is started and then
    answered before the next one is started, and the conversation receives
    one tool turn per call in the order of the calls. *)
Theorem drawable_batch_runs_in_sequence (calls : list ToolCall) (st : Agent) :
  Forall displayable calls ->
  exists st' turns evs,
    for_of calls (handleToolCall js_eval) st = (Return tt, st')
    /\ conversation st' = (conversation st ++ turns)%list
    /\ length turns = length calls
    /\ map tool_call_id turns = map (fun tc => Some (id tc)) calls
    /\ events st' = (events st ++ evs)%list
    /\ tool_trace evs
       = flat_map (fun tc => [Started (id tc); Appended tool (Some (id tc))]) calls.
Proof.
  intro Hall.
  destruct (tool_batch_answered_in_order js_eval calls st Hall)
    as (st' & turns & evs & Hrun & Hconv & Hids & _ & Hevs & Htrace).
  exists st', turns, evs. repeat split; try assumption.
  rewrite <- (length_map tool_call_id turns), Hids. apply length_map.
Qed.

(** X3. Whatever arguments the model sends to [search_web] or [ai_pipe], once
    the call could be drawn the handler's text is what the tool turn
    holds: the failure branch of [handleToolCall] is never taken for
    these two tools. *)
Theorem search_and_pipe_calls_never_fail (toolCall : ToolCall) (st : Agent) :
  displayable toolCall ->
  name (function toolCall) = "search_web" \/ name (function toolCall) = "ai_pipe" ->
  exists text st' params,
    handleToolCall js_eval toolCall st = (Return tt, st')
    /\ conversation st' = (conversation st ++ [tool_turn (id toolCall) (Some text)])%list
    /\ fst (dispatch js_eval (name (function toolCall)) (arguments (function toolCall))
                     (add_event (EvToolCall toolCall params) st))
       = Return (VStr text).
Proof.
  intros [params Hp] Hname.
  destruct (handleToolCall_answers js_eval toolCall params st Hp)
    as (text & st' & evs & Hrun & Hconv & _ & _ & Hwhich).
  destruct (search_and_pipe_never_reach_catch js_eval toolCall params
              (add_event (EvToolCall toolCall params) st) Hp Hname) as [text' Hok].
  exists text, st', params. split; [exact Hrun|]. split; [exact Hconv|].
  destruct Hwhich as [Hsame | (e & Hthrow & _)]; [exact Hsame|].
  rewrite Hok in Hthrow. discriminate.
Qed.

(** X4. A tool name outside the registry is refused without looking at the
    arguments, and the call is answered by the failure turn that names the
    tool. *)
Theorem unregistered_tool_is_refused (toolCall : ToolCall) (st : Agent) :
  ~ In (name (function toolCall)) (map tool_name initializeTools) ->
  (forall args st0,
      dispatch js_eval (name (function toolCall)) args st0
      = (Throw (mkError Error ("Unknown tool: " ++ name (function toolCall))), st0))
  /\ (displayable toolCall ->
      exists st',
        handleToolCall js_eval toolCall st = (Return tt, st')
        /\ conversation st'
           = (conversation st
              ++ [tool_turn (id toolCall)
                    (Some ("Tool execution failed: Unknown tool: "
                             ++ name (function toolCall))%string)])%list).
Proof.
  intro Hout.
  assert (Hdispatch : forall args st0,
             dispatch js_eval (name (function toolCall)) args st0
             = (Throw (mkError Error ("Unknown tool: " ++ name (function toolCall))), st0)).
  { intros args st0. unfold dispatch.
    destruct (String.eqb_spec (name (function toolCall)) "search_web") as [E|_];
      [exfalso; apply Hout; rewrite E; cbn; auto|].
    destruct (String.eqb_spec (name (function toolCall)) "ai_pipe") as [E|_];
      [exfalso; apply Hout; rewrite E; cbn; auto|].
    destruct (String.eqb_spec (name (function toolCall)) "execute_js") as [E|_];
      [exfalso; apply Hout; rewrite E; cbn; auto|].
    reflexivity. }
  split; [exact Hdispatch|].
  intros [params Hp].
  destruct (handleToolCall_answers js_eval toolCall params st Hp)
    as (text & st' & evs & Hrun & Hconv & _ & _ & Hwhich).
  rewrite Hdispatch in Hwhich. cbn [fst] in Hwhich.
  destruct Hwhich as [Hbad | (e & He & ->)]; [discriminate|].
  injection He as <-. exists st'. split; [exact Hrun | exact Hconv].
Qed.


End Executor.

(* ================================================================== *)
(** ** Further properties of the loop *)
(* ================================================================== *)

Lemma offline_refl (st : Agent) : offline st st.
Proof. exists []. split; [symmetry; apply List.app_nil_r | reflexivity]. Qed.

Lemma offline_trans (a b c : Agent) : offline a b -> offline b c -> offline a c.
Proof.
  intros (e1 & E1 & N1) (e2 & E2 & N2). exists (e1 ++ e2)%list. split.
  - rewrite E2, E1. symmetry. apply List.app_assoc.
  - unfold model_calls in *. rewrite filter_app, length_app, N1, N2. reflexivity.
Qed.

Lemma offline_emit (e : Event) : is_fetch e = false -> respects offline (emit e).
Proof.
  intros He st. exists [e]. split; [reflexivity|].
  unfold model_calls. cbn [filter]. rewrite He. reflexivity.
Qed.

Lemma offline_push (t : Turn) : respects offline (modify (push_turn t)).
Proof. intro st. exists [EvAppend t]. split; reflexivity. Qed.

Lemma offline_set_log (f : LogFn) : respects offline (modify (set_console_log f)).
Proof.
  intro st. exists []. split; [symmetry; apply List.app_nil_r | reflexivity].
Qed.

Lemma replies_refl (st : Agent) : replies st st.
Proof.
  split; [|reflexivity]. exists []. split; [symmetry; apply List.app_nil_r | constructor].
Qed.

Lemma replies_trans (a b c : Agent) : replies a b -> replies b c -> replies a c.
Proof.
  intros [(t1 & T1 & F1) I1] [(t2 & T2 & F2) I2]. split; [|congruence].
  exists (t1 ++ t2)%list. split.
  - rewrite T2, T1. symmetry. apply List.app_assoc.
  - apply Forall_app. split; assumption.
Qed.

Lemma replies_emit (e : Event) : respects replies (emit e).
Proof.
  intro st. split; [|reflexivity].
  exists []. split; [symmetry; apply List.app_nil_r | constructor].
Qed.

Lemma replies_push (t : Turn) : role t <> user -> respects replies (modify (push_turn t)).
Proof.
  intros Ht st. split; [|reflexivity].
  exists [t]. split; [reflexivity | repeat constructor; exact Ht].
Qed.

Lemma replies_push_tool (call_id : string) (text : option string) :
  respects replies (modify (push_turn (tool_turn call_id text))).
Proof. apply replies_push. discriminate. Qed.

Lemma replies_push_assistant (text : option string) (calls : option (list ToolCall)) :
  respects replies (modify (push_turn (assistant_turn text calls))).
Proof. apply replies_push. discriminate. Qed.

Lemma replies_set_log (f : LogFn) : respects replies (modify (set_console_log f)).
Proof.
  intro st. split; [|reflexivity].
  exists []. split; [symmetry; apply List.app_nil_r | constructor].
Qed.

#[local] Hint Resolve offline_refl offline_trans offline_emit offline_push offline_set_log
  replies_refl replies_trans replies_emit replies_push_tool replies_push_assistant
  replies_set_log : agent.

Lemma model_calls_snoc (evs : list Event) (e : Event) :
  model_calls (evs ++ [e]) = model_calls evs + (if is_fetch e then 1 else 0).
Proof.
  unfold model_calls. rewrite filter_app, length_app. cbn [filter].
  destruct (is_fetch e); reflexivity.
Qed.

Lemma callLLM_send_configured
      (cfg : LLMConfig) (messages : list Turn) (st : Agent) :
  llmConfig st = Some cfg ->
  callLLM_send messages initializeTools st
  = (Return tt, add_event (request_for cfg messages) (add_event (EvLoading true) st)).
Proof.
  intro Hcfg. unfold callLLM_send, showLoadingIndicator, emit, modify, bind, gets.
  cbn [add_event llmConfig]. rewrite Hcfg. reflexivity.
Qed.

Section Loop.

Variable js_eval : string -> EvalOutcome.

(** Ways through [handleToolCall] and [after_response] for an invariant
    that holds of every page update and of every tool turn pushed. *)
Ltac through_tool_call :=
  unfold after_response, addMessage, handleToolCall, showToolCall, dispatch,
    searchWeb, aiPipe, executeJS, showToolResult, delay;
  respects_tac.

Lemma offline_after_response (response : Message) :
  respects offline (after_response js_eval response).
Proof. through_tool_call. Qed.

Lemma replies_after_response (response : Message) :
  respects replies (after_response js_eval response).
Proof. through_tool_call. Qed.

Lemma replies_callLLM_send (messages : list Turn) (tools : list ToolSpec) :
  respects replies (callLLM_send messages tools).
Proof. unfold callLLM_send, showLoadingIndicator. respects_tac. Qed.

Lemma replies_callLLM_receive (settled : FetchOutcome) :
  respects replies (callLLM_receive settled).
Proof. unfold callLLM_receive, hideLoadingIndicator. respects_tac. Qed.

(** *** Leaving the loop *)

Lemma agentLoop_exit_frame (left : LoopExit) (st1 : Agent) (rest : list FetchOutcome) :
  exists state st',
    agentLoop_exit (left, st1, rest) = (state, st', rest)
    /\ conversation st' = conversation st1
    /\ messageInput_value st' = messageInput_value st1
    /\ llmConfig st' = llmConfig st1
    /\ offline st1 st'
    /\ match left with
       | Parked => state = AwaitingModel /\ st' = st1
       | _ =>
           state <> AwaitingModel
           /\ isProcessing st' = false
           /\ messageInput_disabled st' = false
           /\ sendBtn_disabled st' = false
       end.
Proof.
  destruct left as [| e |]; eexists; eexists; (split; [reflexivity|]);
    cbn; (do 3 (split; [reflexivity|])); (split; [|repeat split; discriminate]).
  - exists []. split; [symmetry; apply List.app_nil_r | reflexivity].
  - eexists. split; [rewrite <- List.app_assoc; reflexivity | reflexivity].
  - apply offline_refl.
Qed.

Section LoopInvariance.

Variable R : Agent -> Agent -> Prop.
Hypothesis R_refl : forall st, R st st.
Hypothesis R_trans : forall a b c, R a b -> R b c -> R a c.
Hypothesis R_send : forall messages tools, respects R (callLLM_send messages tools).
Hypothesis R_receive : forall settled, respects R (callLLM_receive settled).
Hypothesis R_after : forall response, respects R (after_response js_eval response).

Lemma respects_agentLoop_while (network : list FetchOutcome) (st : Agent) :
  R st (snd (fst (agentLoop_while js_eval network st))).
Proof.
  revert st. induction network as [|settled later IH]; intro st; cbn [agentLoop_while].
  - pose proof (R_send (conversation st) initializeTools st) as H.
    destruct (callLLM_send (conversation st) initializeTools st) as [[u|e] st1]; exact H.
  - assert (H : respects R (bind (callLLM settled (conversation st) initializeTools)
                                 (after_response js_eval))).
    { unfold callLLM. repeat (apply respects_bind; auto). }
    specialize (H st).
    destruct (bind _ _ st) as [[[|]|e] st1]; cbn [fst snd] in *; try exact H.
    eapply R_trans; [exact H | apply IH].
Qed.

End LoopInvariance.

Lemma replies_agentLoop_while (network : list FetchOutcome) (st : Agent) :
  replies st (snd (fst (agentLoop_while js_eval network st))).
Proof.
  apply (respects_agentLoop_while replies replies_trans replies_callLLM_send
           replies_callLLM_receive replies_after_response).
Qed.

Lemma replies_exit (left : LoopExit * Agent * list FetchOutcome) (st : Agent) :
  replies st (snd (fst left)) -> replies st (snd (fst (agentLoop_exit left))).
Proof.
  destruct left as [[left st1] rest]. cbn [fst snd].
  destruct (agentLoop_exit_frame left st1 rest)
    as (state & st' & -> & Hconv & Hinput & _).
  intros [(turns & Hturns & Hroles) Hin]. cbn [fst snd]. split.
  - exists turns. split; [congruence | exact Hroles].
  - congruence.
Qed.

(** X6. The loop is append-only.  Whatever the network answers,
    [agentLoop] leaves the turns it found in place and adds only assistant
    and tool turns after them; it writes nothing into the input box and
    keeps the configuration.  This is a property of the loop's own code:
    evaluated code is taken, as [js_eval] has it, to act on the agent only
    through [console] and its completion, and nothing else to act on the
    agent while the loop runs. *)
Theorem agentLoop_only_appends_replies (network : list FetchOutcome) (st : Agent) :
  exists turns,
    conversation (snd (fst (agentLoop js_eval network st)))
    = (conversation st ++ turns)%list
    /\ Forall (fun t => role t = assistant \/ role t = tool) turns
    /\ messageInput_value (snd (fst (agentLoop js_eval network st)))
       = messageInput_value st
    /\ llmConfig (snd (fst (agentLoop js_eval network st))) = llmConfig st.
Proof.
  unfold agentLoop.
  pose proof (replies_exit _ st (replies_agentLoop_while network st))
    as [(turns & Hturns & Hroles) Hinput].
  exists turns. split; [exact Hturns|]. split; [|split; [exact Hinput|]].
  - eapply Forall_impl; [|exact Hroles].
    intros t Ht. cbv beta in Ht.
    destruct (role t); [exfalso; apply Ht | left | right]; reflexivity.
  - pose proof (evolves_agentLoop_while js_eval network st) as Hev.
    destruct (agentLoop_while js_eval network st) as [[left st1] rest].
    destruct (agentLoop_exit_frame left st1 rest) as (state & st' & -> & _ & _ & Hcfg & _).
    cbn [fst snd] in *. rewrite Hcfg. apply (evolves_config _ _ Hev).
Qed.

(** X7. However the loop ends, by a final answer or by an error raised
    anywhere inside it, the busy flag is cleared and the input and the
    send button are enabled again; while it waits for the model the flag
    is as the loop found it. *)
Theorem agentLoop_end_releases_page (network : list FetchOutcome) (st : Agent) :
  match agentLoop js_eval network st with
  | (AwaitingModel, st', _) => isProcessing st' = isProcessing st
  | (_, st', _) =>
      isProcessing st' = false
      /\ messageInput_disabled st' = false
      /\ sendBtn_disabled st' = false
  end.
Proof.
  unfold agentLoop.
  pose proof (evolves_agentLoop_while js_eval network st) as Hev.
  destruct (agentLoop_while js_eval network st) as [[left st1] rest].
  destruct (agentLoop_exit_frame left st1 rest) as (state & st' & -> & _ & _ & _ & _ & H).
  cbn [fst snd] in Hev.
  destruct left as [| e |].
  - destruct H as (Hstate & H). destruct state; [exact H | exact H | contradiction].
  - destruct H as (Hstate & H). destruct state; [exact H | exact H | contradiction].
  - destruct H as (-> & ->). apply (evolves_busy _ _ Hev).
Qed.

(** *** Requests to the model *)

Lemma offline_model_calls (st st' : Agent) :
  offline st st' -> model_calls (events st') = model_calls (events st).
Proof.
  intros (evs & -> & H). rewrite model_calls_app, H. apply Nat.add_0_r.
Qed.

Lemma agentLoop_while_counts (cfg : LLMConfig) (network : list FetchOutcome) :
  forall st, llmConfig st = Some cfg ->
  exists used,
    network = (used ++ snd (agentLoop_while js_eval network st))%list
    /\ model_calls (events (snd (fst (agentLoop_while js_eval network st))))
       = model_calls (events st) + length used
         + match fst (fst (agentLoop_while js_eval network st)) with
           | Parked => 1
           | _ => 0
           end.
Proof.
  induction network as [|settled later IH]; intros st Hcfg; cbn [agentLoop_while].
  - rewrite (callLLM_send_configured cfg _ st Hcfg). cbn [fst snd].
    exists []. split; [reflexivity|].
    cbn [add_event events]. rewrite !model_calls_snoc. cbn. lia.
  - unfold bind.
    destruct (callLLM settled (conversation st) initializeTools st)
      as [[response|e] st1] eqn:Hcall.
    + destruct (callLLM_returns _ _ _ _ Hcall) as (cfg' & Hcfg' & Hst1).
      assert (Hsent : model_calls (events st1) = S (model_calls (events st))).
      { rewrite Hst1. unfold request_sent, push_turn.
        cbn [add_event set_conversation events].
        rewrite !model_calls_snoc. cbn. lia. }
      pose proof (offline_after_response response st1) as Hoff.
      pose proof (evolves_after_response js_eval response st1) as Hev.
      pose proof (evolves_callLLM settled (conversation st) initializeTools st) as Hev0.
      rewrite Hcall in Hev0. cbn [snd] in Hev0.
      destruct (after_response js_eval response st1) as [[[|]|e] st2];
        cbn [fst snd] in *.
      * assert (Hcfg2 : llmConfig st2 = Some cfg).
        { rewrite (evolves_config _ _ Hev), (evolves_config _ _ Hev0). exact Hcfg. }
        destruct (IH st2 Hcfg2) as (used & Hused & Hcount).
        exists (settled :: used). split.
        -- cbn [app]. f_equal. exact Hused.
        -- rewrite Hcount, (offline_model_calls _ _ Hoff), Hsent. cbn [length]. lia.
      * exists [settled]. split; [reflexivity|].
        rewrite (offline_model_calls _ _ Hoff), Hsent. cbn [length]. lia.
      * exists [settled]. split; [reflexivity|].
        rewrite (offline_model_calls _ _ Hoff), Hsent. cbn [length]. lia.
    + cbn [fst snd]. exists [settled]. split; [reflexivity|].
      destruct (callLLM_throws _ _ _ _ Hcall) as [Hst1 | (cfg' & Hcfg' & Hst1)].
      * exfalso. revert Hcall. unfold callLLM, bind.
        rewrite (callLLM_send_configured cfg _ st Hcfg).
        intro Hcall.
        assert (Hrec : respects evolves (callLLM_receive settled)).
        { unfold callLLM_receive, hideLoadingIndicator. respects_tac. }
        specialize (Hrec (add_event (request_for cfg (conversation st))
                                    (add_event (EvLoading true) st))).
        rewrite Hcall in Hrec. cbn [snd] in Hrec.
        destruct (evolves_events _ _ Hrec) as (evs & Hevs).
        rewrite Hst1 in Hevs. cbn [add_event events] in Hevs.
        rewrite <- !List.app_assoc in Hevs.
        apply app_inv_head in Hevs. destruct evs; discriminate.
      * rewrite Hst1. unfold request_sent. cbn [add_event events].
        rewrite !model_calls_snoc. cbn. lia.
Qed.

(** X8. With a configuration in place the loop sends one request per answer
    it consumes, and one more when it is left waiting: no tool and no page
    update ever reaches the model, and no answer is read twice or
    skipped. *)
Theorem agentLoop_one_request_per_answer
        (cfg : LLMConfig) (network rest : list FetchOutcome)
        (st st' : Agent) (state : LoopState) :
  llmConfig st = Some cfg ->
  agentLoop js_eval network st = (state, st', rest) ->
  exists used,
    network = (used ++ rest)%list
    /\ model_calls (events st')
       = model_calls (events st) + length used
         + match state with AwaitingModel => 1 | _ => 0 end.
Proof.
  intros Hcfg. unfold agentLoop.
  destruct (agentLoop_while_counts cfg network st Hcfg) as (used & Hused & Hcount).
  destruct (agentLoop_while js_eval network st) as [[left st1] rest1].
  destruct (agentLoop_exit_frame left st1 rest1)
    as (state' & st2 & -> & _ & _ & _ & Hoff & Hleft).
  intro H. injection H as <- <- <-.
  cbn [fst snd] in *. exists used. split; [exact Hused|].
  rewrite (offline_model_calls _ _ Hoff), Hcount.
  destruct left as [| e |]; destruct Hleft as [Hs _];
    destruct state'; try reflexivity; try discriminate; contradiction.
Qed.

Lemma callLLM_receive_message
      (r : Response) (data : ChatCompletion) (choice : Choice) (others : list Choice)
      (response : Message) (st : Agent) :
  ok r = true ->
  json r = Return data ->
  choices data = Some (choice :: others) ->
  choice_message choice = Some response ->
  callLLM_receive (FetchResolved r) st
  = (Return response,
     add_event (EvLoading false)
       (push_turn (assistant_turn (message_content response) (message_tool_calls response))
                  st)).
Proof.
  intros Hok Hjson Hchoices Hmsg.
  unfold callLLM_receive, bind, lift, first_message, hideLoadingIndicator, emit, modify, ret.
  rewrite Hok, Hjson, Hchoices, Hmsg. reflexivity.
Qed.

Lemma callLLM_receive_answers (settled : FetchOutcome) (st : Agent) :
  transport_error settled || protocol_error settled = false ->
  exists response,
    callLLM_receive settled st
    = (Return response,
       add_event (EvLoading false)
         (push_turn (assistant_turn (message_content response) (message_tool_calls response))
                    st)).
Proof.
  destruct settled as [e|r]; cbn [transport_error protocol_error orb]; [discriminate|].
  destruct (ok r) eqn:Hok; cbn [negb orb andb]; [|discriminate].
  destruct (json r) as [data|e] eqn:Hjson; [|discriminate].
  destruct (choices data) as [[|choice others]|] eqn:Hchoices; try discriminate.
  destruct (choice_message choice) as [response|] eqn:Hmsg; [|discriminate].
  intros _. exists response. eapply callLLM_receive_message; eassumption.
Qed.

Lemma evolves_callLLM_receive (settled : FetchOutcome) :
  respects evolves (callLLM_receive settled).
Proof. unfold callLLM_receive, hideLoadingIndicator. respects_tac. Qed.

(** The first thing the loop does is to send the conversation as it
    stands. *)
Lemma agentLoop_while_sends_first
      (cfg : LLMConfig) (network : list FetchOutcome) (st : Agent) :
  llmConfig st = Some cfg ->
  exists evs,
    events (snd (fst (agentLoop_while js_eval network st)))
    = (events st ++ EvLoading true :: request_for cfg (conversation st) :: evs)%list.
Proof.
  intro Hcfg.
  assert (Hfrom : forall st1,
             evolves (add_event (request_for cfg (conversation st))
                                (add_event (EvLoading true) st)) st1 ->
             exists evs,
               events st1
               = (events st ++ EvLoading true :: request_for cfg (conversation st) :: evs)%list).
  { intros st1 Hev. destruct (evolves_events _ _ Hev) as (evs & Hevs).
    exists evs. rewrite Hevs. cbn [add_event events].
    rewrite <- !List.app_assoc. reflexivity. }
  destruct network as [|settled later]; cbn [agentLoop_while].
  - rewrite (callLLM_send_configured cfg _ st Hcfg). cbn [fst snd].
    apply Hfrom, evolves_refl.
  - unfold callLLM, bind.
    rewrite (callLLM_send_configured cfg _ st Hcfg).
    set (sent := add_event _ (add_event _ st)) in *.
    pose proof (evolves_callLLM_receive settled sent) as Hrec.
    destruct (callLLM_receive settled sent) as [[response|e] st1]; cbn [fst snd] in *;
      [|apply Hfrom, Hrec].
    pose proof (evolves_after_response js_eval response st1) as Hafter.
    destruct (after_response js_eval response st1) as [[[|]|e] st2]; cbn [fst snd] in *;
      apply Hfrom.
    + eapply evolves_trans; [exact Hrec|].
      eapply evolves_trans; [exact Hafter | apply evolves_agentLoop_while].
    + eapply evolves_trans; [exact Hrec | exact Hafter].
    + eapply evolves_trans; [exact Hrec | exact Hafter].
Qed.

Lemma agentLoop_sends_first
      (cfg : LLMConfig) (network : list FetchOutcome) (st : Agent) :
  llmConfig st = Some cfg ->
  exists evs,
    events (snd (fst (agentLoop js_eval network st)))
    = (events st ++ EvLoading true :: request_for cfg (conversation st) :: evs)%list.
Proof.
  intro Hcfg. unfold agentLoop.
  destruct (agentLoop_while_sends_first cfg network st Hcfg) as (evs & Hevs).
  destruct (agentLoop_while js_eval network st) as [[left st1] rest].
  destruct (agentLoop_exit_frame left st1 rest)
    as (state & st' & -> & _ & _ & _ & (more & Hmore & _) & _).
  cbn [fst snd] in *. exists (evs ++ more)%list.
  rewrite Hmore, Hevs, <- List.app_assoc. reflexivity.
Qed.

Lemma after_response_runs_batch
      (response : Message) (tc : ToolCall) (calls : list ToolCall) (st1 : Agent) :
  requested_calls response = tc :: calls ->
  Forall displayable (tc :: calls) ->
  exists st2 turns,
    after_response js_eval response st1 = (Return true, st2)
    /\ conversation st2 = (conversation st1 ++ turns)%list
    /\ map tool_call_id turns = map (fun c => Some (id c)) (tc :: calls)
    /\ Forall (fun t => role t = tool) turns.
Proof.
  intros Hcalls Hall. unfold after_response. rewrite Hcalls.
  assert (Hshow :
    exists st1',
      (match message_content response with
       | Some text => if truthy_string text then addMessage "agent" text else ret tt
       | None => ret tt
       end) st1 = (Return tt, st1')
      /\ conversation st1' = conversation st1).
  { destruct (message_content response) as [text|];
      [destruct (truthy_string text)|]; eexists; split; reflexivity. }
  destruct Hshow as (st1' & Hrun & Hconv).
  unfold bind at 1. rewrite Hrun.
  destruct (tool_batch_answered_in_order js_eval (tc :: calls) st1' Hall)
    as (st2 & turns & evs & Hbatch & Hc2 & Hids & Hroles & _).
  unfold bind at 1. rewrite Hbatch. unfold ret.
  exists st2, turns. split; [reflexivity|].
  split; [|split; assumption].
  rewrite Hc2, Hconv. reflexivity.
Qed.

(** A round of the loop in which the model asks for tools that can be
    drawn: the answer is appended, every call is answered, and the loop
    goes on from there. *)
Lemma agentLoop_while_round
      (cfg : LLMConfig) (settled : FetchOutcome) (later : list FetchOutcome) (st : Agent) :
  llmConfig st = Some cfg ->
  asks_for_tools settled ->
  exists st2 response calls turns,
    agentLoop_while js_eval (settled :: later) st = agentLoop_while js_eval later st2
    /\ llmConfig st2 = Some cfg
    /\ message_tool_calls response = Some calls
    /\ conversation st2
       = (conversation st
          ++ assistant_turn (message_content response) (Some calls) :: turns)%list
    /\ map tool_call_id turns = map (fun c => Some (id c)) calls
    /\ Forall (fun t => role t = tool) turns.
Proof.
  intros Hcfg (r & data & choice & others & response & tc & calls
               & -> & Hok & Hjson & Hchoices & Hmsg & Hcalls & Hdraw).
  assert (Hreq : requested_calls response = tc :: calls).
  { unfold requested_calls. rewrite Hcalls. reflexivity. }
  cbn [agentLoop_while]. unfold callLLM, bind.
  rewrite (callLLM_send_configured cfg _ st Hcfg).
  rewrite (callLLM_receive_message r data choice others response _
             Hok Hjson Hchoices Hmsg).
  set (st1 := add_event (EvLoading false) _).
  destruct (after_response_runs_batch response tc calls st1 Hreq Hdraw)
    as (st2 & turns & Hafter & Hconv & Hids & Hroles).
  pose proof (evolves_after_response js_eval response st1) as Hev.
  rewrite Hafter in *. cbn [snd] in Hev.
  exists st2, response, (tc :: calls), turns.
  split; [reflexivity|]. split; [|split; [exact Hcalls|split; [|split; assumption]]].
  - rewrite (evolves_config _ _ Hev). exact Hcfg.
  - rewrite Hconv. subst st1.
    cbn [add_event push_turn set_conversation conversation].
    rewrite Hcalls, <- List.app_assoc. reflexivity.
Qed.

(** X9. The loop has no bound on its rounds: as long as every answer of the
    model asks for tools that can be drawn, the loop runs the tools and
    calls the model again, one request per answer and one more that is left
    pending. *)
Theorem agentLoop_has_no_round_limit
        (cfg : LLMConfig) (network : list FetchOutcome) (st : Agent) :
  llmConfig st = Some cfg ->
  Forall asks_for_tools network ->
  exists st',
    agentLoop js_eval network st = (AwaitingModel, st', [])
    /\ model_calls (events st') = model_calls (events st) + S (length network).
Proof.
  intros Hcfg Hall.
  assert (Hparks : exists st', agentLoop_while js_eval network st = (Parked, st', [])).
  { revert st Hcfg. induction Hall as [|settled later Hasks _ IH]; intros st Hcfg.
    - cbn [agentLoop_while]. rewrite (callLLM_send_configured cfg _ st Hcfg).
      eexists. reflexivity.
    - destruct (agentLoop_while_round cfg settled later st Hcfg Hasks)
        as (st2 & _ & _ & _ & Hnext & Hcfg2 & _).
      rewrite Hnext. apply IH, Hcfg2. }
  destruct Hparks as (st' & Hparks).
  destruct (agentLoop_while_counts cfg network st Hcfg) as (used & Hused & Hcount).
  unfold agentLoop. rewrite Hparks in *. cbn [fst snd agentLoop_exit] in *.
  exists st'. split; [reflexivity|].
  rewrite List.app_nil_r in Hused. subst used. rewrite Hcount. lia.
Qed.

(** X10. Once every tool call of an assistant turn has been answered, the next
    request to the model carries the conversation with that assistant turn
    and, after it, one tool turn per call, in the order of the calls. *)
Theorem tool_answers_reach_next_request
        (cfg : LLMConfig) (settled : FetchOutcome) (later : list FetchOutcome) (st : Agent) :
  llmConfig st = Some cfg ->
  asks_for_tools settled ->
  exists response calls turns before evs,
    message_tool_calls response = Some calls
    /\ map tool_call_id turns = map (fun c => Some (id c)) calls
    /\ Forall (fun t => role t = tool) turns
    /\ events (snd (fst (agentLoop js_eval (settled :: later) st)))
       = (before
          ++ EvLoading true
          :: request_for cfg
               (conversation st
                ++ assistant_turn (message_content response) (Some calls) :: turns)
          :: evs)%list.
Proof.
  intros Hcfg Hasks.
  destruct (agentLoop_while_round cfg settled later st Hcfg Hasks)
    as (st2 & response & calls & turns & Hnext & Hcfg2 & Hcalls & Hconv & Hids & Hroles).
  destruct (agentLoop_sends_first cfg later st2 Hcfg2) as (evs & Hevs).
  exists response, calls, turns, (events st2), evs.
  split; [exact Hcalls|]. split; [exact Hids|]. split; [exact Hroles|].
  unfold agentLoop in *. rewrite Hnext, Hevs, Hconv. reflexivity.
Qed.

End Loop.

(* ================================================================== *)
(** ** Further properties of a submission *)
(* ================================================================== *)

Lemma rev_string_acc (s acc : string) :
  rev_string acc s = rev_string EmptyString s ++ acc.
Proof.
  revert acc. induction s as [|c s IH]; intro acc; cbn [rev_string]; [reflexivity|].
  rewrite (IH (String c acc)), (IH (String c EmptyString)), append_assoc.
  reflexivity.
Qed.

Lemma append_nonempty (a : string) (c : ascii) (b : string) :
  a ++ String c b <> EmptyString.
Proof. destruct a; discriminate. Qed.

Lemma trim_start_blank (s : string) :
  all_space s = true -> trim_start s = EmptyString.
Proof.
  induction s as [|c s IH]; cbn [all_space trim_start]; [reflexivity|].
  destruct (is_space c); [exact IH | discriminate].
Qed.

Lemma trim_start_text (s : string) :
  all_space s = false ->
  exists c rest, trim_start s = String c rest /\ is_space c = false.
Proof.
  induction s as [|c s IH]; cbn [all_space trim_start]; [discriminate|].
  destruct (is_space c) eqn:Hc; cbn [andb]; [exact IH|].
  intros _. exists c, s. split; [reflexivity | exact Hc].
Qed.

Lemma trim_start_reaches (a : string) (c : ascii) (b : string) :
  is_space c = false ->
  exists c' rest, trim_start (a ++ String c b) = String c' rest.
Proof.
  intro Hc. induction a as [|x a IH]; cbn [append trim_start].
  - rewrite Hc. eexists. eexists. reflexivity.
  - destruct (is_space x); [exact IH|]. eexists. eexists. reflexivity.
Qed.

(** [trim] leaves nothing exactly of the texts made of white space. *)
Lemma trim_blank (s : string) :
  truthy_string (trim s) = negb (all_space s).
Proof.
  unfold truthy_string, trim. destruct (all_space s) eqn:Hs.
  - rewrite (trim_start_blank s Hs). reflexivity.
  - destruct (trim_start_text s Hs) as (c & rest & -> & Hc).
    cbn [rev_string]. rewrite (rev_string_acc rest (String c EmptyString)).
    destruct (trim_start_reaches (rev_string EmptyString rest) c EmptyString Hc)
      as (c' & rest' & ->).
    cbn [rev_string]. rewrite (rev_string_acc rest' (String c' EmptyString)).
    destruct (rev_string EmptyString rest' ++ String c' EmptyString) eqn:E;
      [|reflexivity].
    exfalso. exact (append_nonempty _ _ _ E).
Qed.

Section Submission.

Variable js_eval : string -> EvalOutcome.

(** X11. [handleUserMessage] starts the loop exactly when something other than
    white space is typed, no loop is running and a provider is
    configured.  When it does not, it consumes no answer, leaves the
    conversation and the typed text as they are, and sends nothing to the
    model. *)
Theorem handleUserMessage_starts_loop_iff (network : list FetchOutcome) (st : Agent) :
  ((exists state st' rest,
       handleUserMessage js_eval network st = (Some state, st', rest))
   <-> all_space (messageInput_value st) = false
       /\ isProcessing st = false
       /\ llmConfig st <> None)
  /\ (forall st' rest,
         handleUserMessage js_eval network st = (None, st', rest) ->
         rest = network
         /\ conversation st' = conversation st
         /\ messageInput_value st' = messageInput_value st
         /\ model_calls (events st') = model_calls (events st)).
Proof.
  unfold handleUserMessage. rewrite trim_blank, negb_involutive.
  destruct (all_space (messageInput_value st)); cbn [orb].
  { split.
    - split; [intros (state & st' & rest & H); discriminate | intros (H & _); discriminate].
    - intros st' rest H. injection H as <- <-. repeat split. }
  destruct (isProcessing st); cbn [orb].
  { split.
    - split; [intros (state & st' & rest & H); discriminate
             | intros (_ & H & _); discriminate].
    - intros st' rest H. injection H as <- <-. repeat split. }
  destruct (llmConfig st) as [cfg|].
  - split.
    + split; [intros _; repeat split; discriminate|].
      intros _. destruct (agentLoop js_eval network _) as [[state st'] rest].
      exists state, st', rest. reflexivity.
    + intros st' rest. destruct (agentLoop js_eval network _) as [[state st1] rest1].
      discriminate.
  - split.
    + split; [intros (state & st' & rest & H); discriminate
             | intros (_ & _ & H); contradiction].
    + intros st' rest H. injection H as <- <-.
      repeat split. cbn [showAlert emit modify snd add_event events].
      rewrite model_calls_snoc. apply Nat.add_0_r.
Qed.

(** X12. An accepted submission is recorded before anything else happens: the
    input box is emptied, the trimmed text is shown and appended as a user
    turn, and the first request to the model carries the conversation that
    ends with it.  Every turn the loop adds afterwards is an assistant or a
    tool turn. *)
Theorem accepted_submission_is_sent_first
        (cfg : LLMConfig) (network : list FetchOutcome) (st : Agent) :
  llmConfig st = Some cfg ->
  isProcessing st = false ->
  all_space (messageInput_value st) = false ->
  exists state st' rest turns evs,
    handleUserMessage js_eval network st = (Some state, st', rest)
    /\ conversation st'
       = (conversation st ++ user_turn (trim (messageInput_value st)) :: turns)%list
    /\ Forall (fun t => role t = assistant \/ role t = tool) turns
    /\ messageInput_value st' = EmptyString
    /\ events st'
       = (events st
          ++ [EvMessage "user" (trim (messageInput_value st));
              EvAppend (user_turn (trim (messageInput_value st)));
              EvLoading true;
              request_for cfg
                (conversation st ++ [user_turn (trim (messageInput_value st))])]
          ++ evs)%list.
Proof.
  intros Hcfg Hidle Htyped.
  unfold handleUserMessage. rewrite trim_blank, Htyped, Hidle, Hcfg. cbn [negb orb].
  set (text := trim (messageInput_value st)).
  set (st0 := snd (_ st)).
  assert (Hcfg0 : llmConfig st0 = Some cfg) by exact Hcfg.
  assert (Hconv0 : conversation st0 = (conversation st ++ [user_turn text])%list)
    by reflexivity.
  assert (Hin0 : messageInput_value st0 = EmptyString) by reflexivity.
  assert (Hev0 : events st0
                 = (events st ++ [EvMessage "user" text; EvAppend (user_turn text)])%list).
  { subst st0. cbn. rewrite <- List.app_assoc. reflexivity. }
  destruct (agentLoop_sends_first js_eval cfg network st0 Hcfg0) as (evs & Hevs).
  pose proof (replies_exit _ st0 (replies_agentLoop_while js_eval network st0))
    as [(turns & Hturns & Hroles) Hinput].
  fold (agentLoop js_eval network st0) in Hturns, Hinput.
  destruct (agentLoop js_eval network st0) as [[state st'] rest].
  cbn [fst snd] in *.
  exists state, st', rest, turns, evs. split; [reflexivity|].
  split; [|split; [|split]].
  - rewrite Hturns, Hconv0, <- List.app_assoc. reflexivity.
  - eapply Forall_impl; [|exact Hroles].
    intros t Ht. cbv beta in Ht.
    destruct (role t); [exfalso; apply Ht | left | right]; reflexivity.
  - rewrite Hinput. exact Hin0.
  - rewrite Hevs, Hev0, Hconv0, <- List.app_assoc. reflexivity.
Qed.

(** X13. What the result panel shows is what the model is told.  When the
    handler of a drawn call has settled, [handleToolCall] fills the panel
    of the call, if that panel is on the page then, and appends the tool
    turn, both with the same text; the panel is marked as an error exactly
    when the handler threw, and the text then is the failure message. *)
Theorem shown_result_is_what_the_model_is_told
        (toolCall : ToolCall) (params : string) (outcome : Completion jsval)
        (st st1 : Agent) :
  tool_call_params toolCall = Return params ->
  dispatch js_eval (name (function toolCall)) (arguments (function toolCall))
           (add_event (EvToolCall toolCall params) st)
  = (outcome, st1) ->
  exists text failed st',
    handleToolCall js_eval toolCall st = (Return tt, st')
    /\ events st'
       = (events st1
          ++ (if tool_div_present (id toolCall) (events st1)
              then [EvToolResult (id toolCall) (VStr text) failed]
              else [])
          ++ [EvAppend (tool_turn (id toolCall) (Some text))])%list
    /\ match outcome with
       | Return result => failed = false /\ result = VStr text
       | Throw e => failed = true /\ text = "Tool execution failed: " ++ message e
       end.
Proof.
  intros Hp Hrun.
  pose proof (dispatch_yields_text js_eval (name (function toolCall))
                (arguments (function toolCall))
                (add_event (EvToolCall toolCall params) st)) as Htext.
  unfold handleToolCall, showToolCall.
  unfold bind at 1. unfold bind at 1. unfold lift at 1. rewrite Hp.
  unfold emit at 1, modify at 1.
  unfold try_catch, bind. rewrite Hrun.
  destruct outcome as [result|e].
  - pose proof (Htext result st1 Hrun) as Hres. unfold is_text in Hres.
    destruct Hres as [text Hres]. subst result.
    exists text, false. unfold showToolResult, bind, gets.
    destruct (tool_div_present (id toolCall) (events st1));
      eexists; (split; [reflexivity|]); (split; [|split; reflexivity]);
      cbn; rewrite <- ?List.app_assoc; reflexivity.
  - exists ("Tool execution failed: " ++ message e), true.
    unfold showToolResult, bind, gets.
    destruct (tool_div_present (id toolCall) (events st1));
      eexists; (split; [reflexivity|]); (split; [|split; reflexivity]);
      cbn; rewrite <- ?List.app_assoc; reflexivity.
Qed.

(** X14. Clearing the chat does not call off a request that is pending: when
    its answer arrives the loop goes on where it was, and the cleared
    conversation then begins with the assistant turn of that answer. *)
Theorem late_answer_lands_in_cleared_chat (s : Session) (settled : FetchOutcome) :
  in_flight s <> 0 ->
  transport_error settled || protocol_error settled = false ->
  conversation (agent (happen js_eval s Clear)) = []
  /\ exists response turns,
       conversation (agent (happen js_eval (happen js_eval s Clear) (Settle settled)))
       = assistant_turn (message_content response) (message_tool_calls response) :: turns.
Proof.
  intros Hflight Hfine. split; [reflexivity|].
  cbn [happen in_flight agent].
  destruct (in_flight s) as [|others]; [contradiction Hflight; reflexivity|].
  set (cleared := snd (clearConversation (agent s))).
  assert (Hempty : conversation cleared = []) by reflexivity.
  destruct (callLLM_receive_answers settled cleared Hfine) as (response & Hrec).
  exists response.
  assert (Hconv : exists turns,
             conversation (snd (fst (agentLoop_resume js_eval settled [] cleared)))
             = assistant_turn (message_content response) (message_tool_calls response)
               :: turns).
  { unfold agentLoop_resume, bind. rewrite Hrec.
    set (st1 := add_event (EvLoading false) _).
    assert (Hc1 : conversation st1
                  = [assistant_turn (message_content response)
                                    (message_tool_calls response)]).
    { subst st1. reflexivity. }
    pose proof (evolves_after_response js_eval response st1) as Hafter.
    destruct (after_response js_eval response st1) as [[[|]|e] st2]; cbn [fst snd] in *;
      destruct (evolves_conversation _ _ Hafter) as (turns & Hturns).
    - pose proof (evolves_agentLoop_while js_eval [] st2) as Hloop.
      destruct (evolves_conversation _ _ Hloop) as (more & Hmore).
      destruct (agentLoop_while js_eval [] st2) as [[left st3] rest].
      destruct (agentLoop_exit_frame left st3 rest) as (state & st' & -> & Hsame & _).
      cbn [fst snd] in *. exists (turns ++ more)%list.
      rewrite Hsame, Hmore, Hturns, Hc1, <- List.app_assoc. reflexivity.
    - exists turns. cbn. rewrite Hturns, Hc1. reflexivity.
    - exists turns. cbn. rewrite Hturns, Hc1. reflexivity. }
  destruct Hconv as (turns & Hconv). exists turns.
  destruct (agentLoop_resume js_eval settled [] cleared) as [[[| e |] st'] rest];
    exact Hconv.
Qed.

(** X15. A submission whose model call fails is not taken back: the user turn
    stays in the conversation, the input box stays empty, and the page is
    released for a new submission. *)
Theorem failed_submission_keeps_user_turn
        (cfg : LLMConfig) (settled : FetchOutcome) (later : list FetchOutcome) (st : Agent) :
  llmConfig st = Some cfg ->
  isProcessing st = false ->
  all_space (messageInput_value st) = false ->
  transport_error settled || protocol_error settled = true ->
  exists e st',
    handleUserMessage js_eval (settled :: later) st = (Some (Failed e), st', later)
    /\ conversation st'
       = (conversation st ++ [user_turn (trim (messageInput_value st))])%list
    /\ messageInput_value st' = EmptyString
    /\ isProcessing st' = false.
Proof.
  intros Hcfg Hidle Htyped Herror.
  unfold handleUserMessage. rewrite trim_blank, Htyped, Hidle, Hcfg. cbn [negb orb].
  set (st0 := snd (_ st)).
  destruct (model_error_makes_callLLM_throw settled (conversation st0) initializeTools
              st0 Herror) as (e & st1 & Hthrow).
  destruct (callLLM_throw_ends_loop js_eval settled later st0 st1 e Hthrow)
    as (_ & st' & evs & Hloop & Hconv & _ & _ & Hbusy).
  pose proof (replies_exit _ st0 (replies_agentLoop_while js_eval (settled :: later) st0))
    as [_ Hinput].
  fold (agentLoop js_eval (settled :: later) st0) in Hinput.
  rewrite Hloop in *. cbn [fst snd] in Hinput.
  exists e, st'. split; [reflexivity|].
  split; [rewrite Hconv; reflexivity|]. split; [rewrite Hinput; reflexivity | exact Hbusy].
Qed.

(** X16. Whatever the user and the network have done so far, at most one loop
    is in flight, and a submission made while it is in flight starts
    nothing and is not queued: it leaves the agent as it was, with the
    text still in the input box. *)
Theorem busy_page_drops_submissions
        (hs : list Happening) (st : Agent) (typed : string) :
  in_flight (run_session js_eval hs (mkSession st 0)) <= 1
  /\ (in_flight (run_session js_eval hs (mkSession st 0)) = 1 ->
      happen js_eval (run_session js_eval hs (mkSession st 0)) (Submit typed)
      = mkSession
          (set_messageInput_value typed (agent (run_session js_eval hs (mkSession st 0))))
          1).
Proof.
  assert (H : one_loop (run_session js_eval hs (mkSession st 0))).
  { unfold run_session.
    generalize (mkSession st 0) (or_introl eq_refl : one_loop (mkSession st 0)).
    induction hs as [|h hs IH]; intros s Hs; cbn [fold_left]; [exact Hs|].
    apply IH, happen_keeps_one_loop, Hs. }
  destruct (run_session js_eval hs (mkSession st 0)) as [page loops].
  destruct H as [Hnone | [Hone Hbusy]]; cbn [in_flight agent] in *; subst loops.
  - split; [lia | discriminate].
  - split; [lia|]. intros _. cbn [happen agent in_flight].
    unfold handleUserMessage. cbn [isProcessing set_messageInput_value].
    rewrite Hbusy, orb_true_r. reflexivity.
Qed.

End Submission.

(* ================================================================== *)
(** ** Further properties of the page helpers *)
(* ================================================================== *)

(** *** [getBaseUrl] *)

(** X17. [getBaseUrl] gives a provider of its table that provider's endpoint
    and any other provider the endpoint of OpenAI, except that a provider
    named like a member every object inherits gets that member, which is no
    address: the fallback is not taken for it. *)
Theorem getBaseUrl_endpoints (provider : string) :
  (forall address, In (provider, address) urls -> getBaseUrl provider = Url address)
  /\ (~ In provider (map fst urls) ->
      ~ In provider Object_prototype_members ->
      getBaseUrl provider = Url "https://api.openai.com/v1")
  /\ (In provider Object_prototype_members -> getBaseUrl provider = Inherited provider).
Proof.
  split; [|split].
  - intros address Hin. cbn [urls In] in Hin.
    destruct Hin as [H | [H | [H | []]]]; injection H as <- <-; reflexivity.
  - intros Hout Hmember. unfold getBaseUrl. cbn [urls own_entry].
    destruct (String.eqb_spec provider "openai") as [->|_];
      [exfalso; apply Hout; cbn; auto|].
    destruct (String.eqb_spec provider "openrouter") as [->|_];
      [exfalso; apply Hout; cbn; auto|].
    destruct (String.eqb_spec provider "groq") as [->|_];
      [exfalso; apply Hout; cbn; auto 6|].
    destruct (existsb (String.eqb provider) Object_prototype_members) eqn:E;
      [|reflexivity].
    exfalso. apply Hmember. apply existsb_exists in E.
    destruct E as (m & Hm & Heq). apply String.eqb_eq in Heq. subst m. exact Hm.
  - intro Hmember. cbn [Object_prototype_members In] in Hmember.
    repeat (destruct Hmember as [<- | Hmember]; [reflexivity|]).
    contradiction.
Qed.

(** *** [formatMessageContent] *)

Lemma has_char_app (n : nat) (a b : string) :
  has_char n (a ++ b) = has_char n a || has_char n b.
Proof.
  induction a as [|c a IH]; cbn [append has_char]; [reflexivity|].
  rewrite IH. apply orb_assoc.
Qed.

Lemma replace_newlines_app (a b : string) :
  replace_newlines (a ++ b) = replace_newlines a ++ replace_newlines b.
Proof.
  induction a as [|c a IH]; cbn [append replace_newlines]; [reflexivity|].
  rewrite IH. destruct (nat_of_ascii c =? 10); reflexivity.
Qed.

Lemma replace_newlines_no_line_feed (s : string) :
  has_char 10 (replace_newlines s) = false.
Proof.
  induction s as [|c s IH]; cbn [replace_newlines]; [reflexivity|].
  destruct (nat_of_ascii c =? 10) eqn:E.
  - rewrite has_char_app, IH. reflexivity.
  - cbn [has_char]. rewrite E, IH. reflexivity.
Qed.

Lemma replace_newlines_keeps (n : nat) (s : string) :
  has_char n "<br>" = false ->
  has_char n s = false ->
  has_char n (replace_newlines s) = false.
Proof.
  intros Hbr. induction s as [|c s IH]; cbn [replace_newlines has_char]; [reflexivity|].
  intro H. apply orb_false_iff in H. destruct H as [Hc Hs].
  destruct (nat_of_ascii c =? 10).
  - rewrite has_char_app, Hbr, (IH Hs). reflexivity.
  - cbn [has_char]. rewrite Hc, (IH Hs). reflexivity.
Qed.

Lemma find_close_eq (s : string) :
  find_close s
  = match strip_stars s with
    | Some after => Some (EmptyString, after)
    | None =>
        match s with
        | EmptyString => None
        | String c rest =>
            if is_line_terminator c then None
            else match find_close rest with
                 | Some (group, after) => Some (String c group, after)
                 | None => None
                 end
        end
    end.
Proof. destruct s; reflexivity. Qed.

Lemma embolden_eq (n : nat) (s : string) :
  embolden (S n) s
  = match s with
    | EmptyString => EmptyString
    | String c rest =>
        match strip_stars s with
        | Some inner =>
            match find_close inner with
            | Some (group, after) =>
                "<strong>" ++ group ++ "</strong>" ++ embolden n after
            | None => String c (embolden n rest)
            end
        | None => String c (embolden n rest)
        end
    end.
Proof. reflexivity. Qed.

Lemma code_42 (c : ascii) : (nat_of_ascii c =? 42) = true -> c = "*"%char.
Proof.
  intro H. apply Nat.eqb_eq in H.
  rewrite <- (ascii_nat_embedding c), H. reflexivity.
Qed.

Lemma strip_stars_inv (s inner : string) :
  strip_stars s = Some inner -> s = "**" ++ inner.
Proof.
  destruct s as [|c [|d rest]]; cbn [strip_stars]; try discriminate.
  destruct (nat_of_ascii c =? 42) eqn:Hc; [|discriminate].
  destruct (nat_of_ascii d =? 42) eqn:Hd; [|discriminate].
  intro H. injection H as <-.
  rewrite (code_42 c Hc), (code_42 d Hd). reflexivity.
Qed.

Lemma strip_stars_plain (c : ascii) (rest : string) :
  (nat_of_ascii c =? 42) = false -> strip_stars (String c rest) = None.
Proof. intro H. cbn [strip_stars]. destruct rest; [reflexivity|]. rewrite H. reflexivity. Qed.

Lemma find_close_splits (s group after : string) :
  find_close s = Some (group, after) -> s = group ++ "**" ++ after.
Proof.
  revert group. induction s as [|c s IH]; intro group; rewrite find_close_eq.
  - cbn [strip_stars]. discriminate.
  - destruct (strip_stars (String c s)) as [inner|] eqn:E.
    + intro H. injection H as <- <-. apply (strip_stars_inv _ _ E).
    + destruct (is_line_terminator c); [discriminate|].
      destruct (find_close s) as [[g a]|]; [|discriminate].
      intro H. injection H as <- <-. cbn [append]. f_equal. apply IH. reflexivity.
Qed.

Lemma find_close_chars (n : nat) (s group after : string) :
  find_close s = Some (group, after) ->
  has_char n s = false ->
  has_char n group = false /\ has_char n after = false.
Proof.
  intros H Hs. rewrite (find_close_splits _ _ _ H) in Hs.
  rewrite !has_char_app in Hs.
  apply orb_false_iff in Hs. destruct Hs as [Hg Hs].
  apply orb_false_iff in Hs. destruct Hs as [_ Ha]. split; assumption.
Qed.

Lemma embolden_keeps (n fuel : nat) :
  has_char n "<strong>" = false ->
  has_char n "</strong>" = false ->
  forall s, has_char n s = false -> has_char n (embolden fuel s) = false.
Proof.
  intros Hopen Hclose. induction fuel as [|fuel IH]; intros s Hs; [exact Hs|].
  rewrite embolden_eq. destruct s as [|c rest]; [reflexivity|].
  assert (Hstep : has_char n (String c (embolden fuel rest)) = false).
  { cbn [has_char] in *. apply orb_false_iff in Hs. destruct Hs as [Hc Hrest].
    rewrite Hc, (IH rest Hrest). reflexivity. }
  destruct (strip_stars (String c rest)) as [inner|] eqn:E; [|exact Hstep].
  destruct (find_close inner) as [[group after]|] eqn:F; [|exact Hstep].
  rewrite (strip_stars_inv _ _ E), has_char_app in Hs.
  apply orb_false_iff in Hs. destruct Hs as [_ Hinner].
  destruct (find_close_chars n _ _ _ F Hinner) as [Hg Ha].
  rewrite !has_char_app, Hopen, Hg, Hclose, (IH after Ha). reflexivity.
Qed.

Lemma embolden_plain (fuel : nat) (s : string) :
  has_char 42 s = false -> embolden fuel s = s.
Proof.
  revert s. induction fuel as [|fuel IH]; intros s Hs; [reflexivity|].
  rewrite embolden_eq. destruct s as [|c rest]; [reflexivity|].
  cbn [has_char] in Hs. apply orb_false_iff in Hs. destruct Hs as [Hc Hrest].
  rewrite (strip_stars_plain c rest Hc), (IH rest Hrest). reflexivity.
Qed.

Lemma embolden_fuel (n : nat) :
  forall m s, String.length s <= n -> String.length s <= m ->
  embolden n s = embolden m s.
Proof.
  induction n as [|n IH]; intros m s Hn Hm.
  - destruct s; [|cbn in Hn; lia]. destruct m; reflexivity.
  - destruct s as [|c rest]; [destruct m; reflexivity|].
    destruct m as [|m]; [cbn in Hm; lia|].
    rewrite !embolden_eq. cbn [String.length] in Hn, Hm.
    assert (Hrest : embolden n rest = embolden m rest) by (apply IH; lia).
    destruct (strip_stars (String c rest)) as [inner|] eqn:E; [|rewrite Hrest; reflexivity].
    destruct (find_close inner) as [[group after]|] eqn:F; [|rewrite Hrest; reflexivity].
    assert (Hlen : String.length after <= String.length rest).
    { pose proof (f_equal String.length (strip_stars_inv _ _ E)) as H1.
      pose proof (f_equal String.length (find_close_splits _ _ _ F)) as H2.
      cbn [String.length append] in H1.
      rewrite !length_append in H2. cbn [String.length] in H2. lia. }
    rewrite (IH m after) by lia. reflexivity.
Qed.

Lemma embolden_prefix (p x : string) :
  has_char 42 p = false ->
  forall fuel, String.length p + String.length x <= fuel ->
  embolden fuel (p ++ x) = p ++ embolden (String.length x) x.
Proof.
  intro Hp. induction p as [|c p IH]; intros fuel Hfuel.
  - cbn [append]. apply embolden_fuel; cbn in *; lia.
  - cbn [has_char] in Hp. apply orb_false_iff in Hp. destruct Hp as [Hc Hp].
    destruct fuel as [|fuel]; [cbn in Hfuel; lia|].
    cbn [append]. rewrite embolden_eq, (strip_stars_plain c _ Hc).
    rewrite (IH Hp fuel) by (cbn in Hfuel; lia). reflexivity.
Qed.

Lemma find_close_plain (group after : string) :
  has_char 42 group = false ->
  has_char 10 group = false ->
  has_char 13 group = false ->
  find_close (group ++ "**" ++ after) = Some (group, after).
Proof.
  induction group as [|c group IH]; intros H42 H10 H13.
  - rewrite find_close_eq. reflexivity.
  - cbn [has_char] in *.
    apply orb_false_iff in H42. destruct H42 as [Hc42 H42].
    apply orb_false_iff in H10. destruct H10 as [Hc10 H10].
    apply orb_false_iff in H13. destruct H13 as [Hc13 H13].
    change (String c group ++ "**" ++ after) with (String c (group ++ "**" ++ after)).
    rewrite find_close_eq, (strip_stars_plain c _ Hc42).
    unfold is_line_terminator. rewrite Hc10, Hc13. cbn [orb].
    rewrite (IH H42 H10 H13). reflexivity.
Qed.

Lemma replace_newlines_plain (s : string) :
  has_char 10 s = false -> replace_newlines s = s.
Proof.
  induction s as [|c s IH]; [reflexivity|].
  cbn [has_char replace_newlines]. intro H.
  apply orb_false_iff in H. destruct H as [Hc Hs].
  rewrite Hc, (IH Hs). reflexivity.
Qed.

Lemma replace_newlines_lines (lines : list string) :
  forallb (fun line => negb (has_char 10 line)) lines = true ->
  replace_newlines (String.concat nl lines) = String.concat "<br>" lines.
Proof.
  induction lines as [|line rest IH]; [reflexivity|].
  cbn [forallb]. intro H. apply andb_prop in H. destruct H as [Hline Hrest].
  apply negb_true_iff in Hline.
  destruct rest as [|next rest]; [apply replace_newlines_plain, Hline|].
  change (String.concat nl (line :: next :: rest))
    with (line ++ nl ++ String.concat nl (next :: rest)).
  change (String.concat "<br>" (line :: next :: rest))
    with (line ++ "<br>" ++ String.concat "<br>" (next :: rest)).
  rewrite !replace_newlines_app, (replace_newlines_plain line Hline), (IH Hrest).
  reflexivity.
Qed.

Lemma has_char_lines (n : nat) (lines : list string) :
  has_char n "<br>" = false ->
  forallb (fun line => negb (has_char n line)) lines = true ->
  has_char n (String.concat "<br>" lines) = false.
Proof.
  intro Hbr. induction lines as [|line rest IH]; [reflexivity|].
  cbn [forallb]. intro H. apply andb_prop in H. destruct H as [Hline Hrest].
  apply negb_true_iff in Hline.
  destruct rest as [|next rest]; [exact Hline|].
  change (String.concat "<br>" (line :: next :: rest))
    with (line ++ "<br>" ++ String.concat "<br>" (next :: rest)).
  rewrite !has_char_app, Hline, Hbr, (IH Hrest). reflexivity.
Qed.

(** X18. [formatMessageContent] turns every line feed into a line break
    element and leaves none behind.  Its result never holds a line feed;
    lines joined by line feeds are formatted as the same lines joined by
    [<br>], bold pairs being replaced in that text; and when the lines
    hold no asterisk the result is just those lines joined by [<br>]. *)
Theorem formatMessageContent_breaks_lines (content : string) (lines : list string) :
  has_char 10 (formatMessageContent content) = false
  /\ (forallb (fun line => negb (has_char 10 line)) lines = true ->
      formatMessageContent (String.concat nl lines)
      = embolden (String.length (String.concat "<br>" lines))
                 (String.concat "<br>" lines))
  /\ (forallb (fun line => negb (has_char 10 line)) lines = true ->
      forallb (fun line => negb (has_char 42 line)) lines = true ->
      formatMessageContent (String.concat nl lines) = String.concat "<br>" lines).
Proof.
  split; [|split].
  - unfold formatMessageContent.
    apply embolden_keeps; [reflexivity | reflexivity |].
    apply replace_newlines_no_line_feed.
  - intro Hlines. unfold formatMessageContent.
    rewrite (replace_newlines_lines lines Hlines). reflexivity.
  - intros Hlines Hplain. unfold formatMessageContent.
    rewrite (replace_newlines_lines lines Hlines).
    apply embolden_plain, has_char_lines; [reflexivity | exact Hplain].
Qed.

(** X19. A text without asterisks is changed by [formatMessageContent] only in
    its line feeds; markup in it, angle brackets and ampersands included,
    goes to the page as it is. *)
Theorem formatMessageContent_passes_markup_through (content : string) :
  has_char 42 content = false ->
  formatMessageContent content = replace_newlines content
  /\ (has_char 10 content = false -> formatMessageContent content = content).
Proof.
  intro Hplain.
  assert (Hfirst : formatMessageContent content = replace_newlines content).
  { unfold formatMessageContent. apply embolden_plain.
    apply replace_newlines_keeps; [reflexivity | exact Hplain]. }
  split; [exact Hfirst|].
  intro Hline. rewrite Hfirst. clear Hfirst Hplain.
  induction content as [|c s IH]; [reflexivity|].
  cbn [has_char replace_newlines] in *.
  apply orb_false_iff in Hline. destruct Hline as [Hc Hs].
  rewrite Hc, (IH Hs). reflexivity.
Qed.

(** X20. A pair of double asterisks makes what is between them bold: when the
    text before has no asterisk and the text between has neither an
    asterisk nor a carriage return, the pair is replaced by a strong
    element around the text between, line feeds in it being line breaks,
    and what follows is formatted on its own. *)
Theorem formatMessageContent_emboldens (before inner rest : string) :
  has_char 42 before = false ->
  has_char 42 inner = false ->
  has_char 13 inner = false ->
  formatMessageContent (before ++ "**" ++ inner ++ "**" ++ rest)
  = replace_newlines before
    ++ "<strong>" ++ replace_newlines inner ++ "</strong>"
    ++ formatMessageContent rest.
Proof.
  intros Hbefore Hinner Hreturn.
  unfold formatMessageContent.
  rewrite !replace_newlines_app.
  change (replace_newlines "**") with "**".
  set (P := replace_newlines before).
  set (G := replace_newlines inner).
  set (Q := replace_newlines rest).
  assert (HP : has_char 42 P = false)
    by (apply replace_newlines_keeps; [reflexivity | exact Hbefore]).
  assert (HG42 : has_char 42 G = false)
    by (apply replace_newlines_keeps; [reflexivity | exact Hinner]).
  assert (HG13 : has_char 13 G = false)
    by (apply replace_newlines_keeps; [reflexivity | exact Hreturn]).
  assert (HG10 : has_char 10 G = false) by apply replace_newlines_no_line_feed.
  rewrite (embolden_prefix P _ HP)
    by (apply Nat.eq_le_incl; symmetry; apply length_append).
  f_equal.
  change ("**" ++ G ++ "**" ++ Q) with (String "*" (String "*" (G ++ "**" ++ Q))).
  cbn [String.length]. rewrite embolden_eq.
  change (strip_stars (String "*" (String "*" (G ++ "**" ++ Q))))
    with (Some (G ++ "**" ++ Q)).
  cbv beta iota. rewrite (find_close_plain G Q HG42 HG10 HG13).
  do 3 f_equal. apply embolden_fuel; [|lia].
  rewrite !length_append. cbn [String.length]. lia.
Qed.

(* ================================================================== *)
(** ** Further properties of the requests *)
(* ================================================================== *)

Lemma sent_by_earlier (cfg : LLMConfig) (history turns : list Turn) (e : Event) :
  sent_by cfg (history ++ turns) e -> sent_by cfg history e.
Proof.
  intros H He. destruct (H He) as (more & ->).
  exists (turns ++ more)%list. rewrite List.app_assoc. reflexivity.
Qed.

Lemma as_configured_refl (cfg : LLMConfig) (st : Agent) : as_configured cfg st st.
Proof.
  intro Hcfg. split; [exact Hcfg|]. split.
  - exists []. symmetry. apply List.app_nil_r.
  - exists []. split; [symmetry; apply List.app_nil_r | constructor].
Qed.

Lemma as_configured_trans (cfg : LLMConfig) (a b c : Agent) :
  as_configured cfg a b -> as_configured cfg b c -> as_configured cfg a c.
Proof.
  intros Hab Hbc Hcfg.
  destruct (Hab Hcfg) as (Hb & (t1 & T1) & (e1 & E1 & F1)).
  destruct (Hbc Hb) as (Hc & (t2 & T2) & (e2 & E2 & F2)).
  split; [exact Hc|]. split.
  - exists (t1 ++ t2)%list. rewrite T2, T1. symmetry. apply List.app_assoc.
  - exists (e1 ++ e2)%list. split.
    + rewrite E2, E1. symmetry. apply List.app_assoc.
    + apply Forall_app. split; [exact F1|].
      eapply Forall_impl; [|exact F2].
      intros e He. rewrite T1 in He. exact (sent_by_earlier _ _ _ _ He).
Qed.

Lemma as_configured_emit (cfg : LLMConfig) (e : Event) :
  is_fetch e = false -> respects (as_configured cfg) (emit e).
Proof.
  intros He st Hcfg. split; [exact Hcfg|]. split.
  - exists []. symmetry. apply List.app_nil_r.
  - exists [e]. split; [reflexivity|].
    repeat constructor. intro H. rewrite He in H. discriminate.
Qed.

Lemma as_configured_push (cfg : LLMConfig) (t : Turn) :
  respects (as_configured cfg) (modify (push_turn t)).
Proof.
  intros st Hcfg. split; [exact Hcfg|]. split.
  - exists [t]. reflexivity.
  - exists [EvAppend t]. split; [reflexivity|].
    repeat constructor. intro H. discriminate.
Qed.

Lemma as_configured_set_log (cfg : LLMConfig) (f : LogFn) :
  respects (as_configured cfg) (modify (set_console_log f)).
Proof.
  intros st Hcfg. split; [exact Hcfg|]. split.
  - exists []. symmetry. apply List.app_nil_r.
  - exists []. split; [symmetry; apply List.app_nil_r | constructor].
Qed.

#[local] Hint Resolve as_configured_refl as_configured_trans as_configured_emit
  as_configured_push as_configured_set_log : agent.

Lemma offline_as_configured (cfg : LLMConfig) (st st' : Agent) :
  llmConfig st' = llmConfig st ->
  conversation st' = conversation st ->
  offline st st' ->
  as_configured cfg st st'.
Proof.
  intros Hsame Hconv (evs & Hevs & Hnone) Hcfg.
  split; [congruence|]. split.
  - exists []. rewrite Hconv. symmetry. apply List.app_nil_r.
  - exists evs. split; [exact Hevs|].
    clear Hevs. induction evs as [|e evs IH]; constructor.
    + intro He. unfold model_calls in Hnone. cbn [filter] in Hnone.
      rewrite He in Hnone. discriminate.
    + apply IH. unfold model_calls in *. cbn [filter] in Hnone.
      destruct (is_fetch e); [discriminate | exact Hnone].
Qed.

Section Requests.

Variable js_eval : string -> EvalOutcome.

Lemma as_configured_after_response (cfg : LLMConfig) (response : Message) :
  respects (as_configured cfg) (after_response js_eval response).
Proof.
  unfold after_response, addMessage, handleToolCall, showToolCall, dispatch,
    searchWeb, aiPipe, executeJS, showToolResult, delay.
  respects_tac.
Qed.

Lemma as_configured_callLLM_receive (cfg : LLMConfig) (settled : FetchOutcome) :
  respects (as_configured cfg) (callLLM_receive settled).
Proof. unfold callLLM_receive, hideLoadingIndicator. respects_tac. Qed.

Lemma as_configured_request (cfg : LLMConfig) (st : Agent) :
  as_configured cfg st
    (add_event (request_for cfg (conversation st)) (add_event (EvLoading true) st)).
Proof.
  intro Hcfg. split; [exact Hcfg|]. split.
  - exists []. symmetry. apply List.app_nil_r.
  - exists [EvLoading true; request_for cfg (conversation st)]. split.
    + cbn [add_event events]. rewrite <- List.app_assoc. reflexivity.
    + repeat constructor; [intro H; discriminate|].
      intros _. exists []. rewrite List.app_nil_r. reflexivity.
Qed.

Lemma as_configured_agentLoop_while
      (cfg : LLMConfig) (network : list FetchOutcome) :
  forall st, llmConfig st = Some cfg ->
  as_configured cfg st (snd (fst (agentLoop_while js_eval network st))).
Proof.
  induction network as [|settled later IH]; intros st Hcfg; cbn [agentLoop_while].
  - rewrite (callLLM_send_configured cfg _ st Hcfg). apply as_configured_request.
  - unfold callLLM, bind. rewrite (callLLM_send_configured cfg _ st Hcfg).
    set (sent := add_event _ (add_event _ st)).
    pose proof (as_configured_request cfg st) as Hsent. fold sent in Hsent.
    pose proof (as_configured_callLLM_receive cfg settled sent) as Hrec.
    destruct (callLLM_receive settled sent) as [[response|e] st1]; cbn [fst snd] in *;
      [|exact (as_configured_trans _ _ _ _ Hsent Hrec)].
    pose proof (as_configured_after_response cfg response st1) as Hafter.
    pose proof (as_configured_trans _ _ _ _ Hsent
                  (as_configured_trans _ _ _ _ Hrec Hafter)) as Hround.
    destruct (after_response js_eval response st1) as [[[|]|e] st2]; cbn [fst snd] in *;
      try exact Hround.
    eapply as_configured_trans; [exact Hround|].
    apply IH. apply (Hround Hcfg).
Qed.

(** X21. Every request of the loop is made as configured and is complete: it
    goes to the configured endpoint with the configured key and model,
    offers the whole tool registry, and carries every turn the
    conversation had when the loop began, followed by those added since;
    no turn is ever left out of a request. *)
Theorem every_request_is_configured_and_complete
        (cfg : LLMConfig) (network : list FetchOutcome) (st : Agent) :
  llmConfig st = Some cfg ->
  exists evs,
    events (snd (fst (agentLoop js_eval network st))) = (events st ++ evs)%list
    /\ forall url key payload,
         In (EvFetch url key payload) evs ->
         url = baseUrl cfg ++ "/chat/completions"
         /\ key = apiKey cfg
         /\ payload_model payload = model cfg
         /\ payload_tools payload = initializeTools
         /\ exists turns, payload_messages payload = (conversation st ++ turns)%list.
Proof.
  intro Hcfg. unfold agentLoop.
  pose proof (as_configured_agentLoop_while cfg network st Hcfg) as Hloop.
  destruct (agentLoop_while js_eval network st) as [[left st1] rest].
  destruct (agentLoop_exit_frame left st1 rest)
    as (state & st' & -> & Hconv & _ & Hsame & Hoff & _).
  cbn [fst snd] in *.
  pose proof (as_configured_trans _ _ _ _ Hloop
                (offline_as_configured cfg st1 st' Hsame Hconv Hoff)) as Hall.
  destruct (Hall Hcfg) as (_ & _ & (evs & Hevs & Hsent)).
  exists evs. split; [exact Hevs|].
  intros url key payload Hin.
  rewrite Forall_forall in Hsent.
  destruct (Hsent _ Hin eq_refl) as (turns & Heq).
  injection Heq as -> -> ->. repeat split. exists turns. reflexivity.
Qed.

End Requests.

(* ================================================================== *)
(** ** The further properties at work *)
(* ================================================================== *)

Ltac drawn := eexists; vm_compute; reflexivity.

Ltac asking :=
  do 7 eexists; repeat (split; [reflexivity|]); repeat constructor; drawn.

Lemma drawable_call_is_answered_once_witness :
  displayable Demo.good_call
  /\ exists text st',
       handleToolCall Demo.js_eval Demo.good_call new_agent = (Return tt, st')
       /\ conversation st' = [mkTurn tool (Some text) None (Some "call_2")]
       /\ isProcessing st' = false
       /\ llmConfig st' = None.
Proof.
  assert (H : displayable Demo.good_call) by drawn.
  split; [exact H|].
  exact (drawable_call_is_answered_once Demo.js_eval Demo.good_call new_agent H).
Defined.

Lemma drawable_batch_runs_in_sequence_witness :
  let calls := [Demo.good_call; Demo.call "call_3" "execute_js" (Demo.field "code" "1 + 1")] in
  Forall displayable calls
  /\ exists st' turns evs,
       for_of calls (handleToolCall Demo.js_eval) new_agent = (Return tt, st')
       /\ conversation st' = turns
       /\ length turns = 2
       /\ map tool_call_id turns = [Some "call_2"; Some "call_3"]
       /\ events st' = evs
       /\ tool_trace evs
          = [Started "call_2"; Appended tool (Some "call_2");
             Started "call_3"; Appended tool (Some "call_3")].
Proof.
  cbv zeta.
  assert (H : Forall displayable
                [Demo.good_call;
                 Demo.call "call_3" "execute_js" (Demo.field "code" "1 + 1")])
    by (repeat constructor; drawn).
  split; [exact H|].
  exact (drawable_batch_runs_in_sequence Demo.js_eval _ new_agent H).
Defined.

Lemma search_and_pipe_calls_never_fail_witness :
  displayable Demo.good_call
  /\ exists text st' params,
       handleToolCall Demo.js_eval Demo.good_call new_agent = (Return tt, st')
       /\ conversation st' = [tool_turn "call_2" (Some text)]
       /\ fst (dispatch Demo.js_eval "search_web" (Demo.field "query" "rocq")
                        (add_event (EvToolCall Demo.good_call params) new_agent))
          = Return (VStr text).
Proof.
  assert (H : displayable Demo.good_call) by drawn.
  split; [exact H|].
  exact (search_and_pipe_calls_never_fail Demo.js_eval Demo.good_call new_agent H
           (or_introl eq_refl)).
Defined.

Lemma unregistered_tool_is_refused_witness :
  let toolCall := Demo.call "call_9" "get_weather" (Demo.field "city" "Paris") in
  (forall args st0,
      dispatch Demo.js_eval "get_weather" args st0
      = (Throw (mkError Error "Unknown tool: get_weather"), st0))
  /\ (displayable toolCall ->
      exists st',
        handleToolCall Demo.js_eval toolCall new_agent = (Return tt, st')
        /\ conversation st'
           = [tool_turn "call_9"
                (Some "Tool execution failed: Unknown tool: get_weather")]).
Proof.
  cbv zeta.
  apply (unregistered_tool_is_refused Demo.js_eval
           (Demo.call "call_9" "get_weather" (Demo.field "city" "Paris")) new_agent).
  cbn. intuition discriminate.
Defined.


Lemma agentLoop_one_request_per_answer_witness :
  let network := [Demo.answer (Some "hello") None; Demo.answer (Some "unused") None] in
  exists used,
    network = (used ++ [Demo.answer (Some "unused") None])%list
    /\ model_calls (events (snd (fst (agentLoop Demo.js_eval network (Demo.ready "hi")))))
       = 0 + length used + 0.
Proof.
  cbv zeta.
  apply (agentLoop_one_request_per_answer Demo.js_eval Demo.config
           [Demo.answer (Some "hello") None; Demo.answer (Some "unused") None]
           [Demo.answer (Some "unused") None]
           (Demo.ready "hi") _ AwaitingUser).
  - reflexivity.
  - vm_compute. reflexivity.
Defined.

Lemma agentLoop_has_no_round_limit_witness :
  let network :=
    [Demo.answer None (Some [Demo.good_call]); Demo.answer None (Some [Demo.good_call])] in
  Forall asks_for_tools network
  /\ exists st',
       agentLoop Demo.js_eval network (Demo.ready "hi") = (AwaitingModel, st', [])
       /\ model_calls (events st') = 3.
Proof.
  cbv zeta.
  assert (H : Forall asks_for_tools
                [Demo.answer None (Some [Demo.good_call]);
                 Demo.answer None (Some [Demo.good_call])])
    by (repeat (constructor; [asking|]); constructor).
  split; [exact H|].
  exact (agentLoop_has_no_round_limit Demo.js_eval Demo.config _ (Demo.ready "hi")
           eq_refl H).
Defined.

Lemma tool_answers_reach_next_request_witness :
  asks_for_tools (Demo.answer None (Some [Demo.good_call]))
  /\ exists response calls turns before evs,
       message_tool_calls response = Some calls
       /\ map tool_call_id turns = map (fun c => Some (id c)) calls
       /\ Forall (fun t => role t = tool) turns
       /\ events (snd (fst (agentLoop Demo.js_eval
                              [Demo.answer None (Some [Demo.good_call])]
                              (Demo.ready "hi"))))
          = (before
             ++ EvLoading true
             :: request_for Demo.config
                  ([] ++ assistant_turn (message_content response) (Some calls) :: turns)
             :: evs)%list.
Proof.
  assert (H : asks_for_tools (Demo.answer None (Some [Demo.good_call]))) by asking.
  split; [exact H|].
  exact (tool_answers_reach_next_request Demo.js_eval Demo.config _ [] (Demo.ready "hi")
           eq_refl H).
Defined.

Lemma accepted_submission_is_sent_first_witness :
  exists state st' rest turns evs,
    handleUserMessage Demo.js_eval [Demo.answer (Some "hello") None] (Demo.ready "  hi ")
    = (Some state, st', rest)
    /\ conversation st' = user_turn "hi" :: turns
    /\ Forall (fun t => role t = assistant \/ role t = tool) turns
    /\ messageInput_value st' = EmptyString
    /\ events st'
       = ([EvMessage "user" "hi"; EvAppend (user_turn "hi"); EvLoading true;
           request_for Demo.config [user_turn "hi"]]
          ++ evs)%list.
Proof.
  apply (accepted_submission_is_sent_first Demo.js_eval Demo.config
           [Demo.answer (Some "hello") None] (Demo.ready "  hi ")); reflexivity.
Defined.

Lemma failed_submission_keeps_user_turn_witness :
  exists e st',
    handleUserMessage Demo.js_eval [Demo.service_unavailable] (Demo.ready "hi")
    = (Some (Failed e), st', [])
    /\ conversation st' = [user_turn "hi"]
    /\ messageInput_value st' = EmptyString
    /\ isProcessing st' = false.
Proof.
  apply (failed_submission_keeps_user_turn Demo.js_eval Demo.config
           Demo.service_unavailable [] (Demo.ready "hi")); reflexivity.
Defined.

Lemma shown_result_is_what_the_model_is_told_witness :
  let drawing := add_event (EvToolCall Demo.good_call "<strong>query:</strong> rocq") new_agent in
  let settled := dispatch Demo.js_eval "search_web" (Demo.field "query" "rocq") drawing in
  exists text failed st',
    handleToolCall Demo.js_eval Demo.good_call new_agent = (Return tt, st')
    /\ events st'
       = (events (snd settled)
          ++ (if tool_div_present "call_2" (events (snd settled))
              then [EvToolResult "call_2" (VStr text) failed]
              else [])
          ++ [EvAppend (tool_turn "call_2" (Some text))])%list
    /\ match fst settled with
       | Return result => failed = false /\ result = VStr text
       | Throw e => failed = true /\ text = "Tool execution failed: " ++ message e
       end.
Proof.
  cbv zeta.
  apply (shown_result_is_what_the_model_is_told Demo.js_eval Demo.good_call
           "<strong>query:</strong> rocq"
           (fst (dispatch Demo.js_eval "search_web" (Demo.field "query" "rocq")
                   (add_event (EvToolCall Demo.good_call "<strong>query:</strong> rocq")
                              new_agent)))
           new_agent
           (snd (dispatch Demo.js_eval "search_web" (Demo.field "query" "rocq")
                   (add_event (EvToolCall Demo.good_call "<strong>query:</strong> rocq")
                              new_agent)))).
  - vm_compute. reflexivity.
  - apply surjective_pairing.
Defined.

Lemma late_answer_lands_in_cleared_chat_witness :
  let s := mkSession (Demo.busy "more") 1 in
  conversation (agent (happen Demo.js_eval s Clear)) = []
  /\ exists response turns,
       conversation
         (agent (happen Demo.js_eval (happen Demo.js_eval s Clear)
                        (Settle (Demo.answer (Some "late") None))))
       = assistant_turn (message_content response) (message_tool_calls response) :: turns.
Proof.
  cbv zeta.
  apply (late_answer_lands_in_cleared_chat Demo.js_eval
           (mkSession (Demo.busy "more") 1) (Demo.answer (Some "late") None)).
  - discriminate.
  - reflexivity.
Defined.

Lemma formatMessageContent_passes_markup_through_witness :
  formatMessageContent "<img src=x onerror=alert(1)>" = "<img src=x onerror=alert(1)>".
Proof.
  apply (formatMessageContent_passes_markup_through "<img src=x onerror=alert(1)>");
    reflexivity.
Defined.

Lemma formatMessageContent_emboldens_witness :
  formatMessageContent ("1. " ++ "**" ++ "rocq News" ++ "**" ++ " today")
  = "1. " ++ "<strong>" ++ "rocq News" ++ "</strong>" ++ formatMessageContent " today".
Proof.
  apply (formatMessageContent_emboldens "1. " "rocq News" " today"); reflexivity.
Defined.

Lemma every_request_is_configured_and_complete_witness :
  exists evs,
    events (snd (fst (agentLoop Demo.js_eval
                        [Demo.answer None (Some [Demo.good_call])] (Demo.busy "more"))))
    = evs
    /\ forall url key payload,
         In (EvFetch url key payload) evs ->
         url = "https://api.openai.com/v1/chat/completions"
         /\ key = "sk-test"
         /\ payload_model payload = "gpt-3.5-turbo"
         /\ payload_tools payload = initializeTools
         /\ exists turns, payload_messages payload = (user_turn "hi" :: turns).
Proof.
  apply (every_request_is_configured_and_complete Demo.js_eval Demo.config
           [Demo.answer None (Some [Demo.good_call])] (Demo.busy "more")).
  reflexivity.
Defined.
